(** * Mermaid diagram sanitizer: a shallow embedding of
      [src/components/ui/mermaid-diagram.tsx]

    The component cleans up a Mermaid graph description with chains of
    regular-expression rewrites and renders it through a four-step
    fallback.  Strings are lists of UTF-16 code units, regular expressions
    are values of an abstract syntax interpreted by a backtracking matcher
    that follows the ECMAScript matching rules, and every function of the
    component is a Rocq function with the name it has in the source. *)

From Stdlib Require Import String Ascii NArith Bool Arith Lia List.
Import ListNotations.
Open Scope list_scope.
Open Scope nat_scope.

(** ** Strings *)

(** A JavaScript string is a sequence of UTF-16 code units. *)
Definition char := N.
Definition str := list char.

Definition ch (a : ascii) : char := N_of_ascii a.

(** [js] reads a source literal: the two characters backslash-n stand for
    a line feed, backslash-r for a carriage return, as in the source. *)
Fixpoint js (s : string) : str :=
  match s with
  | EmptyString => []
  | String a r =>
      match r with
      | String b r' =>
          if Ascii.eqb a "\" then
            if Ascii.eqb b "n" then 10%N :: js r'
            else if Ascii.eqb b "r" then 13%N :: js r'
            else ch a :: js r
          else ch a :: js r
      | EmptyString => [ch a]
      end
  end.

Definition str_eqb (a b : str) : bool :=
  if list_eq_dec N.eq_dec a b then true else false.

Lemma str_eqb_eq a b : str_eqb a b = true <-> a = b.
Proof. unfold str_eqb. destruct (list_eq_dec N.eq_dec a b); split; congruence. Qed.

Module JS.

(** [\s], and what [String.prototype.trim] strips: WhiteSpace and
    LineTerminator code units. *)
Definition isSpace (c : char) : bool :=
  ((9 <=? c) && (c <=? 13) || (c =? 32) || (c =? 160) || (c =? 5760)
   || (8192 <=? c) && (c <=? 8202) || (c =? 8232) || (c =? 8233)
   || (c =? 8239) || (c =? 8287) || (c =? 12288) || (c =? 65279))%N.

(** LineTerminator: LF, CR, LS, PS. *)
Definition isLineTerminator (c : char) : bool :=
  ((c =? 10) || (c =? 13) || (c =? 8232) || (c =? 8233))%N.

(** [\w] *)
Definition isWord (c : char) : bool :=
  ((65 <=? c) && (c <=? 90) || (97 <=? c) && (c <=? 122)
   || (48 <=? c) && (c <=? 57) || (c =? 95))%N.

Definition toUpperChar (c : char) : char :=
  if ((97 <=? c) && (c <=? 122))%N then (c - 32)%N else c.
Definition toLowerChar (c : char) : char :=
  if ((65 <=? c) && (c <=? 90))%N then (c + 32)%N else c.

(** [toUpperCase] on the ASCII range; the component applies it to two
    letters matched by [[A-Z]{2}] only. *)
Definition toUpperCase (s : str) : str := map toUpperChar s.

Fixpoint trimStart (s : str) : str :=
  match s with
  | c :: r => if isSpace c then trimStart r else s
  | [] => []
  end.
Definition trimEnd (s : str) : str := rev (trimStart (rev s)).
Definition trim (s : str) : str := trimEnd (trimStart s).

Fixpoint startsWith (s p : str) {struct p} : bool :=
  match p with
  | [] => true
  | a :: p' =>
      match s with
      | b :: s' => (a =? b)%N && startsWith s' p'
      | [] => false
      end
  end.

Fixpoint includes (s sub : str) : bool :=
  startsWith s sub || match s with [] => false | _ :: r => includes r sub end.

(** [s.split("\n")]: the pieces between line feeds; never empty. *)
Fixpoint split (sep : char) (s : str) : list str :=
  match s with
  | [] => [[]]
  | c :: r =>
      if (c =? sep)%N then [] :: split sep r
      else match split sep r with
           | l :: ls => (c :: l) :: ls
           | [] => [[c]]
           end
  end.

Fixpoint join (sep : str) (ls : list str) : str :=
  match ls with
  | [] => []
  | [l] => l
  | l :: ls' => l ++ sep ++ join sep ls'
  end.

Fixpoint repeat (s : str) (n : nat) : str :=
  match n with 0 => [] | S k => s ++ repeat s k end.

(** [s.replace(pat, by)] with a string pattern: the first occurrence
    only.  The replacement strings of the component hold no [$]. *)
Fixpoint replaceStr (s pat by_ : str) : str :=
  if startsWith s pat then by_ ++ skipn (length pat) s
  else match s with
       | [] => []
       | c :: r => c :: replaceStr r pat by_
       end.

(** [Array.prototype.splice(i, 0, x)]: insert before index [i] (at the
    end when [i] is past it). *)
Fixpoint spliceIn {A : Type} (i : nat) (x : A) (l : list A) : list A :=
  match i, l with
  | 0, _ => x :: l
  | S j, y :: l' => y :: spliceIn j x l'
  | S _, [] => [x]
  end.

(** A [Set<string>]: members in insertion order, no duplicates. *)
Definition has (s : list str) (x : str) : bool := existsb (str_eqb x) s.
Definition add (s : list str) (x : str) : list str :=
  if has s x then s else s ++ [x].

End JS.

(** ** Regular expressions *)

Module RegExp.

Inductive citem : Type :=
| CChar (c : char)              (* a character *)
| CRange (lo hi : char)         (* lo-hi *)
| CSpace.                       (* \s *)

Inductive re : Type :=
| Eps
| Chr (c : char)
| Class (negated : bool) (items : list citem)   (* [...] and [^...] *)
| Seq (a b : re)
| Alt (a b : re)                (* a|b, left first *)
| Star (a : re)                 (* a*, greedy *)
| Plus (a : re)                 (* a+, greedy *)
| Group (i : nat) (a : re)      (* the i-th capturing group *)
| Backref (i : nat)             (* \i *)
| NotAhead (a : re)             (* (?!a) *)
| Any                           (* . *)
| WordB                         (* \b *)
| Bol                           (* ^ *)
| Eol.                          (* $ *)

Record flags := Flags { ignoreCase : bool; multiline : bool }.

(** Matcher state: the position, the code unit before it, the rest of
    the subject, and the captures made so far. *)
Record mstate := MState {
  ms_pos : nat;
  ms_prev : option char;
  ms_rest : str;
  ms_caps : list (nat * str) }.

Definition cont := mstate -> option mstate.

Definition in_item (c : char) (it : citem) : bool :=
  match it with
  | CChar d => (c =? d)%N
  | CRange lo hi => ((lo <=? c) && (c <=? hi))%N
  | CSpace => JS.isSpace c
  end.

Definition in_items (items : list citem) (c : char) : bool :=
  existsb (in_item c) items.

(** With the [i] flag two code units match when they canonicalize to
    the same one; on the ASCII patterns of the component that is: the
    subject's code unit, upper-cased or lower-cased, is in the set. *)
Definition in_class (f : flags) (negated : bool) (items : list citem) (c : char) : bool :=
  xorb negated
    (if ignoreCase f
     then in_items items (JS.toUpperChar c) || in_items items (JS.toLowerChar c)
     else in_items items c).

Definition chr_eq (f : flags) (c d : char) : bool :=
  if ignoreCase f then (JS.toUpperChar c =? JS.toUpperChar d)%N else (c =? d)%N.

Definition step (c : char) (st : mstate) : mstate :=
  MState (S (ms_pos st)) (Some c) (tl (ms_rest st)) (ms_caps st).

Definition one (p : char -> bool) (k : cont) (st : mstate) : option mstate :=
  match ms_rest st with
  | c :: _ => if p c then k (step c st) else None
  | [] => None
  end.

Fixpoint get_cap (i : nat) (caps : list (nat * str)) : option str :=
  match caps with
  | [] => None
  | (j, t) :: r => if i =? j then Some t else get_cap i r
  end.

Definition set_cap (i : nat) (t : str) (st : mstate) : mstate :=
  MState (ms_pos st) (ms_prev st) (ms_rest st) ((i, t) :: ms_caps st).

(** The text consumed between two states of one run. *)
Definition consumed (st st' : mstate) : str :=
  firstn (ms_pos st' - ms_pos st) (ms_rest st).

Fixpoint skip (t : str) (st : mstate) : mstate :=
  match t with
  | [] => st
  | c :: t' => skip t' (step c st)
  end.

Definition isWordO (o : option char) : bool :=
  match o with Some c => JS.isWord c | None => false end.

(** Greedy iteration.  An iteration that consumes nothing is rejected,
    as ECMAScript's RepeatMatcher does, so [S (length rest)] rounds are
    never used up. *)
Fixpoint star_loop (ma : cont -> cont) (k : cont) (fuel : nat) (st : mstate)
  : option mstate :=
  match fuel with
  | 0 => k st
  | S n =>
      match ma (fun st' =>
                  if length (ms_rest st') <? length (ms_rest st)
                  then star_loop ma k n st' else None) st with
      | Some r => Some r
      | None => k st
      end
  end.

Definition star (ma : cont -> cont) (k : cont) (st : mstate) : option mstate :=
  star_loop ma k (S (length (ms_rest st))) st.

(** The backtracking matcher, in continuation-passing style: [m f r k st]
    is the first way, in priority order, to match [r] at [st] such that
    the continuation [k] succeeds. *)
Fixpoint m (f : flags) (r : re) (k : cont) (st : mstate) {struct r} : option mstate :=
  match r with
  | Eps => k st
  | Chr c => one (chr_eq f c) k st
  | Class neg items => one (in_class f neg items) k st
  | Any => one (fun c => negb (JS.isLineTerminator c)) k st
  | Seq a b => m f a (m f b k) st
  | Alt a b =>
      match m f a k st with
      | Some r => Some r
      | None => m f b k st
      end
  | Star a => star (m f a) k st
  | Plus a => m f a (star (m f a) k) st
  | Group i a => m f a (fun st' => k (set_cap i (consumed st st') st')) st
  | Backref i =>
      match get_cap i (ms_caps st) with
      | None => k st
      | Some t => if JS.startsWith (ms_rest st) t then k (skip t st) else None
      end
  | NotAhead a =>
      match m f a Some st with
      | Some _ => None
      | None => k st
      end
  | WordB =>
      if xorb (isWordO (ms_prev st)) (isWordO (hd_error (ms_rest st)))
      then k st else None
  | Bol =>
      match ms_prev st with
      | None => k st
      | Some c => if multiline f && JS.isLineTerminator c then k st else None
      end
  | Eol =>
      match ms_rest st with
      | [] => k st
      | c :: _ => if multiline f && JS.isLineTerminator c then k st else None
      end
  end.

(** A regular expression literal: a pattern and its [i] and [m] flags
    (whether it is global shows in the operation applied to it). *)
Record regex := Regex { pattern : re; reflags : flags }.

Definition rx (p : re) : regex := Regex p (Flags false false).
Definition rx_m (p : re) : regex := Regex p (Flags false true).
Definition rx_i (p : re) : regex := Regex p (Flags true false).

(** The result of a successful match: where it starts and ends, the
    matched text, and the captures. *)
Record mresult := MResult {
  m_index : nat;
  m_end : nat;
  m_text : str;
  m_caps : list (nat * str) }.

Definition group (i : nat) (r : mresult) : option str := get_cap i (m_caps r).
Definition groupOr (i : nat) (r : mresult) : str :=
  match group i r with Some t => t | None => [] end.

Definition result_of (st st' : mstate) : mresult :=
  MResult (ms_pos st) (ms_pos st') (consumed st st') (ms_caps st').

(** Leftmost match at or after the state [(pos, prev, rest)]. *)
Fixpoint search (x : regex) (pos : nat) (prev : option char) (rest : str)
  : option (mstate * mstate) :=
  let st := MState pos prev rest [] in
  match m (reflags x) (pattern x) Some st with
  | Some st' => Some (st, st')
  | None =>
      match rest with
      | [] => None
      | c :: rest' => search x (S pos) (Some c) rest'
      end
  end.

Definition last_opt (s : str) : option char :=
  match rev s with c :: _ => Some c | [] => None end.

(** [x.exec(s)] with [x.lastIndex = i] on a global expression; the new
    [lastIndex] is [m_end] of the result, or 0 when there is none. *)
Definition exec (x : regex) (s : str) (i : nat) : option mresult :=
  if length s <? i then None
  else match search x i (last_opt (firstn i s)) (skipn i s) with
       | Some (st, st') => Some (result_of st st')
       | None => None
       end.

(** The loop [while ((r = x.exec(s)) !== null) ...] over a subject that
    does not change: every match, left to right.  No expression of the
    component matches the empty string, so [lastIndex] always moves. *)
Fixpoint execAll_from (x : regex) (s : str) (fuel : nat) (i : nat) : list mresult :=
  match fuel with
  | 0 => []
  | S n =>
      match exec x s i with
      | None => []
      | Some r => r :: execAll_from x s n (if m_end r =? m_index r then S (m_end r) else m_end r)
      end
  end.

Definition execAll (x : regex) (s : str) : list mresult :=
  execAll_from x s (S (length s)) 0.

(** [x.test(s)] on a fresh expression. *)
Definition test (x : regex) (s : str) : bool :=
  match exec x s 0 with Some _ => true | None => false end.

(** [s.match(x)] without the [g] flag. *)
Definition match_ (x : regex) (s : str) : option mresult := exec x s 0.

(** [s.replace(x, by)] with the [g] flag: every match, left to right,
    is replaced by [by_] applied to it. *)
Fixpoint replaceAll_loop (x : regex) (by_ : mresult -> str) (fuel : nat)
    (pos : nat) (prev : option char) (rest : str) : str :=
  match fuel with
  | 0 => rest
  | S n =>
      match search x pos prev rest with
      | None => rest
      | Some (st, st') =>
          firstn (ms_pos st - pos) rest ++ by_ (result_of st st') ++
          (if ms_pos st' =? ms_pos st
           then match ms_rest st with
                | [] => []
                | c :: rest' => c :: replaceAll_loop x by_ n (S (ms_pos st)) (Some c) rest'
                end
           else replaceAll_loop x by_ n (ms_pos st') (ms_prev st') (ms_rest st'))
      end
  end.

Definition replaceAll (x : regex) (by_ : mresult -> str) (s : str) : str :=
  replaceAll_loop x by_ (S (length s)) 0 None s.

(** [s.replace(x, by)] without the [g] flag: the first match only. *)
Definition replaceFirst (x : regex) (by_ : mresult -> str) (s : str) : str :=
  match search x 0 None s with
  | None => s
  | Some (st, st') =>
      firstn (ms_pos st) s ++ by_ (result_of st st') ++ ms_rest st'
  end.

(** Building patterns. *)
Fixpoint lit (s : str) : re :=
  match s with
  | [] => Eps
  | [c] => Chr c
  | c :: r => Seq (Chr c) (lit r)
  end.

Fixpoint seq (l : list re) : re :=
  match l with
  | [] => Eps
  | [a] => a
  | a :: r => Seq a (seq r)
  end.

Fixpoint alt (l : list re) : re :=
  match l with
  | [] => NotAhead Eps
  | [a] => a
  | a :: r => Alt a (alt r)
  end.

End RegExp.

Import RegExp.

(** ** The patterns of the component *)

Definition nl : char := 10%N.

(** [[A-Za-z0-9_-]] *)
Definition idChar : re :=
  Class false [CRange (ch "A") (ch "Z"); CRange (ch "a") (ch "z");
               CRange (ch "0") (ch "9"); CChar (ch "_"); CChar (ch "-")].
Definition ident : re := Plus idChar.
Definition ws : re := Class false [CSpace].

(** [\[[^\]]*\]|\([^)]*\)|\{[^}]*\}] *)
Definition bracketOf (o c : ascii) : re :=
  seq [Chr (ch o); Star (Class true [CChar (ch c)]); Chr (ch c)].
Definition bracketed : re :=
  alt [bracketOf "[" "]"; bracketOf "(" ")"; bracketOf "{" "}"].

(** [/\b([A-Za-z0-9_-]+)\s*(?:\[[^\]]*\]|\([^)]*\)|\{[^}]*\})/g] *)
Definition nodeDefRegex : regex :=
  rx (seq [WordB; Group 1 ident; Star ws; bracketed]).

(** [-->|==>|-.->|--o|--x|\|>|<\||~~~|---|===]; the dot of [-.->] is not
    escaped in the source and stands for any character. *)
Definition arrows : list re :=
  [lit (js "-->"); lit (js "==>"); seq [Chr (ch "-"); Any; Chr (ch "-"); Chr (ch ">")];
   lit (js "--o"); lit (js "--x"); lit (js "|>"); lit (js "<|");
   lit (js "~~~"); lit (js "---"); lit (js "===")].

(** [/\b([A-Za-z0-9_-]+)\s*(?:-->|...|===)/g], in [processDefinition] *)
Definition connFromRegex : regex :=
  rx (seq [WordB; Group 1 ident; Star ws; alt arrows]).

(** [/\b([A-Za-z0-9_-]+)\s*(?:-->|...|===)\s*([A-Za-z0-9_-]+)/g], in
    [validateAndFixDiagram] and [ensurePerfectDiagram] *)
Definition connRegex : regex :=
  rx (seq [WordB; Group 1 ident; Star ws; alt arrows; Star ws; Group 2 ident]).

(** The connection pattern of [createFallbackDiagram]: no [\b], and three
    more arrows: [~~~>], [--] and [==] each followed by an escaped star. *)
Definition connectionPattern : regex :=
  rx (seq [Group 1 ident; Star ws;
           alt (arrows ++ [lit (js "~~~>"); lit (js "--*"); lit (js "==*")]);
           Star ws; Group 2 ident]).

(** [\s*(?:;|$)] *)
Definition toLineEnd : re := Seq (Star ws) (Alt (Chr (ch ";")) Eol).

(** The six expressions for arrows without a target. *)
Definition danglingPattern (arrow : re) : re := Seq arrow toLineEnd.
Definition dotArrow : re := seq [Chr (ch "-"); Any; Chr (ch "-"); Chr (ch ">")].

(** [/([A-Za-z0-9_-]+(?:\[[^\]]*\]|\([^)]*\)|\{[^}]*\}))\s+\1\s+XX(?!>)/gm] *)
Definition repeatedDef (arrow : str) : regex :=
  rx_m (seq [Group 1 (Seq ident bracketed); Plus ws; Backref 1; Plus ws;
             lit arrow; NotAhead (Chr (ch ">"))]).

(** [(?:graph|flowchart)\s+(?:TD|LR|RL|BT)] *)
Definition declaration : re :=
  seq [Alt (lit (js "graph")) (lit (js "flowchart")); Plus ws;
       alt [lit (js "TD"); lit (js "LR"); lit (js "RL"); lit (js "BT")]].

(** Two declarations on consecutive lines. *)
Definition duplicateDeclaration : regex :=
  rx (seq [declaration; Star ws; Chr nl; Star ws; declaration]).

(** [new RegExp(`\\b${nodeId}\\b(?!\\s*(?:\\[|\\(|\\{))`)]; a node id
    holds no character that is special in a pattern. *)
Definition undefinedUse (nodeId : str) : regex :=
  rx (seq [WordB; lit nodeId; WordB;
           NotAhead (Seq (Star ws) (alt [Chr (ch "["); Chr (ch "("); Chr (ch "{")]))]).

Definition const (s : str) : mresult -> str := fun _ => s.

(** Lines 52-57 of the source (and 251-256): the pass that completes
    arrows without a target. *)
Definition fixIncompleteArrows (s : str) : str :=
  let s := replaceAll (rx_m (danglingPattern (lit (js "-->")))) (const (js "--> Unknown")) s in
  let s := replaceAll (rx_m (danglingPattern (lit (js "==>")))) (const (js "==> Unknown")) s in
  let s := replaceAll (rx_m (danglingPattern dotArrow)) (const (js "-.-> Unknown")) s in
  let s := replaceAll (rx_m (danglingPattern (lit (js "--")))) (const (js "--> Unknown")) s in
  let s := replaceAll (rx_m (danglingPattern (lit (js "==")))) (const (js "==> Unknown")) s in
  replaceAll (rx_m (danglingPattern (lit (js "-.")))) (const (js "-.-> Unknown")) s.

(** Lines 61-63 (and 258-260): a node defined and used again at once. *)
Definition fixRepeatedDefinitions (s : str) : str :=
  let s := replaceAll (repeatedDef (js "--")) (fun r => groupOr 1 r ++ js " --> Unknown") s in
  let s := replaceAll (repeatedDef (js "==")) (fun r => groupOr 1 r ++ js " ==> Unknown") s in
  replaceAll (repeatedDef (js "-.")) (fun r => groupOr 1 r ++ js " -.-> Unknown") s.

(** [/;\s*$/gm] replaced by the empty string. *)
Definition removeTrailingSemicolons (s : str) : str :=
  replaceAll (rx_m (seq [Chr (ch ";"); Star ws; Eol])) (const []) s.

(** Every first group of [nodeDefRegex] in [s], added to a set. *)
Definition collectDefined (acc : list str) (s : str) : list str :=
  fold_left (fun set r => JS.add set (groupOr 1 r)) (execAll nodeDefRegex s) acc.

Definition isBlank (s : str) : bool :=
  match JS.trim s with [] => true | _ => false end.

Definition emptyDiagram : str := js "graph TD\n    A[Empty] --> B[Diagram]".

(** Lines the passes leave alone: comments, declarations, subgraph
    markers.  The tests are [startsWith] on the trimmed line. *)
Definition isSkipped (line : str) : bool :=
  let t := JS.trim line in
  JS.startsWith t (js "%") || JS.startsWith t (js "graph")
  || JS.startsWith t (js "flowchart") || JS.startsWith t (js "subgraph")
  || JS.startsWith t (js "end").

Definition isDeclaration (line : str) : bool :=
  let t := JS.trim line in
  JS.startsWith t (js "graph") || JS.startsWith t (js "flowchart").

(** ** [processDefinition] *)

(** Lines 89-94, the body of the loop over [connRegex.exec(line)]: the
    line after the match [connMatch] has been looked at. *)
Definition defineUse (definedNodes : list str) (line : str) (connMatch : mresult) : str :=
  let nodeId := groupOr 1 connMatch in
  if negb (JS.has definedNodes nodeId)
     && negb (JS.includes line (nodeId ++ js "["))
     && negb (JS.includes line (nodeId ++ js "("))
     && negb (JS.includes line (nodeId ++ js "{"))
  then replaceFirst (undefinedUse nodeId)
         (const (nodeId ++ js "[" ++ nodeId ++ js "]")) line
  else line.

(** Lines 88-95: the loop over [connRegex.exec(line)].  The line is
    rewritten inside the loop while [lastIndex] keeps the end of the last
    match, so the state is the pair of both.  The loop is bounded by
    [fuel]; [connEnds] below tells whether it leaves by the [None]
    branch, and then a larger bound gives the same line. *)
Fixpoint connLoop (definedNodes : list str) (fuel : nat) (line : str) (lastIndex : nat) : str :=
  match fuel with
  | 0 => line
  | S n =>
      match exec connFromRegex line lastIndex with
      | None => line
      | Some connMatch =>
          connLoop definedNodes n (defineUse definedNodes line connMatch) (m_end connMatch)
      end
  end.

Definition processLine (definedNodes : list str) (line : str) : str :=
  if isSkipped line then line
  else connLoop definedNodes (S (length line) * S (length line)) line 0.

(** Lines 34-63: the replacements on the whole text, before it is cut
    into lines. *)
Definition replaced (definition : str) : str :=
  let processed := JS.trim definition in
  let processed := replaceAll (rx (lit (js "\r\n"))) (const (js "\n")) processed in
  let processed :=
    replaceAll duplicateDeclaration
      (fun r => hd [] (JS.split nl (m_text r))) processed in
  let processed :=
    replaceAll (rx (seq [lit (js "--"); Class true [CChar (ch ">")]; Chr (ch ">")]))
      (const (js "-->")) processed in
  let processed :=
    replaceAll (rx (seq [lit (js "=="); Class true [CChar (ch ">")]; Chr (ch ">")]))
      (const (js "==>")) processed in
  let processed := fixIncompleteArrows processed in
  fixRepeatedDefinitions processed.

Definition processDefinition (definition : str) : str :=
  if isBlank definition then emptyDiagram
  else
    let processed := replaced definition in
    let definedNodes := collectDefined [] processed in
    let lines := JS.split nl processed in
    let processedLines := map (processLine definedNodes) lines in
    let processed := JS.join (js "\n") processedLines in
    let processed := removeTrailingSemicolons processed in
    if negb (JS.startsWith (JS.trim processed) (js "graph"))
       && negb (JS.startsWith (JS.trim processed) (js "flowchart"))
    then js "graph TD\n" ++ processed
    else processed.

(** ** Exceptions

    The bodies of [validateAndFixDiagram], [createFallbackDiagram] and
    [ensurePerfectDiagram] run inside [try { ... } catch (error) { ... }].
    A body is a computation that ends in a value or in a thrown error;
    the string and pattern operations above always end in a value. *)

Inductive error : Type := Thrown (what : str).

Inductive result (A : Type) : Type :=
| Ok (a : A)
| Throw (e : error).
Arguments Ok {A} a.
Arguments Throw {A} e.

Definition tryCatch {A : Type} (body : result A) (handler : error -> A) : A :=
  match body with
  | Ok a => a
  | Throw e => handler e
  end.

(** ** [validateAndFixDiagram] *)

Definition occurredDiagram : str :=
  js "graph TD\n    A[Error] --> B[Occurred]\n    B --> C[Fallback]".
Definition repositoryDiagram : str :=
  js "graph TD\n    A[Repository] --> B[Components]".

(** [`    ${node}[${node}]`] *)
Definition definitionLine (node : str) : str :=
  js "    " ++ node ++ js "[" ++ node ++ js "]".
(** [`    ${a} --> ${b}`] *)
Definition edgeLine (a b : str) : str := js "    " ++ a ++ js " --> " ++ b.

(** Lines 128-146, the first pass: the nodes defined on the lines that
    are not skipped. *)
Definition collectPass (lines : list str) : list str :=
  fold_left
    (fun definedNodes line =>
       if isSkipped line then definedNodes
       else collectDefined definedNodes (JS.trim line))
    lines [].

(** The variables the second pass updates. *)
Record fixState := FixState {
  validatedLines : list str;
  definedNodes : list str;
  referencedNodes : list str;
  hasValidConnection : bool }.

(** Lines 169-187: one match of [connRegex]. *)
Definition fixConnection (st : fixState) (connMatch : mresult) : fixState :=
  let fromNode := groupOr 1 connMatch in
  let toNode := groupOr 2 connMatch in
  let refs := JS.add (JS.add (referencedNodes st) fromNode) toNode in
  let '(defs, out) :=
    if negb (JS.has (definedNodes st) fromNode)
    then (JS.add (definedNodes st) fromNode, validatedLines st ++ [definitionLine fromNode])
    else (definedNodes st, validatedLines st) in
  let '(defs, out) :=
    if negb (JS.has defs toNode)
    then (JS.add defs toNode, out ++ [definitionLine toNode])
    else (defs, out) in
  FixState out defs refs true.

(** Lines 149-202: one line of the second pass. *)
Definition fixLine (st : fixState) (line : str) : fixState :=
  let trimmedLine := JS.trim line in
  if JS.startsWith trimmedLine (js "graph")
     || JS.startsWith trimmedLine (js "flowchart")
     || JS.startsWith trimmedLine (js "%")
     || JS.startsWith trimmedLine (js "subgraph")
     || JS.startsWith trimmedLine (js "end")
  then FixState (validatedLines st ++ [line]) (definedNodes st)
         (referencedNodes st) (hasValidConnection st)
  else
    let connMatches := execAll connRegex trimmedLine in
    let st' := fold_left fixConnection connMatches st in
    match connMatches with
    | _ :: _ =>
        FixState (validatedLines st' ++ [line]) (definedNodes st')
          (referencedNodes st') (hasValidConnection st')
    | [] =>
        if (0 <? length trimmedLine) && test nodeDefRegex trimmedLine
        then FixState (validatedLines st ++ [line]) (definedNodes st)
               (referencedNodes st) (hasValidConnection st)
        else st
    end.

Definition fixPass (lines : list str) : fixState :=
  fold_left fixLine lines (FixState [] (collectPass lines) [] false).

(** Lines 205-213: with no connection at all, one is made up. *)
Definition ensureConnection (st : fixState) : list str :=
  if negb (hasValidConnection st) then
    match definedNodes st with
    | a :: b :: _ => validatedLines st ++ [edgeLine a b]
    | [a] => validatedLines st ++ [edgeLine a (js "Unknown"); definitionLine (js "Unknown")]
    | [] => validatedLines st
    end
  else validatedLines st.

Definition validateAndFixDiagram_body (diagram : str) : result str :=
  let lines := JS.split nl diagram in
  let st := fixPass lines in
  let validated := ensureConnection st in
  match definedNodes st with
  | [] => Ok repositoryDiagram
  | _ :: _ =>
      let validatedDiagram := JS.join (js "\n") (filter isDeclaration lines) in
      let validatedDiagram :=
        match validatedDiagram with [] => js "graph TD" | _ => validatedDiagram end in
      Ok (validatedDiagram ++ js "\n" ++ JS.join (js "\n") validated)
  end.

(** The function around a body: the guard for an empty diagram and the
    [try]/[catch]. *)
Definition validateAndFixDiagramWith (body : str -> result str) (diagram : str) : str :=
  if isBlank diagram then emptyDiagram
  else tryCatch (body diagram) (fun _ => occurredDiagram).

Definition validateAndFixDiagram : str -> str :=
  validateAndFixDiagramWith validateAndFixDiagram_body.

(** ** [createFallbackDiagram] *)

Definition featuresDiagram : str :=
  js "graph TD\n    A[Repository] --> B[Components]\n    B --> C[Features]".

(** The definition pattern of line 279: [nodeDefRegex] with the label
    inside each pair of brackets captured, as groups 2, 3 and 4. *)
Definition labelOf (i : nat) (o c : ascii) : re :=
  seq [Chr (ch o); Group i (Star (Class true [CChar (ch c)])); Chr (ch c)].
Definition labelledDefRegex : regex :=
  rx (seq [WordB; Group 1 ident; Star ws;
           alt [labelOf 2 "[" "]"; labelOf 3 "(" ")"; labelOf 4 "{" "}"]]).

(** [a || b] on strings that may be undefined: the first that is neither
    undefined nor empty. *)
Definition orElse (a : option str) (b : str) : str :=
  match a with
  | Some (c :: t) => c :: t
  | _ => b
  end.

(** [nodeLabels] is a plain object used as a map from node ids to
    labels, so a property that was never assigned is looked up in
    [Object.prototype].  [ownLabel] finds the last label assigned. *)
Fixpoint ownLabel (labels : list (str * str)) (node : str) : option str :=
  match labels with
  | [] => None
  | (k, v) :: r => if str_eqb k node then Some v else ownLabel r node
  end.

(** The methods of [Object.prototype] other than [constructor]. *)
Definition prototypeMethods : list str :=
  [js "__defineGetter__"; js "__defineSetter__"; js "hasOwnProperty";
   js "__lookupGetter__"; js "__lookupSetter__"; js "isPrototypeOf";
   js "propertyIsEnumerable"; js "toString"; js "valueOf"; js "toLocaleString"].

(** What the template literal of line 324 writes for an inherited value:
    the text of a built-in function, which is the engine's to choose;
    this is the text V8 gives. *)
Definition inheritedLabel (node : str) : option str :=
  if str_eqb node (js "constructor")
  then Some (js "function Object() { [native code] }")
  else if JS.has prototypeMethods node
  then Some (js "function " ++ node ++ js "() { [native code] }")
  else None.

(** [nodeLabels[node]].  Assigning a string to [__proto__] changes
    nothing, and reading it gives [Object.prototype] itself. *)
Definition lookupLabel (labels : list (str * str)) (node : str) : option str :=
  if str_eqb node (js "__proto__") then Some (js "[object Object]")
  else match ownLabel labels node with
       | Some label => Some label
       | None => inheritedLabel node
       end.

Record extraction := Extraction {
  nodes : list str;
  connections : list (str * str);
  nodeLabels : list (str * str) }.

(** Lines 281-290 *)
Definition extractNode (e : extraction) (nodeMatch : mresult) : extraction :=
  let nodeId := JS.trim (groupOr 1 nodeMatch) in
  let label :=
    orElse (group 2 nodeMatch)
      (orElse (group 3 nodeMatch) (orElse (group 4 nodeMatch) nodeId)) in
  if (0 <? length nodeId) && negb (JS.includes nodeId (js " "))
  then Extraction (JS.add (nodes e) nodeId) (connections e)
         ((nodeId, label) :: nodeLabels e)
  else e.

(** Lines 303-314 *)
Definition extractConnection (e : extraction) (connectionMatch : mresult) : extraction :=
  let from := JS.trim (groupOr 1 connectionMatch) in
  let to := JS.trim (groupOr 2 connectionMatch) in
  if (0 <? length from) && (0 <? length to)
  then Extraction (JS.add (JS.add (nodes e) from) to)
         (connections e ++ [(from, to)]) (nodeLabels e)
  else e.

(** The same six replacements without the [m] flag: [$] is the end of
    the text. *)
Definition fixIncompleteArrowsAtEnd (s : str) : str :=
  let s := replaceAll (rx (danglingPattern (lit (js "-->")))) (const (js "--> Unknown")) s in
  let s := replaceAll (rx (danglingPattern (lit (js "==>")))) (const (js "==> Unknown")) s in
  let s := replaceAll (rx (danglingPattern dotArrow)) (const (js "-.-> Unknown")) s in
  let s := replaceAll (rx (danglingPattern (lit (js "--")))) (const (js "--> Unknown")) s in
  let s := replaceAll (rx (danglingPattern (lit (js "==")))) (const (js "==> Unknown")) s in
  replaceAll (rx (danglingPattern (lit (js "-.")))) (const (js "-.-> Unknown")) s.

(** Lines 274-315: one line of the extraction. *)
Definition extractLine (e : extraction) (line : str) : extraction :=
  if JS.startsWith (JS.trim line) (js "%") then e
  else
    let e := fold_left extractNode (execAll labelledDefRegex line) e in
    let connectionText :=
      fixIncompleteArrowsAtEnd (replaceAll (rx (Plus ws)) (const (js " ")) line) in
    fold_left extractConnection (execAll connectionPattern connectionText) e.

(** Lines 249-315: what is extracted from the original diagram. *)
Definition extract (originalDiagram : str) : extraction :=
  let cleanedDiagram :=
    removeTrailingSemicolons (fixRepeatedDefinitions (fixIncompleteArrows originalDiagram)) in
  fold_left extractLine (JS.split nl cleanedDiagram) (Extraction [] [] []).

Definition createFallbackDiagram_body (validate : str -> str) (originalDiagram : str)
  : result str :=
  let e := extract originalDiagram in
  let fallbackDiagram :=
    js "graph TD\n"
    ++ concat (map (fun node =>
                      js "    " ++ node ++ js "["
                      ++ orElse (lookupLabel (nodeLabels e) node) node ++ js "]\n")
                 (nodes e))
    ++ concat (map (fun conn => js "    " ++ fst conn ++ js " --> " ++ snd conn ++ js "\n")
                 (connections e)) in
  let fallbackDiagram :=
    match nodes e with
    | [] => featuresDiagram
    | _ :: _ => fallbackDiagram
    end in
  Ok (validate fallbackDiagram).

Definition createFallbackDiagramWith (body : str -> result str) (originalDiagram : str) : str :=
  if isBlank originalDiagram then emptyDiagram
  else tryCatch (body originalDiagram) (fun _ => repositoryDiagram).

Definition createFallbackDiagram : str -> str :=
  createFallbackDiagramWith (createFallbackDiagram_body validateAndFixDiagram).

(** ** [ensurePerfectDiagram] *)

Definition processingDiagram : str :=
  js "graph TD\n    A[Error] --> B[In] --> C[Processing]".

Definition diagramTypes : list str :=
  [js "graph"; js "flowchart"; js "sequenceDiagram"; js "classDiagram";
   js "stateDiagram"; js "erDiagram"; js "gantt"; js "pie"; js "journey"].

Definition validDirections : list str := [js "TB"; js "TD"; js "BT"; js "RL"; js "LR"].

(** [/^(graph|flowchart)\s+([A-Z]{2})/i] *)
Definition upper : re := Class false [CRange (ch "A") (ch "Z")].
Definition directionRegex : regex :=
  rx_i (seq [Bol; Group 1 (Alt (lit (js "graph")) (lit (js "flowchart")));
             Plus ws; Group 2 (Seq upper upper)]).

(** Lines 369-374: a declaration is put in front when the text starts
    with no diagram type. *)
Definition ensureType (perfectDiagram : str) : str :=
  if existsb (fun type => JS.startsWith (JS.trim perfectDiagram) type) diagramTypes
  then perfectDiagram
  else js "graph TD\n" ++ perfectDiagram.

(** Lines 376-386: the direction of the declaration. *)
Definition fixDirection (perfectDiagram : str) : str :=
  match match_ directionRegex perfectDiagram with
  | Some directionMatch =>
      if negb (JS.has validDirections (JS.toUpperCase (groupOr 2 directionMatch)))
      then replaceFirst directionRegex (fun r => groupOr 1 r ++ js " TD") perfectDiagram
      else perfectDiagram
  | None => perfectDiagram
  end.

(** [/classDef\s+([A-Za-z0-9_-]+)\s+([^;\n]+)/g] *)
Definition classDefRegex : regex :=
  rx (seq [lit (js "classDef"); Plus ws; Group 1 ident; Plus ws;
           Group 2 (Plus (Class true [CChar (ch ";"); CChar nl]))]).

Definition fixedStyle : str := js "fill:#f9f9f9,stroke:#666,stroke-width:1px".

(** Lines 392-403, the body of the loop over [classDefRegex.exec]: the
    text after the match [classMatch] has been looked at. *)
Definition fixStyle (perfectDiagram : str) (classMatch : mresult) : str :=
  let className := groupOr 1 classMatch in
  let styleText := groupOr 2 classMatch in
  if negb (JS.includes styleText (js ":")) && negb (JS.startsWith styleText (js "{"))
  then JS.replaceStr perfectDiagram
         (js "classDef " ++ className ++ js " " ++ styleText)
         (js "classDef " ++ className ++ js " " ++ fixedStyle)
  else perfectDiagram.

(** Lines 389-404: the text is rewritten inside the loop over
    [classDefRegex.exec], as in [connLoop]; [classDefEnds] below tells
    whether the loop leaves by the [None] branch. *)
Fixpoint classDefLoop (fuel : nat) (perfectDiagram : str) (lastIndex : nat) : str :=
  match fuel with
  | 0 => perfectDiagram
  | S n =>
      match exec classDefRegex perfectDiagram lastIndex with
      | None => perfectDiagram
      | Some classMatch =>
          classDefLoop n (fixStyle perfectDiagram classMatch) (m_end classMatch)
      end
  end.

Definition fixClassDefs (perfectDiagram : str) : str :=
  classDefLoop (S (length perfectDiagram)) perfectDiagram 0.

(** [(s.match(/subgraph/g) || []).length] and the same for [/\bend\b/g] *)
Definition subgraphCount (s : str) : nat := length (execAll (rx (lit (js "subgraph"))) s).
Definition endCount (s : str) : nat :=
  length (execAll (rx (seq [WordB; lit (js "end"); WordB])) s).

(** Lines 407-413 *)
Definition closeSubgraphs (perfectDiagram : str) : str :=
  if endCount perfectDiagram <? subgraphCount perfectDiagram
  then perfectDiagram ++ js "\n"
       ++ JS.repeat (js "end") (subgraphCount perfectDiagram - endCount perfectDiagram)
  else perfectDiagram.

(** Lines 426-433: both groups of every match of [connRegex], in order. *)
Definition collectReferenced (s : str) : list str :=
  fold_left (fun set r => JS.add (JS.add set (groupOr 1 r)) (groupOr 2 r))
    (execAll connRegex s) [].

(** Lines 441-449: the index of the first line that is neither a
    declaration nor a comment, 0 when there is none. *)
Definition isHeaderLine (line : str) : bool :=
  let t := JS.trim line in
  JS.startsWith t (js "graph") || JS.startsWith t (js "flowchart")
  || JS.startsWith t (js "%").

Fixpoint firstContent (i : nat) (lines : list str) : option nat :=
  match lines with
  | [] => None
  | l :: r => if negb (isHeaderLine l) then Some i else firstContent (S i) r
  end.

Definition insertIndex (lines : list str) : nat :=
  match firstContent 0 lines with Some i => i | None => 0 end.

(** Lines 437-455: the loop over the referenced nodes. *)
Definition insertMissing (st : list str * list str) (node : str) : list str * list str :=
  let '(lines, definedNodes) := st in
  if negb (JS.has definedNodes node) && negb (str_eqb node (js "Unknown"))
  then (JS.spliceIn (insertIndex lines) (definitionLine node) lines,
        JS.add definedNodes node)
  else st.

(** Lines 415-457 *)
Definition defineReferenced (perfectDiagram : str) : str :=
  let definedNodes := collectDefined [] perfectDiagram in
  let referencedNodes := collectReferenced perfectDiagram in
  let lines := JS.split nl perfectDiagram in
  JS.join (js "\n") (fst (fold_left insertMissing referencedNodes (lines, definedNodes))).

Definition ensurePerfectDiagram_body (validate : str -> str) (diagram : str) : result str :=
  let perfectDiagram := processDefinition diagram in
  let perfectDiagram := validate perfectDiagram in
  let perfectDiagram := ensureType perfectDiagram in
  let perfectDiagram := fixDirection perfectDiagram in
  let perfectDiagram := fixClassDefs perfectDiagram in
  let perfectDiagram := closeSubgraphs perfectDiagram in
  Ok (defineReferenced perfectDiagram).

Definition ensurePerfectDiagramWith (body : str -> result str) (diagram : str) : str :=
  if isBlank diagram then emptyDiagram
  else tryCatch (body diagram) (fun _ => processingDiagram).

Definition ensurePerfectDiagram : str -> str :=
  ensurePerfectDiagramWith (ensurePerfectDiagram_body validateAndFixDiagram).

(** ** [renderDiagram] *)

Inductive mode : Type := ModeMermaid | ModeFallback.

(** The state of the component that [renderDiagram] sets. *)
Record view := View {
  diagramSvg : str;
  renderMode : mode;
  errorMessage : str }.

(** [useState] initial values. *)
Definition initialView : view := View [] ModeMermaid [].

(** [/[^a-zA-Z0-9\s\[\]\-_>]/g] *)
Definition notAllowed : regex :=
  rx (Class true [CRange (ch "a") (ch "z"); CRange (ch "A") (ch "Z");
                  CRange (ch "0") (ch "9"); CSpace; CChar (ch "[");
                  CChar (ch "]"); CChar (ch "-"); CChar (ch "_"); CChar (ch ">")]).

Definition sanitize (diagramDefinition : str) : str :=
  replaceAll notAllowed (const []) diagramDefinition.

Definition minimalDiagram : str := js "graph TD\n    A[Error] --> B[Rendering Failed]".

(** The source's template literal; [q] is the double quote. *)
Definition q : str := [34%N].
Definition manualSvg : str :=
  js "<svg xmlns=" ++ q ++ js "http://www.w3.org/2000/svg" ++ q
  ++ js " width=" ++ q ++ js "100%" ++ q ++ js " height=" ++ q ++ js "100%" ++ q
  ++ js " viewBox=" ++ q ++ js "0 0 200 100" ++ q ++ js ">\n            <rect width="
  ++ q ++ js "100%" ++ q ++ js " height=" ++ q ++ js "100%" ++ q ++ js " fill=" ++ q
  ++ js "#f5f5f5" ++ q ++ js "/>\n            <text x=" ++ q ++ js "50%" ++ q
  ++ js " y=" ++ q ++ js "50%" ++ q ++ js " font-family=" ++ q ++ js "Arial" ++ q
  ++ js " font-size=" ++ q ++ js "14" ++ q ++ js " text-anchor=" ++ q ++ js "middle" ++ q
  ++ js ">Diagram Rendering Failed</text>\n          </svg>".

Section Render.

(** [mermaid.render(id, text)]: the external engine, which answers
    with the markup or rejects the text.  [dateNow i] is the text of
    [Date.now()] at the [i]-th call. *)
Variable render : str -> str -> result str.
Variable dateNow : nat -> str.

(** What one run does: the view it leaves and, in order, the texts it
    handed to the engine. *)
Record run := Run { shown : view; rendered : list str }.

(** [diagramDefinition] is a property of the component; [None] is a
    missing value.  [!diagramDefinition] holds for it and for the empty
    string. *)
Definition renderDiagram (diagramDefinition : option str) (before : view) : run :=
  match diagramDefinition with
  | None | Some [] =>
      Run (View [] (renderMode before) (errorMessage before)) []
  | Some definition =>
      let primary := processDefinition definition in
      match render (js "mermaid-" ++ dateNow 0) primary with
      | Ok svg => Run (View svg ModeMermaid []) [primary]
      | Throw _ =>
          let sanitizedDefinition := sanitize definition in
          match render (js "sanitized-" ++ dateNow 1) sanitizedDefinition with
          | Ok sanitizedSvg =>
              Run (View sanitizedSvg ModeFallback
                     (js "Diagram was simplified due to syntax issues"))
                [primary; sanitizedDefinition]
          | Throw _ =>
              match render (js "minimal-" ++ dateNow 2) minimalDiagram with
              | Ok minimalSvg =>
                  Run (View minimalSvg ModeFallback
                         (js "Failed to render diagram due to syntax errors"))
                    [primary; sanitizedDefinition; minimalDiagram]
              | Throw _ =>
                  Run (View manualSvg ModeFallback (js "Failed to render diagram"))
                    [primary; sanitizedDefinition; minimalDiagram]
              end
          end
      end
  end.

End Render.

(** ** The caller: [src/components/layout/RepositoryDetails.tsx]

    The panel is not rendered before the analysis is complete; the
    summary is cut into paragraphs and the diagram component is mounted
    only when [workflowDiagram] is not the empty string. *)

Record details := Details {
  paragraphs : option (list str);
  mounted : option str }.

Definition RepositoryDetails (isAnalysisComplete : bool)
    (detailedSummary workflowDiagram : str) : option details :=
  if negb isAnalysisComplete then None
  else Some (Details
               (match detailedSummary with
                | [] => None
                | _ :: _ => Some (JS.split nl detailedSummary)
                end)
               (match workflowDiagram with
                | [] => None
                | _ :: _ => Some workflowDiagram
                end)).

(** ** The producer of the definition: [src/lib/gemini/gemini-service.ts]

    [extractMermaidDiagram], [processMermaidDiagram],
    [fixMismatchedBrackets] and [extractDiagramFromText] prepare the text
    that reaches the component as [workflowDiagram].  The code-block
    expression of [extractMermaidDiagram] has a lazy quantifier and
    [extractSection] builds its expression at run time; what they find is
    a parameter of the embedding. *)

(** [bracketPairs], in the order of [Object.entries]. *)
Definition bracketPairs : list (char * char) :=
  [(ch "(", ch ")"); (ch "[", ch "]"); (ch "{", ch "}"); (ch "<", ch ">")].

(** A [Record<string, number>]: the number kept under each key. *)
Definition tally := char -> nat.
Definition bump (t : tally) (c : char) : tally :=
  fun d => if (d =? c)%N then S (t d) else t d.

(** [Object.keys(openBrackets).includes(char)] and the same for
    [closeBrackets]. *)
Definition isOpen (c : char) : bool := existsb (N.eqb c) (map fst bracketPairs).
Definition isClose (c : char) : bool := existsb (N.eqb c) (map snd bracketPairs).

(** Lines 350-359: the loop over the characters of a line.  [for ... of]
    walks code points; a bracket is one code unit and no half of a
    surrogate pair, so the walk over code units counts the same. *)
Definition countBrackets (line : str) : tally * tally :=
  fold_left
    (fun (counts : tally * tally) char =>
       let '(openBrackets, closeBrackets) := counts in
       if isOpen char then (bump openBrackets char, closeBrackets)
       else if isClose char then (openBrackets, bump closeBrackets char)
       else counts)
    line (fun _ => 0, fun _ => 0).

(** Lines 365-370: one pair of [bracketPairs]. *)
Definition addClosers (openBrackets closeBrackets : tally) (fixedLine : str)
    (pair : char * char) : str :=
  let '(open, close) := pair in
  if closeBrackets close <? openBrackets open
  then fixedLine ++ JS.repeat [close] (openBrackets open - closeBrackets close)
  else fixedLine.

(** Lines 341-373: one line. *)
Definition fixBracketsLine (line : str) : str :=
  if JS.startsWith (JS.trim line) (js "%")
     || JS.startsWith (JS.trim line) (js "graph")
     || JS.startsWith (JS.trim line) (js "flowchart")
  then line
  else
    let '(openBrackets, closeBrackets) := countBrackets line in
    fold_left (addClosers openBrackets closeBrackets) bracketPairs line.

(** Lines 330-374 *)
Definition fixMismatchedBrackets (text : str) : str :=
  JS.join (js "\n") (map fixBracketsLine (JS.split nl text)).

(** Lines 289-325.  The first expression is a backslash followed by the
    letter n. *)
Definition processMermaidDiagram (diagram : str) : str :=
  let processed := replaceAll (rx (lit [ch "\"; ch "n"])) (const (js "\n")) diagram in
  let processed := replaceAll (rx (lit (js "\r\n"))) (const (js "\n")) processed in
  let processed :=
    replaceAll duplicateDeclaration
      (fun r => hd [] (JS.split nl (m_text r))) processed in
  let processed :=
    replaceAll (rx (seq [lit (js "--"); Class true [CChar (ch ">")]; Chr (ch ">")]))
      (const (js "-->")) processed in
  let processed :=
    replaceAll (rx (seq [lit (js "=="); Class true [CChar (ch ">")]; Chr (ch ">")]))
      (const (js "==>")) processed in
  let processed := fixMismatchedBrackets processed in
  if negb (existsb (JS.startsWith processed) diagramTypes)
  then js "graph TD\n" ++ processed
  else processed.

(** The node pattern of [extractDiagramFromText]: a name and an opening
    bracket, two round ones, one round one, [>] or a brace. *)
Definition nodePattern : regex :=
  rx (seq [Group 1 ident;
           alt [Chr (ch "["); lit (js "(("); Chr (ch "("); Chr (ch ">"); Chr (ch "{")]]).

(** Its connection pattern: no [\b]; the first arrow is written twice. *)
Definition textConnectionPattern : regex :=
  rx (seq [Group 1 ident; Star ws; alt (lit (js "-->") :: arrows); Star ws;
           Group 2 ident]).

(** Lines 394-400: the first node of the line. *)
Definition textNode (nodes : list str) (line : str) : list str :=
  match match_ nodePattern line with
  | Some nodeMatch =>
      let nodeId := JS.trim (groupOr 1 nodeMatch) in
      if (0 <? length nodeId) && negb (JS.includes nodeId (js " "))
      then JS.add nodes nodeId
      else nodes
  | None => nodes
  end.

(** Lines 404-413: one match of the connection pattern. *)
Definition textConnection (st : list str * list (str * str)) (connectionMatch : mresult)
  : list str * list (str * str) :=
  let from := JS.trim (groupOr 1 connectionMatch) in
  let to := JS.trim (groupOr 2 connectionMatch) in
  if (0 <? length from) && (0 <? length to)
  then (JS.add (JS.add (fst st) from) to, snd st ++ [(from, to)])
  else st.

(** Lines 389-414: one line of the text; long lines and lines with a
    full stop or a semicolon are passed over. *)
Definition textLine (st : list str * list (str * str)) (line : str)
  : list str * list (str * str) :=
  if (100 <? length line) || JS.includes line (js ".") || JS.includes line (js ";")
  then st
  else fold_left textConnection (execAll textConnectionPattern line)
         (textNode (fst st) line, snd st).

Definition textExtraction (text : str) : list str * list (str * str) :=
  fold_left textLine (JS.split nl text) ([], []).

(** Lines 379-434; [None] is [null]. *)
Definition extractDiagramFromText (text : str) : option str :=
  let '(nodes, connections) := textExtraction text in
  if (0 <? length nodes) || (0 <? length connections)
  then Some (js "graph TD\n"
             ++ concat (map (fun node => js "    " ++ node ++ js "[" ++ node ++ js "]\n")
                          nodes)
             ++ concat (map (fun conn =>
                               js "    " ++ fst conn ++ js " --> " ++ snd conn ++ js "\n")
                          connections))
  else None.

Section ExtractMermaid.

(** The two searches of [extractMermaidDiagram]: [mermaidMatch text] is
    the first group of [text.match(mermaidRegex)], [None] when there is
    no match, and [extractSection text sectionName] is the method of that
    name.  They are taken as they are. *)
Variable mermaidMatch : str -> option str.
Variable extractSection : str -> str -> str.

(** [a || b] on two strings: the first unless it is empty. *)
Definition orStr (a b : str) : str :=
  match a with [] => b | _ :: _ => a end.

Definition defaultDiagram : str :=
  js "graph TD\n    A[Repository] --> B[Components]\n    B --> C[Features]".

(** Lines 218-284 *)
Definition extractMermaidDiagram (text : str) : str :=
  match mermaidMatch text with
  | Some (c :: m1) => processMermaidDiagram (JS.trim (c :: m1))
  | _ =>
      let diagramSection :=
        orStr (extractSection text (js "diagram"))
          (orStr (extractSection text (js "workflow diagram"))
             (orStr (extractSection text (js "architecture diagram"))
                (orStr (extractSection text (js "mermaid diagram"))
                   (extractSection text (js "repository structure"))))) in
      let fromText :=
        match extractDiagramFromText text with
        | Some (c :: extractedDiagram) => c :: extractedDiagram
        | _ => defaultDiagram
        end in
      match diagramSection with
      | [] => fromText
      | _ :: _ =>
          let diagram := processMermaidDiagram (JS.trim diagramSection) in
          if JS.includes diagram (js "graph") || JS.includes diagram (js "flowchart")
             || JS.includes diagram (js "->") || JS.includes diagram (js "-->")
          then diagram
          else fromText
      end
  end.

End ExtractMermaid.

(** ** What the specification calls things *)

(** The tier of a result, read off the view: the component records it as
    the render mode together with the notice it shows. *)
Inductive tier : Type := Primary | Sanitized | Minimal | Manual.

Definition tierOf (v : view) : option tier :=
  match renderMode v with
  | ModeMermaid =>
      match errorMessage v with [] => Some Primary | _ => None end
  | ModeFallback =>
      if str_eqb (errorMessage v) (js "Diagram was simplified due to syntax issues")
      then Some Sanitized
      else if str_eqb (errorMessage v) (js "Failed to render diagram due to syntax errors")
      then Some Minimal
      else if str_eqb (errorMessage v) (js "Failed to render diagram")
      then Some Manual
      else None
  end.


(** The direction token of a document: the word after the diagram type on
    its first line. *)
Fixpoint word (s : str) : str :=
  match s with
  | c :: r => if JS.isSpace c then [] else c :: word r
  | [] => []
  end.

Definition directionToken (doc : str) : option str :=
  let first := hd [] (JS.split nl doc) in
  if JS.startsWith first (js "graph") then Some (word (JS.trimStart (skipn 5 first)))
  else if JS.startsWith first (js "flowchart") then Some (word (JS.trimStart (skipn 9 first)))
  else None.

(** Definition completeness as the Repairer itself measures it: every
    node its connection pattern finds in the document is among the nodes
    its definition pattern finds there. *)
Definition definitionComplete (doc : str) : bool :=
  forallb (JS.has (collectDefined [] doc)) (collectReferenced doc).

(** An edge of a document, as the data model has it: the node [from],
    with or without its label in brackets after it, then the arrow, then
    the node [to]. *)
Definition edgeIn (from arrow to doc : str) : bool :=
  test (rx (seq [WordB; lit from; alt [bracketed; Eps]; Star (Chr (ch " "));
                 lit arrow; Star (Chr (ch " ")); lit to; WordB])) doc.

(** ** Notions the proofs use

    A declarative reading of the patterns, the shapes of the texts the
    direction and dangling-arrow patterns match, and the invariants of
    the validator's loops. *)

(** The state [j] code units after [(pos, prev, rest)]. *)
Fixpoint after (pos : nat) (prev : option char) (rest : str) (j : nat) {struct j}
  : mstate :=
  match j with
  | 0 => MState pos prev rest []
  | S j' =>
      match rest with
      | c :: rest' => after (S pos) (Some c) rest' j'
      | [] => MState pos prev rest []
      end
  end.

(** One attempt of [search], at the state [st]. *)
Definition matchAt (x : regex) (st : mstate) : option mstate :=
  m (reflags x) (pattern x) Some st.

(** Zero or more rounds of [R], each of which consumes something. *)
Inductive iter (R : mstate -> mstate -> Prop) : mstate -> mstate -> Prop :=
| iter_stop st : iter R st st
| iter_more st st1 st2 :
    R st st1 -> length (ms_rest st1) < length (ms_rest st) ->
    iter R st1 st2 -> iter R st st2.

(** One code unit that satisfies [p] is read. *)
Definition oneSem (p : char -> bool) (st st' : mstate) : Prop :=
  exists c rest', ms_rest st = c :: rest' /\ p c = true /\ st' = step c st.

(** [Sem f r st st']: the pattern [r] can match from [st] to [st'],
    without regard to priorities. *)
Fixpoint Sem (f : flags) (r : re) (st st' : mstate) {struct r} : Prop :=
  match r with
  | Eps => st' = st
  | Chr c => oneSem (chr_eq f c) st st'
  | Class neg items => oneSem (in_class f neg items) st st'
  | Any => oneSem (fun c => negb (JS.isLineTerminator c)) st st'
  | Seq a b => exists mid, Sem f a st mid /\ Sem f b mid st'
  | Alt a b => Sem f a st st' \/ Sem f b st st'
  | Star a => iter (Sem f a) st st'
  | Plus a => exists mid, Sem f a st mid /\ iter (Sem f a) mid st'
  | Group i a => exists st1, Sem f a st st1 /\ st' = set_cap i (consumed st st1) st1
  | Backref i =>
      match get_cap i (ms_caps st) with
      | None => st' = st
      | Some t => JS.startsWith (ms_rest st) t = true /\ st' = skip t st
      end
  | NotAhead a => st' = st /\ forall s, ~ Sem f a st s
  | WordB =>
      st' = st /\ xorb (isWordO (ms_prev st)) (isWordO (hd_error (ms_rest st))) = true
  | Bol =>
      st' = st /\
      match ms_prev st with
      | None => True
      | Some c => multiline f && JS.isLineTerminator c = true
      end
  | Eol =>
      st' = st /\
      match ms_rest st with
      | [] => True
      | c :: _ => multiline f && JS.isLineTerminator c = true
      end
  end.

(** The two halves of the correspondence, for one matcher [ma]. *)
Definition sound (ma : cont -> cont) (R : mstate -> mstate -> Prop) : Prop :=
  forall k st res, ma k st = Some res -> exists st', R st st' /\ k st' = Some res.

Definition complete (ma : cont -> cont) (R : mstate -> mstate -> Prop) : Prop :=
  forall k st, ma k st = None -> forall st', R st st' -> k st' = None.

(** [reach st t st']: from [st] the text [t] is read and [st'] is the
    state after it. *)
Definition reach (st : mstate) (t : str) (st' : mstate) : Prop :=
  ms_rest st = t ++ ms_rest st' /\ st' = skip t st.

(** The flags of [directionRegex], and the parts of what it matches. *)
Definition fi : flags := Flags true false.

Definition isKeyword (kw : str) : Prop :=
  Forall2 (fun a b => chr_eq fi a b = true) (js "graph") kw
  \/ Forall2 (fun a b => chr_eq fi a b = true) (js "flowchart") kw.

Definition space (c : char) : Prop := in_class fi false [CSpace] c = true.

Definition letter (c : char) : Prop :=
  in_class fi false [CRange (ch "A") (ch "Z")] c = true.

(** The flags of the patterns for dangling arrows. *)
Definition fm : flags := Flags false true.

(** [\s*(?:;|$)] with the [m] flag, read from the text [u]: white space,
    then a semicolon, a line terminator or the end. *)
Fixpoint toEnd (u : str) : bool :=
  match u with
  | [] => true
  | c :: r => (c =? ch ";")%N || JS.isLineTerminator c || (JS.isSpace c && toEnd r)
  end.

(** The arrow [a], then [toEnd]: the text [u] starts with a dangling [a]. *)
Fixpoint scan (a u : str) : bool :=
  match a with
  | [] => toEnd u
  | x :: a' =>
      match u with
      | [] => false
      | c :: r => (x =? c)%N && scan a' r
      end
  end.

(** The pattern of lines 52, 53 and 55-57 for the arrow [a]. *)
Definition dangling (a : str) : regex := rx_m (danglingPattern (lit a)).

(** The end of a line: the end of the text or a line terminator. *)
Definition atLineEnd (v : str) : Prop :=
  match v with
  | [] => True
  | c :: _ => JS.isLineTerminator c = true
  end.

(** What a dangling arrow is followed by: a semicolon, or nothing when
    the line ends there. *)
Definition closes (semi v : str) : Prop :=
  semi = [ch ";"] \/ (semi = [] /\ atLineEnd v).

(** [rewrites a by_ u o]: the text [o] is [u] with every dangling [a],
    found from left to right, replaced by [by_], and everything else
    copied.  What is replaced is the arrow, the white space [w] after it
    and the semicolon if there is one; without a semicolon the line ends
    where the replacement ends. *)
Inductive rewrites (a by_ : str) : str -> str -> Prop :=
| rw_end : rewrites a by_ [] []
| rw_copy c u o :
    scan a (c :: u) = false -> rewrites a by_ u o ->
    rewrites a by_ (c :: u) (c :: o)
| rw_replace w semi v o :
    Forall (fun c => JS.isSpace c = true) w -> closes semi v ->
    rewrites a by_ v o ->
    rewrites a by_ (a ++ w ++ semi ++ v) (by_ ++ o).

(** [noDangling a o]: nowhere in [o] does a dangling [a] start. *)
Definition noDangling (a o : str) : Prop :=
  forall pre u, o = pre ++ u -> scan a u = false.

(** Sufficient checks on a replacement text [p], whatever follows it. *)
Fixpoint toEndNever (p : str) : bool :=
  match p with
  | [] => false
  | c :: r =>
      negb (c =? ch ";")%N && negb (JS.isLineTerminator c)
      && (if JS.isSpace c then toEndNever r else true)
  end.

(** [scanNever a p]: no text that starts with [p] starts with a dangling
    [a]. *)
Fixpoint scanNever (a p : str) : bool :=
  match a with
  | [] => toEndNever p
  | x :: a' =>
      match p with
      | [] => false
      | c :: r => negb (x =? c)%N || scanNever a' r
      end
  end.

(** The ends of a text, the whole text first. *)
Fixpoint tails (s : str) : list str :=
  match s with
  | [] => [[]]
  | c :: r => s :: tails r
  end.

(** The replacement text [by_] neither completes a dangling [a] begun
    before it nor holds the start of one. *)
Definition harmless (a by_ : str) : bool :=
  forallb (fun a2 => scanNever a2 by_) (tails a)
  && forallb (fun p => match p with [] => true | _ => scanNever a p end) (tails by_).

(** No flag, as for [connRegex]. *)
Definition f0 : flags := Flags false false.

(** Patterns without a capturing group. *)
Fixpoint groupFree (r : re) : bool :=
  match r with
  | Group _ _ => false
  | Seq a b | Alt a b => groupFree a && groupFree b
  | Star a | Plus a => groupFree a
  | _ => true
  end.

(** The code units of a node id. *)
Definition idc (c : char) : Prop :=
  in_class f0 false
    [CRange (ch "A") (ch "Z"); CRange (ch "a") (ch "z");
     CRange (ch "0") (ch "9"); CChar (ch "_"); CChar (ch "-")] c = true.

(** [st'] has at least the lines and the nodes of [st]. *)
Definition extends (st st' : fixState) : Prop :=
  (forall l, In l (validatedLines st) -> In l (validatedLines st'))
  /\ (forall n, In n (definedNodes st) -> In n (definedNodes st')).

(** Every defined node was found by the first pass or has a synthesized
    definition line. *)
Definition accounted (found : list str) (st : fixState) : Prop :=
  forall n, In n (definedNodes st) ->
    In n found \/ In (definitionLine n) (validatedLines st).

(** [st'] is [st] after some text has been read. *)
Definition advances (st st' : mstate) : Prop :=
  exists t, ms_rest st = t ++ ms_rest st' /\ ms_pos st' = ms_pos st + length t.

(** Whether the loop of [connLoop] leaves by itself, that is by a failed
    [exec], within [fuel] rounds; and the same for [classDefLoop]. *)
Fixpoint connEnds (definedNodes : list str) (fuel : nat) (line : str) (lastIndex : nat) : bool :=
  match fuel with
  | 0 => false
  | S n =>
      match exec connFromRegex line lastIndex with
      | None => true
      | Some connMatch =>
          connEnds definedNodes n (defineUse definedNodes line connMatch) (m_end connMatch)
      end
  end.

Fixpoint classDefEnds (fuel : nat) (perfectDiagram : str) (lastIndex : nat) : bool :=
  match fuel with
  | 0 => false
  | S n =>
      match exec classDefRegex perfectDiagram lastIndex with
      | None => true
      | Some classMatch =>
          classDefEnds n (fixStyle perfectDiagram classMatch) (m_end classMatch)
      end
  end.

(** Every loop of [processDefinition], and of [ensurePerfectDiagram], on
    one input leaves by itself within the bound the model gives it. *)
Definition processEnds (definition : str) : bool :=
  isBlank definition
  || let processed := replaced definition in
     forallb (fun line =>
                isSkipped line
                || connEnds (collectDefined [] processed)
                     (S (length line) * S (length line)) line 0)
             (JS.split nl processed).

Definition repairEnds (diagram : str) : bool :=
  isBlank diagram
  || processEnds diagram
     && let text :=
          fixDirection (ensureType (validateAndFixDiagram (processDefinition diagram))) in
        classDefEnds (S (length text)) text 0.

(** The text that the repairer hands to its last step. *)
Definition repaired (diagram : str) : str :=
  closeSubgraphs (fixClassDefs (fixDirection (ensureType
    (validateAndFixDiagram (processDefinition diagram))))).

(** A node has a definition in a list of lines: a synthesized line, or a
    line, not skipped, on which the definition pattern finds it. *)
Definition hasDefinition (n : str) (out : list str) : Prop :=
  In (definitionLine n) out
  \/ exists l, In l out /\ isSkipped l = false /\ In n (collectDefined [] (JS.trim l)).

(** The number of times a code unit occurs in a line, and the line's
    bracket families being closed: in each, at least as many closing as
    opening brackets. *)
Definition occ (c : char) (line : str) : nat := count_occ N.eq_dec line c.

Definition balanced (line : str) : Prop :=
  forall pair, In pair bracketPairs -> occ (fst pair) line <= occ (snd pair) line.

(** The closing brackets a line lacks, family by family. *)
Definition closersOf (line : str) : str :=
  concat (map (fun pair : char * char =>
                 JS.repeat [snd pair] (occ (fst pair) line - occ (snd pair) line))
            bracketPairs).

(** A node that the validator's connection pattern captures on a line of
    [lines] that is not passed through; and lines without connections. *)
Definition captured (lines : list str) (n : str) : Prop :=
  exists line r, In line lines /\ isSkipped line = false
    /\ In r (execAll connRegex (JS.trim line))
    /\ (n = groupOr 1 r \/ n = groupOr 2 r).

Definition noConnection (lines : list str) : Prop :=
  forall line, In line lines -> isSkipped line = false ->
    execAll connRegex (JS.trim line) = [].

(** The lines the validator's second pass keeps: those it passes
    through, those with a connection, and those with a node definition. *)
Definition kept (line : str) : Prop :=
  isSkipped line = true
  \/ execAll connRegex (JS.trim line) <> []
  \/ (0 <? length (JS.trim line)) && test nodeDefRegex (JS.trim line) = true.

(** Where the validated lines come from. *)
Definition written (all : list str) (st : fixState) : Prop :=
  forall l, In l (validatedLines st) ->
    (In l all /\ kept l) \/ exists n, captured all n /\ l = definitionLine n.

(** An extraction of nodes and connections: no node twice, no empty
    node, and both ends of every connection among the nodes. *)
Definition closed (nodes : list str) (connections : list (str * str)) : Prop :=
  NoDup nodes
  /\ (forall n, In n nodes -> n <> [])
  /\ forall a b, In (a, b) connections -> In a nodes /\ In b nodes.

(** Node ids without a line feed. *)
Definition plain (nodes : list str) : Prop := forall n, In n nodes -> ~ In nl n.

(** A line that the repairer's last step inserts into [text]. *)
Definition inserted (text l : str) : Prop :=
  exists n, In n (collectReferenced text) /\ ~ In n (collectDefined [] text)
            /\ n <> js "Unknown" /\ l = definitionLine n.

(** ** Occurrences of a word *)

(** The places of a text at which a word starts, seen one code unit at a
    time: [hit prev rest] tells whether it starts between [prev] and
    [rest]. *)
Fixpoint hits (hit : option char -> str -> bool) (prev : option char) (s : str) : nat :=
  (if hit prev s then 1 else 0)
  + match s with
    | [] => 0
    | c :: s' => hits hit (Some c) s'
    end.

(** [subgraph] starts here. *)
Definition subgraphAt (prev : option char) (rest : str) : bool :=
  JS.startsWith rest (js "subgraph").

(** The word [end] starts here, with a word boundary on both sides. *)
Definition endAt (prev : option char) (rest : str) : bool :=
  xorb (isWordO prev) (isWordO (hd_error rest))
  && JS.startsWith rest (js "end")
  && negb (isWordO (hd_error (skipn 3 rest))).

Fixpoint lastOr (prev : option char) (t : str) : option char :=
  match t with
  | [] => prev
  | c :: t' => lastOr (Some c) t'
  end.

(** * Properties *)

(** ** Lists and strings *)

Lemma trimStart_head (s : str) c r : JS.trimStart s = c :: r -> JS.isSpace c = false.
Proof.
  induction s as [|a s IH]; simpl; [discriminate|].
  destruct (JS.isSpace a) eqn:E; [exact IH|]. intros H. now inversion H; subst.
Qed.

Lemma trimStart_snoc (l : str) c : JS.isSpace c = false -> JS.trimStart (l ++ [c]) <> [].
Proof.
  intros Hc. induction l as [|a l IH]; simpl.
  - rewrite Hc. discriminate.
  - destruct (JS.isSpace a); [exact IH|discriminate].
Qed.

Lemma trim_nil_iff (s : str) : JS.trim s = [] <-> JS.trimStart s = [].
Proof.
  unfold JS.trim, JS.trimEnd. split; intros H; [|now rewrite H].
  destruct (JS.trimStart s) as [|c r] eqn:E; [reflexivity|].
  pose proof (trimStart_head _ _ _ E) as Hc.
  simpl in H. pose proof (trimStart_snoc (rev r) c Hc) as Hn.
  destruct (JS.trimStart (rev r ++ [c])); [congruence|].
  simpl in H. apply app_eq_nil in H as [_ H]; discriminate.
Qed.

Lemma isBlank_false_head c (s : str) : JS.isSpace c = false -> isBlank (c :: s) = false.
Proof.
  intros Hc. unfold isBlank. destruct (JS.trim (c :: s)) eqn:E; [|reflexivity].
  apply trim_nil_iff in E. simpl in E. rewrite Hc in E. discriminate.
Qed.

Lemma trim_startsWith (s p : str) c r :
  p = c :: r -> JS.startsWith (JS.trim s) p = true -> isBlank s = false.
Proof.
  intros -> H. unfold isBlank. destruct (JS.trim s); [discriminate|reflexivity].
Qed.

(** ** Searching and replacing *)

Lemma search_unfold x pos prev rest :
  search x pos prev rest =
  match matchAt x (MState pos prev rest []) with
  | Some st' => Some (MState pos prev rest [], st')
  | None => match rest with
            | [] => None
            | c :: rest' => search x (S pos) (Some c) rest'
            end
  end.
Proof. destruct rest; reflexivity. Qed.

(** A search result is the first position at which the pattern matches. *)
Lemma search_some x rest : forall pos prev st st',
  search x pos prev rest = Some (st, st') ->
  exists j, j <= length rest /\ st = after pos prev rest j
            /\ ms_pos st = pos + j /\ ms_rest st = skipn j rest
            /\ matchAt x st = Some st'
            /\ forall i, i < j -> matchAt x (after pos prev rest i) = None.
Proof.
  induction rest as [|c rest IH]; intros pos prev st st' H; rewrite search_unfold in H.
  - destruct (matchAt x (MState pos prev [] [])) eqn:E; [|discriminate].
    inversion H; subst. exists 0. simpl. repeat split; auto; try lia.
  - destruct (matchAt x (MState pos prev (c :: rest) [])) eqn:E.
    + inversion H; subst. exists 0. simpl. repeat split; auto; try lia.
    + apply IH in H as (j & Hj & Hst & Hp & Hr & Hm & Hno).
      exists (S j). simpl. repeat split; auto; try lia.
      intros [|i] Hi; simpl; [exact E|]. apply Hno. lia.
Qed.

Lemma search_none x rest : forall pos prev,
  search x pos prev rest = None ->
  forall i, matchAt x (after pos prev rest i) = None.
Proof.
  induction rest as [|c rest IH]; intros pos prev H i; rewrite search_unfold in H.
  - destruct (matchAt x (MState pos prev [] [])) eqn:E; [discriminate|].
    destruct i; exact E.
  - destruct (matchAt x (MState pos prev (c :: rest) [])) eqn:E; [discriminate|].
    destruct i as [|i]; simpl; [exact E|]. now apply IH.
Qed.

(** One round of a global replacement, seen from the current position:
    either the pattern matches here, or the code unit is copied. *)
Lemma replaceAll_loop_unfold x by_ n pos prev rest :
  replaceAll_loop x by_ (S n) pos prev rest =
  let st := MState pos prev rest [] in
  match matchAt x st with
  | Some st' =>
      by_ (result_of st st') ++
      (if ms_pos st' =? pos
       then match rest with
            | [] => []
            | c :: rest' => c :: replaceAll_loop x by_ n (S pos) (Some c) rest'
            end
       else replaceAll_loop x by_ n (ms_pos st') (ms_prev st') (ms_rest st'))
  | None =>
      match rest with
      | [] => []
      | c :: rest' => c :: replaceAll_loop x by_ (S n) (S pos) (Some c) rest'
      end
  end.
Proof.
  cbv zeta. simpl replaceAll_loop at 1. rewrite search_unfold.
  destruct (matchAt x (MState pos prev rest [])) as [st'|] eqn:E.
  - simpl. rewrite Nat.sub_diag. reflexivity.
  - destruct rest as [|c rest']; [reflexivity|].
    simpl replaceAll_loop.
    destruct (search x (S pos) (Some c) rest') as [[st st']|] eqn:Es; [|reflexivity].
    apply search_some in Es as (j & Hj & Hst & Hp & Hr & Hm & Hno).
    rewrite Hp. replace (S pos + j - pos) with (S j) by lia.
    replace (S pos + j - S pos) with j by lia. reflexivity.
Qed.

(** A pattern that is one character class. *)
Section OneClass.
Variable f : flags.
Variable neg : bool.
Variable items : list citem.
Let x := Regex (Class neg items) f.


End OneClass.



(** ** The normalizer never returns a blank text *)

Lemma processDefinition_not_blank (definition : str) :
  isBlank (processDefinition definition) = false.
Proof.
  unfold processDefinition. destruct (isBlank definition); [reflexivity|].
  cbv zeta.
  match goal with
  | |- isBlank (if negb (JS.startsWith (JS.trim ?p) _) && _ then _ else _) = _ =>
      generalize p; intros processed
  end.
  destruct (JS.startsWith (JS.trim processed) (js "graph")) eqn:Eg.
  - simpl. eapply trim_startsWith; [|exact Eg]. reflexivity.
  - destruct (JS.startsWith (JS.trim processed) (js "flowchart")) eqn:Ef.
    + simpl. eapply trim_startsWith; [|exact Ef]. reflexivity.
    + simpl. apply isBlank_false_head. reflexivity.
Qed.

(** ** The render pipeline *)

(** C1, as the code has it.  For a definition that is not empty the run
    leaves markup that is not empty, provided the engine's own markup is
    never empty, and one of the four tiers; the last tier builds its
    markup without the engine. *)
Theorem renderDiagram_displayable
    (render : str -> str -> result str) (dateNow : nat -> str)
    (definition : str) (before : view) :
  (forall id text svg, render id text = Ok svg -> svg <> []) ->
  definition <> [] ->
  let v := shown (renderDiagram render dateNow (Some definition) before) in
  diagramSvg v <> []
  /\ (exists t, tierOf v = Some t)
  /\ (tierOf v = Some Manual -> diagramSvg v = manualSvg).
Proof.
  intros Hsvg Hne. destruct definition as [|c definition]; [congruence|].
  unfold renderDiagram.
  destruct (render (js "mermaid-" ++ dateNow 0) (processDefinition (c :: definition)))
    as [svg|e] eqn:E1.
  { cbn [shown diagramSvg]. repeat split.
    - eapply Hsvg; eassumption.
    - exists Primary. reflexivity.
    - discriminate. }
  destruct (render (js "sanitized-" ++ dateNow 1) (sanitize (c :: definition)))
    as [svg|e2] eqn:E2.
  { cbn [shown diagramSvg]. repeat split.
    - eapply Hsvg; eassumption.
    - exists Sanitized. reflexivity.
    - discriminate. }
  destruct (render (js "minimal-" ++ dateNow 2) minimalDiagram) as [svg|e3] eqn:E3.
  { cbn [shown diagramSvg]. repeat split.
    - eapply Hsvg; eassumption.
    - exists Minimal. reflexivity.
    - discriminate. }
  cbn [shown diagramSvg]. repeat split.
  - discriminate.
  - exists Manual. reflexivity.
Qed.

Lemma renderDiagram_displayable_witness :
  let render := fun (_ _ : str) => @Throw str (Thrown []) in
  let v := shown (renderDiagram render (fun _ => []) (Some (js "B --> C")) initialView) in
  diagramSvg v <> []
  /\ (exists t, tierOf v = Some t)
  /\ (tierOf v = Some Manual -> diagramSvg v = manualSvg).
Proof.
  apply (renderDiagram_displayable (fun _ _ => Throw (Thrown [])) (fun _ => [])
           (js "B --> C") initialView).
  - intros id text svg H. discriminate H.
  - discriminate.
Defined.

(** C1 as stated fails on the empty and on the missing definition: the
    guard at the head of [renderDiagram] sets the empty markup and asks the
    engine nothing, even an engine that accepts every text. *)
Lemma renderDiagram_empty_markup :
  let render := fun (_ _ : str) => Ok (js "<svg></svg>") in
  diagramSvg (shown (renderDiagram render (fun _ => []) (Some []) initialView)) = []
  /\ diagramSvg (shown (renderDiagram render (fun _ => []) None initialView)) = []
  /\ rendered (renderDiagram render (fun _ => []) (Some []) initialView) = [].
Proof. repeat split. Qed.



(** ** Failures inside the validator *)

(** The bodies modelled above end in a value on every input. *)
Lemma validateAndFixDiagram_body_ok (diagram : str) :
  exists out, validateAndFixDiagram_body diagram = Ok out.
Proof.
  unfold validateAndFixDiagram_body. cbv zeta.
  destruct (definedNodes (fixPass (JS.split nl diagram))); eexists; reflexivity.
Qed.

(** C8, as the code has it.  A failure of the validator's body is caught
    by the validator and turned into the diagram Error, Occurred,
    Fallback; the repairer, which calls the validator, then returns that
    diagram.  The diagram Error, In, Processing is what the repairer
    returns when its own body fails. *)
Theorem validator_failure_caught (body : str -> result str) (diagram : str) (e : error) :
  isBlank diagram = false ->
  body diagram = Throw e ->
  body (processDefinition diagram) = Throw e ->
  validateAndFixDiagramWith body diagram
    = js "graph TD\n    A[Error] --> B[Occurred]\n    B --> C[Fallback]"
  /\ ensurePerfectDiagramWith
       (ensurePerfectDiagram_body (validateAndFixDiagramWith body)) diagram
     = js "graph TD\n    A[Error] --> B[Occurred]\n    B --> C[Fallback]"
  /\ ensurePerfectDiagramWith body diagram
     = js "graph TD\n    A[Error] --> B[In] --> C[Processing]".
Proof.
  intros Hb H1 H2. repeat split.
  - unfold validateAndFixDiagramWith. rewrite Hb, H1. reflexivity.
  - unfold ensurePerfectDiagramWith, ensurePerfectDiagram_body. rewrite Hb.
    cbv zeta. unfold validateAndFixDiagramWith at 1.
    rewrite processDefinition_not_blank, H2.
    cbn [tryCatch]. vm_compute. reflexivity.
  - unfold ensurePerfectDiagramWith. rewrite Hb, H1. reflexivity.
Qed.

Lemma validator_failure_caught_witness :
  let body := fun _ : str => @Throw str (Thrown (js "RangeError")) in
  validateAndFixDiagramWith body (js "A --> B")
    = js "graph TD\n    A[Error] --> B[Occurred]\n    B --> C[Fallback]"
  /\ ensurePerfectDiagramWith
       (ensurePerfectDiagram_body (validateAndFixDiagramWith body)) (js "A --> B")
     = js "graph TD\n    A[Error] --> B[Occurred]\n    B --> C[Fallback]"
  /\ ensurePerfectDiagramWith body (js "A --> B")
     = js "graph TD\n    A[Error] --> B[In] --> C[Processing]".
Proof.
  apply (validator_failure_caught (fun _ => Throw (Thrown (js "RangeError")))
           (js "A --> B") (Thrown (js "RangeError"))); reflexivity.
Defined.

(** C8 as stated fails: what the validator returns for a failing body is
    not the diagram Error, In, Processing. *)
Lemma validator_failure_not_processing :
  validateAndFixDiagramWith (fun _ => Throw (Thrown (js "RangeError"))) (js "A --> B")
  <> js "graph TD\n    A[Error] --> B[In] --> C[Processing]".
Proof. vm_compute. discriminate. Qed.

(** ** The fallback synthesizer *)

(** C9, as the code has it.  When nothing is extracted from a diagram,
    a blank one gets the diagram Empty, Diagram from the guard at the
    head, and any other gets the validator's output for the three-node
    default Repository, Components, Features, which keeps both edges. *)
Theorem createFallbackDiagram_no_nodes (originalDiagram : str) :
  nodes (extract originalDiagram) = [] ->
  (isBlank originalDiagram = true
   /\ createFallbackDiagram originalDiagram = js "graph TD\n    A[Empty] --> B[Diagram]")
  \/ (isBlank originalDiagram = false
      /\ createFallbackDiagram originalDiagram
         = validateAndFixDiagram
             (js "graph TD\n    A[Repository] --> B[Components]\n    B --> C[Features]")
      /\ createFallbackDiagram originalDiagram
         = js "graph TD\ngraph TD\n    A[Repository] --> B[Components]\n    B --> C[Features]").
Proof.
  intros Hn.
  unfold createFallbackDiagram, createFallbackDiagramWith, createFallbackDiagram_body.
  destruct (isBlank originalDiagram); [left; split; reflexivity|right].
  cbv zeta. rewrite Hn. cbn [tryCatch].
  split; [reflexivity|]. split; [reflexivity|]. vm_compute. reflexivity.
Qed.

Lemma createFallbackDiagram_no_nodes_witness :
  (isBlank (js "hello world") = true
   /\ createFallbackDiagram (js "hello world") = js "graph TD\n    A[Empty] --> B[Diagram]")
  \/ (isBlank (js "hello world") = false
      /\ createFallbackDiagram (js "hello world")
         = validateAndFixDiagram
             (js "graph TD\n    A[Repository] --> B[Components]\n    B --> C[Features]")
      /\ createFallbackDiagram (js "hello world")
         = js "graph TD\ngraph TD\n    A[Repository] --> B[Components]\n    B --> C[Features]").
Proof.
  apply (createFallbackDiagram_no_nodes (js "hello world")). vm_compute. reflexivity.
Defined.

(** C9 as stated fails: prose yields no node, and the result is not the
    two-node diagram; a blank text yields no node, and the result is the
    diagram Empty, Diagram. *)
Lemma createFallbackDiagram_prose :
  nodes (extract (js "hello world")) = []
  /\ createFallbackDiagram (js "hello world")
     <> js "graph TD\n    A[Repository] --> B[Components]"
  /\ nodes (extract (js " ")) = []
  /\ createFallbackDiagram (js " ") = js "graph TD\n    A[Empty] --> B[Diagram]".
Proof. repeat split; vm_compute; try reflexivity; discriminate. Qed.

(** ** The repairer on the scenarios of the specification *)

(** C3.  Three [subgraph] and one [end]: the repairer appends the two
    missing [end] as the single word [endend], so its own count of [end]
    in the output is still 1 against 3 [subgraph]. *)
Theorem ensurePerfectDiagram_subgraphs :
  let diagram :=
    js "graph TD\nsubgraph S1\nA[a] --> B[b]\nend\nsubgraph S2\nC[c]\nsubgraph S3\nD[d]" in
  subgraphCount diagram = 3 /\ endCount diagram = 1
  /\ ensurePerfectDiagram diagram
     = js "graph TD\ngraph TD\nsubgraph S1\nA[a] --> B[b]\nend\nsubgraph S2\nC[c]\nsubgraph S3\nD[d]\n    A --> B\nendend"
  /\ subgraphCount (ensurePerfectDiagram diagram) = 3
  /\ endCount (ensurePerfectDiagram diagram) = 1.
Proof. vm_compute. repeat split. Qed.

(** C4.  Repairing twice is not repairing once: the declaration line is
    written twice by the validator, and a second run doubles it again
    when the direction is TB; the diagram for an empty input is itself
    changed by a second run. *)
Theorem ensurePerfectDiagram_twice :
  ensurePerfectDiagram (js "graph TB\nA[a] --> B[b]")
    = js "graph TB\ngraph TB\nA[a] --> B[b]\n    A --> B"
  /\ ensurePerfectDiagram (ensurePerfectDiagram (js "graph TB\nA[a] --> B[b]"))
     = js "graph TB\ngraph TB\ngraph TB\ngraph TB\nA[a] --> B[b]\n    A --> B"
  /\ ensurePerfectDiagram (ensurePerfectDiagram (js "graph TB\nA[a] --> B[b]"))
     <> ensurePerfectDiagram (js "graph TB\nA[a] --> B[b]")
  /\ ensurePerfectDiagram (ensurePerfectDiagram [])
     <> ensurePerfectDiagram [].
Proof. vm_compute. repeat split; discriminate. Qed.

(** C5.  On [B --> C] the validator alone writes both definition lines;
    the chain normalizer, validator, repairer keeps the edge and defines
    [B] inside its line, never defines [C], and adds an edge from [B] to
    [Unknown]. *)
Theorem pipeline_B_C :
  validateAndFixDiagram (js "B --> C") = js "graph TD\n    B[B]\n    C[C]\nB --> C"
  /\ processDefinition (js "B --> C") = js "graph TD\nB[B] --> C"
  /\ ensurePerfectDiagram (js "B --> C")
     = js "graph TD\ngraph TD\nB[B] --> C\n    B --> Unknown\n    Unknown[Unknown]"
  /\ JS.includes (ensurePerfectDiagram (js "B --> C")) (js "C[C]") = false
  /\ edgeIn (js "B") (js "-->") (js "C") (ensurePerfectDiagram (js "B --> C")) = true
  /\ edgeIn (js "B") (js "-->") (js "Unknown") (ensurePerfectDiagram (js "B --> C")) = true.
Proof. vm_compute. repeat split. Qed.

(** C2.  An edge whose source carries its label, [X[x] --> Y], is seen
    neither by the validator's connection pattern nor by the repairer's,
    which both want the arrow right after an id.  The output keeps the
    edge and has no definition of [Y], while the repairer's own measure
    finds nothing missing; the validator defines both nodes when the
    same edge is written [X --> Y]. *)
Theorem endpoint_undefined :
  let out := ensurePerfectDiagram (js "X[x] --> Y") in
  out = js "graph TD\ngraph TD\nX[x] --> Y\n    X --> Unknown\n    Unknown[Unknown]"
  /\ edgeIn (js "X") (js "-->") (js "Y") out = true
  /\ collectDefined [] out = [js "X"; js "Unknown"]
  /\ JS.includes out (js "Y[") = false
  /\ definitionComplete out = true
  /\ validateAndFixDiagram (js "X[x] --> Y")
     = js "graph TD\nX[x] --> Y\n    X --> Unknown\n    Unknown[Unknown]"
  /\ validateAndFixDiagram (js "X --> Y") = js "graph TD\n    X[X]\n    Y[Y]\nX --> Y".
Proof. vm_compute. repeat split. Qed.

(** Two more texts with an endpoint that is left without a definition:
    the line [endpoint -->] is passed through because it starts with
    [end], and the repairer's last step leaves [Unknown] alone; the
    validator alone passes through a line that starts with [graph]. *)
Lemma definition_incomplete :
  let out := ensurePerfectDiagram (js "A[a]\nA --> B\nendpoint -->") in
  out = js "graph TD\ngraph TD\n    endpoint[endpoint]\nA[a]\n    B[B]\nA --> B\nendpoint --> Unknown"
  /\ JS.has (collectReferenced out) (js "Unknown") = true
  /\ JS.has (collectDefined [] out) (js "Unknown") = false
  /\ definitionComplete out = false
  /\ validateAndFixDiagram (js "api[API] --> graphql\ngraphql --> database")
     = js "graphql --> database\napi[API] --> graphql\ngraphql --> database\n    api --> Unknown\n    Unknown[Unknown]"
  /\ definitionComplete
       (validateAndFixDiagram (js "api[API] --> graphql\ngraphql --> database")) = false.
Proof. vm_compute. repeat split. Qed.

(** C6.  Where a semicolon ends the dangling arrow and text follows it,
    the replacement takes the semicolon and writes [Unknown] against that
    text: [A --;B] becomes [A --> UnknownB], an edge to a node
    [UnknownB] and none to [Unknown].  A dotted arrow written [-.-] at
    the end of its line is not rewritten at all.  At the end of a line,
    as on the scenario of the specification, the arrow is completed to
    an edge to [Unknown]. *)
Theorem dangling_arrow_glued :
  fixIncompleteArrows (js "A --;B") = js "A --> UnknownB"
  /\ processDefinition (js "A --;B") = js "graph TD\nA[A] --> UnknownB"
  /\ edgeIn (js "A") (js "-->") (js "Unknown") (processDefinition (js "A --;B")) = false
  /\ edgeIn (js "A") (js "-->") (js "UnknownB") (processDefinition (js "A --;B")) = true
  /\ processDefinition (js "graph TD\nA -.-") = js "graph TD\nA -.-"
  /\ processDefinition (js "A --\nB") = js "graph TD\nA[A] --> Unknown\nB"
  /\ processDefinition (js "graph TD\n    A --> ") = js "graph TD\n    A[A] --> Unknown"
  /\ edgeIn (js "A") (js "-->") (js "Unknown")
       (processDefinition (js "graph TD\n    A --> ")) = true.
Proof. vm_compute. repeat split. Qed.

(** C7.  The direction step reads exactly two letters after the diagram
    type.  A direction of one letter is not looked at and stays; of the
    direction [LEFT] the first two letters are replaced and [TDFT] is
    left; where the first line has no direction the first two letters of
    the next line are taken for one.  None of the three outputs has a
    direction among TB, TD, BT, RL, LR; two letters such as [XY] are
    replaced by [TD]. *)
Theorem direction_not_replaced :
  ensurePerfectDiagram (js "graph X\nA[a] --> B[b]")
    = js "graph X\ngraph X\nA[a] --> B[b]\n    A --> B"
  /\ directionToken (ensurePerfectDiagram (js "graph X\nA[a] --> B[b]")) = Some (js "X")
  /\ JS.has validDirections (js "X") = false
  /\ ensurePerfectDiagram (js "graph LEFT\nA[a] --> B[b]")
     = js "graph TDFT\ngraph LEFT\nA[a] --> B[b]\n    A --> B"
  /\ directionToken (ensurePerfectDiagram (js "graph LEFT\nA[a] --> B[b]"))
     = Some (js "TDFT")
  /\ JS.has validDirections (js "TDFT") = false
  /\ ensurePerfectDiagram (js "graph\nA[a] --> B[b]")
     = js "graph TDaph\nA[a] --> B[b]\n    A --> B"
  /\ directionToken (ensurePerfectDiagram (js "graph\nA[a] --> B[b]"))
     = Some (js "TDaph")
  /\ JS.has validDirections (js "TDaph") = false
  /\ directionToken (ensurePerfectDiagram (js "graph XY\nA[a] --> B[b]"))
     = Some (js "TD").
Proof. vm_compute. repeat split. Qed.

(** ** What the matcher computes

    The matcher succeeds exactly when some match in the sense of [Sem]
    satisfies its continuation, and its result is one of them. *)

Module Matching.

Lemma one_sound p : sound (one p) (oneSem p).
Proof.
  intros k st res H. unfold one in H.
  destruct (ms_rest st) as [|c rest'] eqn:E; [discriminate|].
  destruct (p c) eqn:Ep; [|discriminate].
  exists (step c st). split; [|exact H]. exists c, rest'. auto.
Qed.

Lemma one_complete p : complete (one p) (oneSem p).
Proof.
  intros k st H st' (c & rest' & E & Ep & ->). unfold one in H.
  rewrite E, Ep in H. exact H.
Qed.

Lemma star_loop_sound ma R k :
  sound ma R ->
  forall n st res, length (ms_rest st) < n ->
    star_loop ma k n st = Some res -> exists st', iter R st st' /\ k st' = Some res.
Proof.
  intros Hs. induction n as [|n IH]; intros st res Hl H; [lia|].
  simpl in H.
  destruct (ma _ st) as [r|] eqn:E.
  - inversion H; subst r. apply Hs in E as (st1 & HR & Hk).
    destruct (length (ms_rest st1) <? length (ms_rest st)) eqn:El; [|discriminate].
    apply Nat.ltb_lt in El.
    apply IH in Hk as (st' & Hit & Hk); [|lia].
    exists st'. split; [|exact Hk]. eapply iter_more; eauto.
  - exists st. split; [constructor|exact H].
Qed.

Lemma star_loop_complete ma R k :
  complete ma R ->
  forall n st, length (ms_rest st) < n ->
    star_loop ma k n st = None -> forall st', iter R st st' -> k st' = None.
Proof.
  intros Hc. induction n as [|n IH]; intros st Hl H st' Hit; [lia|].
  simpl in H.
  destruct (ma _ st) as [r|] eqn:E; [discriminate|].
  destruct Hit as [st|st st1 st2 HR Hlt Hit]; [exact H|].
  pose proof (Hc _ _ E _ HR) as Hk. cbv beta in Hk.
  apply Nat.ltb_lt in Hlt as Hlt'. rewrite Hlt' in Hk.
  eapply IH; [|exact Hk|exact Hit]. lia.
Qed.

Lemma star_sound ma R k : sound ma R -> forall st res,
  star ma k st = Some res -> exists st', iter R st st' /\ k st' = Some res.
Proof. intros Hs st res. apply star_loop_sound; [exact Hs|lia]. Qed.

Lemma star_complete ma R k : complete ma R -> forall st,
  star ma k st = None -> forall st', iter R st st' -> k st' = None.
Proof. intros Hc st. apply star_loop_complete; [exact Hc|lia]. Qed.

(** The matcher is sound and complete for [Sem]. *)
Lemma m_correct f r : sound (m f r) (Sem f r) /\ complete (m f r) (Sem f r).
Proof.
  induction r as [ |c|neg items|a [IHas IHac] b [IHbs IHbc]
                 |a [IHas IHac] b [IHbs IHbc]|a [IHas IHac]|a [IHas IHac]
                 |i a [IHas IHac]|i|a [IHas IHac]| | | | ]; split.
  - intros k st res H. exists st. split; [reflexivity|exact H].
  - intros k st H st' ->. exact H.
  - apply one_sound.
  - apply one_complete.
  - apply one_sound.
  - apply one_complete.
  - intros k st res H. simpl in H.
    apply IHas in H as (mid & Ha & H). apply IHbs in H as (st' & Hb & H).
    exists st'. split; [exists mid; auto|exact H].
  - intros k st H st' (mid & Ha & Hb). simpl in H.
    eapply IHbc; [|exact Hb]. eapply IHac; [exact H|exact Ha].
  - intros k st res H. simpl in H.
    destruct (m f a k st) as [r|] eqn:E.
    + inversion H; subst r. apply IHas in E as (st' & Ha & Hk).
      exists st'. split; [left; exact Ha|exact Hk].
    + apply IHbs in H as (st' & Hb & Hk).
      exists st'. split; [right; exact Hb|exact Hk].
  - intros k st H st' [Ha|Hb]; simpl in H;
      destruct (m f a k st) as [r|] eqn:E; try discriminate.
    + eapply IHac; eauto.
    + eapply IHbc; eauto.
  - intros k st res H. simpl in H. eapply star_sound; eauto.
  - intros k st H st' Hit. simpl in H. eapply star_complete; eauto.
  - intros k st res H. simpl in H.
    apply IHas in H as (mid & Ha & H).
    eapply star_sound in H as (st' & Hit & Hk); [|exact IHas].
    exists st'. split; [exists mid; auto|exact Hk].
  - intros k st H st' (mid & Ha & Hit). simpl in H.
    pose proof (IHac _ _ H _ Ha) as Hk.
    eapply star_complete; eauto.
  - intros k st res H. simpl in H.
    apply IHas in H as (st1 & Ha & Hk).
    exists (set_cap i (consumed st st1) st1). split; [exists st1; auto|exact Hk].
  - intros k st H st' (st1 & Ha & ->). simpl in H.
    exact (IHac _ _ H _ Ha).
  - intros k st res H. simpl in H. simpl.
    destruct (get_cap i (ms_caps st)) as [t|].
    + destruct (JS.startsWith (ms_rest st) t) eqn:E; [|discriminate].
      exists (skip t st). auto.
    + exists st. auto.
  - intros k st H st' Hs. simpl in H, Hs.
    destruct (get_cap i (ms_caps st)) as [t|].
    + destruct Hs as [E ->]. rewrite E in H. exact H.
    + subst st'. exact H.
  - intros k st res H. simpl in H.
    destruct (m f a Some st) as [r|] eqn:E; [discriminate|].
    exists st. split; [|exact H]. split; [reflexivity|].
    intros s Hs. pose proof (IHac _ _ E _ Hs). discriminate.
  - intros k st H st' [-> Hno]. simpl in H.
    destruct (m f a Some st) as [r|] eqn:E; [|exact H].
    apply IHas in E as (s & Hs & _). elim (Hno _ Hs).
  - apply one_sound.
  - apply one_complete.
  - intros k st res H. simpl in H.
    destruct (xorb _ _) eqn:E; [|discriminate]. exists st. simpl. auto.
  - intros k st H st' [-> E]. simpl in H. rewrite E in H. exact H.
  - intros k st res H. simpl in H. exists st. simpl.
    destruct (ms_prev st) as [c|]; [|auto].
    destruct (multiline f && JS.isLineTerminator c) eqn:E; [auto|discriminate].
  - intros k st H st' [-> E]. simpl in H.
    destruct (ms_prev st) as [c|]; [|exact H]. rewrite E in H. exact H.
  - intros k st res H. simpl in H. exists st. simpl.
    destruct (ms_rest st) as [|c rest']; [auto|].
    destruct (multiline f && JS.isLineTerminator c) eqn:E; [auto|discriminate].
  - intros k st H st' [-> E]. simpl in H.
    destruct (ms_rest st) as [|c rest']; [exact H|]. rewrite E in H. exact H.
Qed.

(** *** Runs of the matcher over a known text *)

Lemma skip_app t1 t2 st : skip (t1 ++ t2) st = skip t2 (skip t1 st).
Proof. revert st; induction t1 as [|c t1 IH]; intros st; simpl; [reflexivity|apply IH]. Qed.

Lemma skip_pos t st : ms_pos (skip t st) = ms_pos st + length t.
Proof. revert st; induction t as [|c t IH]; intros st; simpl; [lia|]. rewrite IH. simpl. lia. Qed.

Lemma skip_caps t st : ms_caps (skip t st) = ms_caps st.
Proof. revert st; induction t as [|c t IH]; intros st; simpl; [reflexivity|]. now rewrite IH. Qed.

Lemma skip_rest t : forall st r, ms_rest st = t ++ r -> ms_rest (skip t st) = r.
Proof.
  induction t as [|c t IH]; intros st r H; simpl in *; [exact H|].
  apply IH. simpl. now rewrite H.
Qed.

Lemma skip_set_cap t i u st : skip t (set_cap i u st) = set_cap i u (skip t st).
Proof. revert st; induction t as [|c t IH]; intros st; simpl; [reflexivity|]. now rewrite <- IH. Qed.

Lemma reach_nil st : reach st [] st.
Proof. split; reflexivity. Qed.

Lemma reach_app st t1 mid t2 st' :
  reach st t1 mid -> reach mid t2 st' -> reach st (t1 ++ t2) st'.
Proof.
  intros [H1 E1] [H2 E2]. split.
  - rewrite H1, H2. now rewrite app_assoc.
  - rewrite skip_app. now rewrite <- E1.
Qed.

Lemma reach_make st t r : ms_rest st = t ++ r -> reach st t (skip t st).
Proof. intros H. split; [|reflexivity]. now rewrite (skip_rest t st r H). Qed.

Lemma reach_consumed st t st' : reach st t st' -> consumed st st' = t.
Proof.
  intros [H ->]. unfold consumed. rewrite skip_pos, H.
  replace (ms_pos st + length t - ms_pos st) with (length t) by lia.
  rewrite firstn_app, Nat.sub_diag, firstn_all. simpl. apply app_nil_r.
Qed.

Lemma reach_pos st t st' : reach st t st' -> ms_pos st' = ms_pos st + length t.
Proof. intros [_ ->]. apply skip_pos. Qed.

Lemma reach_caps st t st' : reach st t st' -> ms_caps st' = ms_caps st.
Proof. intros [_ ->]. apply skip_caps. Qed.

Lemma reach_shorter st t st' :
  reach st t st' -> length (ms_rest st) = length t + length (ms_rest st').
Proof. intros [H _]. rewrite H. apply length_app. Qed.

Lemma oneSem_reach p st st' :
  oneSem p st st' <-> exists c, p c = true /\ reach st [c] st'.
Proof.
  split.
  - intros (c & rest' & E & Hp & ->). exists c. split; [exact Hp|].
    split; [|reflexivity]. simpl. now rewrite E.
  - intros (c & Hp & [E ->]). exists c, (ms_rest (skip [c] st)). auto.
Qed.

(** A literal reads itself, up to the case of letters under [i]. *)
Lemma lit_reach f s : forall st st',
  Sem f (lit s) st st' <->
  exists t, Forall2 (fun a b => chr_eq f a b = true) s t /\ reach st t st'.
Proof.
  induction s as [|a s IH]; intros st st'.
  - simpl. split.
    + intros ->. exists []. split; [constructor|apply reach_nil].
    + intros (t & F & [_ E]). inversion F; subst. reflexivity.
  - assert (Sem f (lit (a :: s)) st st'
            <-> exists mid, oneSem (chr_eq f a) st mid /\ Sem f (lit s) mid st') as ->.
    { destruct s as [|b s]; simpl; [|reflexivity]. split.
      - intros H. exists st'. auto.
      - intros (mid & H & ->). exact H. }
    split.
    + intros (mid & H1 & H2). apply oneSem_reach in H1 as (c & Hc & R1).
      apply IH in H2 as (t & F & R2). exists (c :: t). split; [constructor; auto|].
      change (c :: t) with ([c] ++ t). eapply reach_app; eassumption.
    + intros (t & F & R). inversion F as [|a' c s' t' Hc F']; subst.
      destruct R as [E ->].
      exists (skip [c] st). split.
      * apply oneSem_reach. exists c. split; [exact Hc|]. eapply reach_make. exact E.
      * apply IH. exists t'. split; [exact F'|].
        change (skip (c :: t') st) with (skip t' (skip [c] st)).
        eapply reach_make. apply (skip_rest [c]). exact E.
Qed.

(** Iterating a one-character pattern reads a run of such characters. *)
Lemma iter_one_reach p st st' :
  iter (oneSem p) st st' <->
  exists t, Forall (fun c => p c = true) t /\ reach st t st'.
Proof.
  split.
  - induction 1 as [st|st st1 st2 H1 _ _ IH].
    + exists []. split; [constructor|apply reach_nil].
    + apply oneSem_reach in H1 as (c & Hc & R1). destruct IH as (t & F & R2).
      exists (c :: t). split; [constructor; auto|]. change (c :: t) with ([c] ++ t). eapply reach_app; eassumption.
  - intros (t & F & R). revert st R.
    induction F as [|c t Hc F IH]; intros st [E ->].
    + constructor.
    + assert (reach st [c] (skip [c] st)) as R1 by (eapply reach_make; exact E).
      eapply iter_more.
      * apply oneSem_reach. exists c. split; [exact Hc|exact R1].
      * pose proof (reach_shorter _ _ _ R1) as L. simpl in L |- *. lia.
      * apply IH. change (skip (c :: t) st) with (skip t (skip [c] st)).
        eapply reach_make. apply (skip_rest [c]). exact E.
Qed.

(** Without the [i] flag a literal reads exactly itself. *)
Lemma Forall2_eqb (s t : str) :
  Forall2 (fun a b => (a =? b)%N = true) s t <-> s = t.
Proof.
  split.
  - induction 1 as [|a b s t H _ IH]; [reflexivity|].
    apply N.eqb_eq in H. now subst.
  - intros <-. induction s; constructor; [apply N.eqb_refl|assumption].
Qed.

(** What [matchAt] finds is a match, and it finds one when there is one. *)
Lemma matchAt_sound x st st' :
  matchAt x st = Some st' -> Sem (reflags x) (pattern x) st st'.
Proof.
  intros H. apply (proj1 (m_correct (reflags x) (pattern x))) in H as (s & Hs & E).
  now inversion E; subst.
Qed.

Lemma matchAt_complete x st :
  matchAt x st = None -> forall st', ~ Sem (reflags x) (pattern x) st st'.
Proof.
  intros H st' Hs.
  pose proof (proj2 (m_correct (reflags x) (pattern x)) _ _ H _ Hs). discriminate.
Qed.

End Matching.

(** ** The bounds of the loops *)

Module Bounds.

Lemma startsWith_inv (p : str) : forall s, JS.startsWith s p = true -> exists r, s = p ++ r.
Proof.
  induction p as [|a p IH]; intros s H; [exists s; reflexivity|].
  destruct s as [|b s]; [discriminate|]. simpl in H.
  apply andb_prop in H as [E H]. apply N.eqb_eq in E. subst b.
  destruct (IH _ H) as [r ->]. now exists r.
Qed.

Lemma advances_refl st : advances st st.
Proof. exists []. simpl. split; [reflexivity|lia]. Qed.

Lemma advances_trans st1 st2 st3 : advances st1 st2 -> advances st2 st3 -> advances st1 st3.
Proof.
  intros (t1 & R1 & P1) (t2 & R2 & P2). exists (t1 ++ t2). split.
  - rewrite R1, R2. apply app_assoc.
  - rewrite P2, P1, length_app. lia.
Qed.

Lemma oneSem_advances p st st' : oneSem p st st' -> advances st st'.
Proof.
  intros (c & rest' & R & _ & ->). exists [c]. unfold step. cbn [ms_rest ms_pos].
  rewrite R. simpl. split; [reflexivity|lia].
Qed.

Lemma iter_advances (R : mstate -> mstate -> Prop) :
  (forall st st', R st st' -> advances st st') ->
  forall st st', iter R st st' -> advances st st'.
Proof.
  intros HR st st' H. induction H as [st|st st1 st2 H1 _ _ IH].
  - apply advances_refl.
  - eapply advances_trans; [apply HR; exact H1|exact IH].
Qed.

(** A match reads text: it never moves back. *)
Lemma Sem_advances f r : forall st st', Sem f r st st' -> advances st st'.
Proof.
  induction r as [|c|neg items|a IHa b IHb|a IHa b IHb|a IHa|a IHa|i a IHa|i|a IHa| | | |];
    intros st st' H; simpl in H;
    try (eapply oneSem_advances; exact H);
    try (match type of H with _ /\ _ => destruct H as [E _]; rewrite E; apply advances_refl end).
  - rewrite H. apply advances_refl.
  - destruct H as (mid & H1 & H2). eapply advances_trans; eauto.
  - destruct H as [H|H]; eauto.
  - eapply iter_advances; eauto.
  - destruct H as (mid & H1 & H2). eapply advances_trans; [eauto|].
    eapply iter_advances; eauto.
  - destruct H as (st1 & H1 & ->). apply IHa in H1 as (t & R & P). now exists t.
  - destruct (get_cap i (ms_caps st)) as [t|]; [|subst; apply advances_refl].
    destruct H as [H ->]. apply startsWith_inv in H as [r0 H].
    exists t. split; [|apply Matching.skip_pos].
    rewrite (Matching.skip_rest t st r0 H). exact H.
Qed.

(** Where a search result lies in the text searched. *)
Lemma search_bounds x rest pos prev st st' :
  search x pos prev rest = Some (st, st') ->
  exists j t, rest = firstn j rest ++ t ++ ms_rest st'
    /\ length (firstn j rest) = j
    /\ ms_rest st = t ++ ms_rest st'
    /\ ms_pos st = pos + j /\ ms_pos st' = pos + j + length t.
Proof.
  intros H. apply search_some in H as (j & Hj & _ & Hp & Hr & Hm & _).
  apply Matching.matchAt_sound, Sem_advances in Hm as (t & R & P).
  exists j, t. rewrite <- R, Hr, firstn_skipn, length_firstn.
  repeat split; try lia. 
Qed.

Lemma exec_bounds x s i r :
  exec x s i = Some r -> i <= m_index r /\ m_index r <= m_end r /\ m_end r <= length s.
Proof.
  unfold exec. destruct (length s <? i) eqn:L; [discriminate|].
  apply Nat.ltb_ge in L.
  destruct (search x i (last_opt (firstn i s)) (skipn i s)) as [[st st']|] eqn:E; [|discriminate].
  intros H. inversion H; subst r. cbn [m_index m_end result_of].
  apply search_bounds in E as (j & t & E & Lj & _ & P & P').
  apply (f_equal (@length _)) in E. rewrite !length_app, Lj, length_skipn in E. lia.
Qed.

(** The bound of [execAll] is never reached: [lastIndex] moves with every
    match, so any bound above the length of the subject gives the same
    list. *)
Lemma execAll_from_fuel x s : forall fuel fuel' i,
  S (length s) - i <= fuel -> S (length s) - i <= fuel' ->
  execAll_from x s fuel i = execAll_from x s fuel' i.
Proof.
  induction fuel as [|n IH]; intros fuel' i H H'.
  - destruct fuel' as [|n']; [reflexivity|]. simpl.
    destruct (exec x s i) eqn:E; [|reflexivity].
    apply exec_bounds in E. lia.
  - simpl. destruct (exec x s i) as [r|] eqn:E.
    + pose proof (exec_bounds _ _ _ _ E) as B.
      destruct fuel' as [|n']; [lia|]. simpl. rewrite E. f_equal.
      apply IH; destruct (Nat.eqb_spec (m_end r) (m_index r)); lia.
    + destruct fuel'; simpl; [reflexivity|now rewrite E].
Qed.

Lemma execAll_fuel x s fuel :
  S (length s) <= fuel -> execAll_from x s fuel 0 = execAll x s.
Proof. intros H. apply execAll_from_fuel; lia. Qed.

(** Nor is the bound of [replaceAll]. *)
Lemma replaceAll_loop_fuel x by_ : forall fuel fuel' pos prev rest,
  length rest < fuel -> length rest < fuel' ->
  replaceAll_loop x by_ fuel pos prev rest = replaceAll_loop x by_ fuel' pos prev rest.
Proof.
  induction fuel as [|n IH]; intros fuel' pos prev rest H H'; [lia|].
  destruct fuel' as [|n']; [lia|]. simpl.
  destruct (search x pos prev rest) as [[st st']|] eqn:E; [|reflexivity].
  apply search_bounds in E as (j & t & E & Lj & R & P & P').
  apply (f_equal (@length _)) in E. rewrite !length_app, Lj in E.
  do 2 f_equal.
  destruct (Nat.eqb_spec (ms_pos st') (ms_pos st)) as [Q|Q].
  - destruct (ms_rest st) as [|c rest'] eqn:Rs; [reflexivity|]. f_equal.
    apply (f_equal (@length _)) in R. rewrite length_app in R. simpl in R.
    apply IH; lia.
  - apply IH; lia.
Qed.

Lemma replaceAll_fuel x by_ s fuel :
  length s < fuel -> replaceAll_loop x by_ fuel 0 None s = replaceAll x by_ s.
Proof. intros H. apply replaceAll_loop_fuel; [exact H|lia]. Qed.

(** The two loops that rewrite their subject: when the loop leaves by
    itself within a bound, every larger bound gives the same text. *)
Lemma connLoop_fuel definedNodes : forall fuel line lastIndex,
  connEnds definedNodes fuel line lastIndex = true ->
  forall fuel', fuel <= fuel' ->
  connLoop definedNodes fuel' line lastIndex = connLoop definedNodes fuel line lastIndex.
Proof.
  induction fuel as [|n IH]; intros line i H fuel' L; [discriminate|].
  destruct fuel' as [|n']; [lia|]. simpl in *.
  destruct (exec connFromRegex line i); [|reflexivity].
  apply IH; [exact H|lia].
Qed.

Lemma classDefLoop_fuel : forall fuel text lastIndex,
  classDefEnds fuel text lastIndex = true ->
  forall fuel', fuel <= fuel' ->
  classDefLoop fuel' text lastIndex = classDefLoop fuel text lastIndex.
Proof.
  induction fuel as [|n IH]; intros text i H fuel' L; [discriminate|].
  destruct fuel' as [|n']; [lia|]. simpl in *.
  destruct (exec classDefRegex text i); [|reflexivity].
  apply IH; [exact H|lia].
Qed.

(** On the diagrams evaluated in this file the loops leave by themselves. *)
Lemma loops_end :
  processEnds (js "B --> C") = true
  /\ processEnds (js "graph TD\n    A --> ") = true
  /\ repairEnds (js "B --> C") = true
  /\ repairEnds (js "graph TD\nsubgraph S1\nA[a] --> B[b]\nend\nsubgraph S2\nC[c]\nsubgraph S3\nD[d]") = true
  /\ repairEnds (js "graph TB\nA[a] --> B[b]") = true
  /\ repairEnds (ensurePerfectDiagram (js "graph TB\nA[a] --> B[b]")) = true
  /\ repairEnds (ensurePerfectDiagram []) = true
  /\ repairEnds (js "A[a]\nA --> B\nendpoint -->") = true
  /\ repairEnds (js "graph X\nA[a] --> B[b]") = true.
Proof. vm_compute. repeat split. Qed.

End Bounds.

(** ** The direction of the declaration *)

Module Direction.
Import Matching.

(** What a match of [directionRegex] looks like. *)
Lemma direction_inv st st' :
  Sem fi (pattern directionRegex) st st' ->
  ms_prev st = None /\
  exists kw w l1 l2,
    isKeyword kw /\ w <> [] /\ Forall space w /\ letter l1 /\ letter l2
    /\ ms_rest st = kw ++ w ++ l1 :: l2 :: ms_rest st'
    /\ ms_pos st' = ms_pos st + length (kw ++ w) + 2
    /\ get_cap 1 (ms_caps st') = Some kw
    /\ get_cap 2 (ms_caps st') = Some [l1; l2].
Proof.
  unfold directionRegex, rx_i, pattern, upper, ws. cbn [seq Sem].
  intros (mid & [-> Hprev] & mid0 & (st1 & Hkw & ->) & mid1
          & (mid2 & Hw1 & Hw) & st2 & (mid3 & Hl1 & Hl2) & ->).
  split.
  { destruct (ms_prev st); [discriminate Hprev|reflexivity]. }
  assert (exists kw, isKeyword kw /\ reach st kw st1) as (kw & Kkw & Rkw).
  { destruct Hkw as [H|H]; apply lit_reach in H as (t & F & R);
      exists t; (split; [|exact R]); [left|right]; exact F. }
  rewrite (reach_consumed _ _ _ Rkw) in *.
  apply oneSem_reach in Hw1 as (c & Hc & Rc).
  apply iter_one_reach in Hw as (t & Ft & Rt).
  assert (reach (set_cap 1 kw st1) (c :: t) mid1) as Rw
      by (change (c :: t) with ([c] ++ t); eapply reach_app; eassumption).
  apply oneSem_reach in Hl1 as (l1 & Hl1 & R1).
  apply oneSem_reach in Hl2 as (l2 & Hl2 & R2).
  assert (reach mid1 [l1; l2] st2) as Rl
      by (change [l1; l2] with ([l1] ++ [l2]); eapply reach_app; eassumption).
  rewrite (reach_consumed _ _ _ Rl).
  exists kw, (c :: t), l1, l2.
  split; [exact Kkw|]. split; [discriminate|].
  split; [constructor; assumption|]. split; [exact Hl1|]. split; [exact Hl2|].
  split; [|split; [|split]].
  - destruct Rkw as [E1 _], Rw as [E2 _], Rl as [E3 _]. simpl in E2.
    cbn [set_cap ms_rest]. rewrite E1, E2, E3. reflexivity.
  - cbn [set_cap ms_pos].
    rewrite (reach_pos _ _ _ Rl), (reach_pos _ _ _ Rw). cbn [set_cap ms_pos].
    rewrite (reach_pos _ _ _ Rkw), length_app. simpl. lia.
  - cbn [set_cap ms_caps get_cap Nat.eqb].
    rewrite (reach_caps _ _ _ Rl), (reach_caps _ _ _ Rw). reflexivity.
  - reflexivity.
Qed.

Lemma after_prev pos c rest j : ms_prev (after pos (Some c) rest j) <> None.
Proof.
  revert pos c rest. induction j as [|j IH]; intros pos c rest; simpl.
  - discriminate.
  - destruct rest as [|d rest]; [discriminate|apply IH].
Qed.

(** [^] holds at the start of the text only. *)
Lemma match_direction s r :
  match_ directionRegex s = Some r ->
  exists st', matchAt directionRegex (MState 0 None s []) = Some st'
              /\ search directionRegex 0 None s = Some (MState 0 None s [], st')
              /\ r = result_of (MState 0 None s []) st'.
Proof.
  unfold match_, exec.
  change (length s <? 0) with false. change (skipn 0 s) with s.
  change (last_opt (firstn 0 s)) with (@None char). cbv iota.
  destruct (search directionRegex 0 None s) as [[st st']|] eqn:Es; [|discriminate].
  intros H. inversion H; subst r. clear H.
  pose proof Es as Es'.
  apply search_some in Es as (j & Hj & Hst & _ & _ & Hm & _).
  apply matchAt_sound in Hm as Hs. apply direction_inv in Hs as [Hprev _].
  assert (st = MState 0 None s []) as ->.
  { destruct j as [|j]; [now destruct s|].
    destruct s as [|c s]; [simpl in Hj; lia|]. simpl in Hst. subst st.
    now apply after_prev in Hprev. }
  exists st'. auto.
Qed.

Lemma app_inv_length (a b c d : str) :
  a ++ b = c ++ d -> length a = length c -> a = c /\ b = d.
Proof.
  revert c; induction a as [|x a IH]; intros [|y c] H L; simpl in *; try lia; auto.
  inversion H; subst. destruct (IH c) as [-> ->]; auto.
Qed.

(** Two keywords read at the same place are the same word. *)
Lemma keyword_same_length kw kw' (r r' : str) :
  isKeyword kw -> isKeyword kw' -> kw ++ r = kw' ++ r' -> length kw = length kw'.
Proof.
  intros K K' E.
  destruct K as [F|F], K' as [F'|F'];
    pose proof (Forall2_length F) as L; pose proof (Forall2_length F') as L';
    simpl in L, L'; try lia; exfalso.
  - destruct kw as [|c kw]; [discriminate L|].
    destruct kw' as [|c' kw']; [discriminate L'|].
    inversion E; subst c'. inversion F as [|? ? ? ? H _]; inversion F' as [|? ? ? ? H' _].
    subst. unfold chr_eq, fi in H, H'. cbn [ignoreCase] in H, H'.
    apply N.eqb_eq in H, H'. rewrite <- H in H'. vm_compute in H'. discriminate H'.
  - destruct kw as [|c kw]; [discriminate L|].
    destruct kw' as [|c' kw']; [discriminate L'|].
    inversion E; subst c'. inversion F as [|? ? ? ? H _]; inversion F' as [|? ? ? ? H' _].
    subst. unfold chr_eq, fi in H, H'. cbn [ignoreCase] in H, H'.
    apply N.eqb_eq in H, H'. rewrite <- H in H'. vm_compute in H'. discriminate H'.
Qed.

(** The text a replacement by [$1 TD] produces. *)
Lemma fixDirection_replaced s r :
  match_ directionRegex s = Some r ->
  exists kw rest,
    isKeyword kw /\ groupOr 1 r = kw /\ skipn (m_end r) s = rest
    /\ replaceFirst directionRegex (fun r => groupOr 1 r ++ js " TD") s
       = kw ++ js " TD" ++ rest.
Proof.
  intros Em. apply match_direction in Em as (st' & Hm & Hs & ->).
  apply matchAt_sound, direction_inv in Hm
    as (_ & kw & w & l1 & l2 & K & _ & _ & _ & _ & Er & Ep & C1 & _).
  cbn [ms_rest ms_pos] in Er, Ep.
  exists kw, (ms_rest st'). split; [exact K|].
  assert (groupOr 1 (result_of (MState 0 None s []) st') = kw) as G.
  { unfold groupOr, group, result_of. cbn [m_caps]. now rewrite C1. }
  split; [exact G|]. split.
  - unfold result_of. cbn [m_end]. rewrite Ep, Er.
    rewrite app_assoc. rewrite skipn_app.
    assert (0 + length (kw ++ w) + 2 - length (kw ++ w) = 2) as -> by lia.
    rewrite (@skipn_all2 _ _ (kw ++ w)) by lia. reflexivity.
  - unfold replaceFirst. rewrite Hs. cbn [ms_pos firstn]. rewrite G.
    rewrite app_nil_l, <- app_assoc. reflexivity.
Qed.

(** What the direction step does.  After it, whenever the text
    begins with [graph] or [flowchart] (in any letter case), white space
    and two letters, those two letters are, in upper case, one of TB, TD,
    BT, RL, LR.  Two letters that are not are replaced, with the white
    space before them, by a blank and TD; in every other case the text is
    left as it is. *)
Theorem fixDirection_valid (s : str) :
  (forall r, match_ directionRegex (fixDirection s) = Some r ->
     JS.has validDirections (JS.toUpperCase (groupOr 2 r)) = true)
  /\ (forall r, match_ directionRegex s = Some r ->
        JS.has validDirections (JS.toUpperCase (groupOr 2 r)) = false ->
        fixDirection s = groupOr 1 r ++ js " TD" ++ skipn (m_end r) s)
  /\ (forall r, match_ directionRegex s = Some r ->
        JS.has validDirections (JS.toUpperCase (groupOr 2 r)) = true ->
        fixDirection s = s)
  /\ (match_ directionRegex s = None -> fixDirection s = s).
Proof.
  unfold fixDirection.
  destruct (match_ directionRegex s) as [r|] eqn:Em.
  2:{ repeat split; try (intros; discriminate); auto. now rewrite Em. }
  destruct (JS.has validDirections (JS.toUpperCase (groupOr 2 r))) eqn:Ev; cbn [negb].
  { repeat split; try (intros; discriminate); auto.
    - intros r' E. rewrite Em in E. inversion E; subst. exact Ev.
    - intros r' E. inversion E; subst. congruence. }
  destruct (fixDirection_replaced s r Em) as (kw & rest & K & G & Hrest & ->).
  repeat split; try (intros; discriminate).
  - intros r' Em'.
    apply match_direction in Em' as (st' & Hm & _ & ->).
    apply matchAt_sound, direction_inv in Hm
      as (_ & kw' & w' & l1 & l2 & K' & Hw & Fw & _ & _ & Er & _ & _ & C2).
    cbn [ms_rest] in Er.
    destruct (app_inv_length _ _ _ _ Er (keyword_same_length _ _ _ _ K K' Er))
      as [_ E].
    unfold groupOr, group, result_of. cbn [m_caps]. rewrite C2.
    destruct w' as [|c w']; [congruence|].
    inversion Fw as [|? ? _ Fw']; subst.
    destruct w' as [|d w'].
    + simpl in E. inversion E; subst. reflexivity.
    + simpl in E. inversion E; subst.
      inversion Fw' as [|? ? Hd _]. discriminate Hd.
  - intros r' E Hv. inversion E; subst r'. rewrite G, Hrest. reflexivity.
  - intros r' E Hv. inversion E; subst r'. congruence.
Qed.

Lemma fixDirection_valid_witness :
  fixDirection (js "graph XY\nA[a] --> B[b]") = js "graph TD\nA[a] --> B[b]".
Proof.
  destruct (fixDirection_valid (js "graph XY\nA[a] --> B[b]")) as (_ & H & _).
  destruct (match_ directionRegex (js "graph XY\nA[a] --> B[b]")) as [r|] eqn:E;
    [|vm_compute in E; discriminate E].
  rewrite (H r eq_refl).
  - vm_compute in E. inversion E; subst r. reflexivity.
  - vm_compute in E. inversion E; subst r. reflexivity.
Defined.

End Direction.

(** ** Arrows without a target *)

Module Dangling.
Import Matching.

Lemma space_class c : in_class fm false [CSpace] c = JS.isSpace c.
Proof. unfold in_class, in_items. simpl. now destruct (JS.isSpace c). Qed.

Lemma scan_app a u : scan a (a ++ u) = toEnd u.
Proof. induction a as [|x a IH]; simpl; [reflexivity|]. now rewrite N.eqb_refl. Qed.

Lemma scan_inv a : forall u, scan a u = true -> exists r, u = a ++ r /\ toEnd r = true.
Proof.
  induction a as [|x a IH]; intros u H; simpl in H.
  - exists u. auto.
  - destruct u as [|c u]; [discriminate|].
    apply andb_prop in H as [E H]. apply N.eqb_eq in E. subst c.
    apply IH in H as (r & -> & H). exists r. auto.
Qed.

Lemma toEnd_app w tail :
  Forall (fun c => JS.isSpace c = true) w -> toEnd tail = true -> toEnd (w ++ tail) = true.
Proof.
  intros F H. induction F as [|c w Hc _ IH]; simpl; [exact H|].
  rewrite Hc, IH. simpl. apply orb_true_r.
Qed.

Lemma toEnd_inv u :
  toEnd u = true ->
  exists w tail, u = w ++ tail /\ Forall (fun c => JS.isSpace c = true) w
    /\ match tail with
       | [] => True
       | c :: _ => c = ch ";" \/ JS.isLineTerminator c = true
       end.
Proof.
  induction u as [|c u IH]; intros H.
  - exists [], []. repeat split. constructor.
  - cbn [toEnd] in H. destruct (c =? ch ";")%N eqn:E1.
    { exists [], (c :: u). repeat split; [constructor|]. left. now apply N.eqb_eq. }
    destruct (JS.isLineTerminator c) eqn:E2.
    { exists [], (c :: u). repeat split; [constructor|]. now right. }
    cbn [orb] in H. apply andb_prop in H as [Hc H].
    destruct (IH H) as (w & tail & -> & F & T).
    exists (c :: w), tail. repeat split; [constructor; assumption|exact T].
Qed.

(** A match of the pattern, and what it reads. *)
Lemma closes_toEnd w semi v :
  Forall (fun c => JS.isSpace c = true) w -> closes semi v ->
  toEnd (w ++ semi ++ v) = true.
Proof.
  intros F [-> | [-> H]]; (apply toEnd_app; [exact F|]); [reflexivity|].
  destruct v as [|c v]; [reflexivity|]. simpl in H. cbn [app toEnd].
  rewrite H. now rewrite orb_true_r.
Qed.

Lemma dangling_sem a st st' :
  Sem fm (pattern (dangling a)) st st' ->
  exists w semi,
    Forall (fun c => JS.isSpace c = true) w /\ closes semi (ms_rest st')
    /\ reach st (a ++ w ++ semi) st'.
Proof.
  unfold dangling, rx_m, pattern, danglingPattern, toLineEnd, ws. cbn [Sem].
  intros (mid & Ha & mid2 & Hw & Hend).
  apply lit_reach in Ha as (t & F & Ra).
  apply Forall2_eqb in F. subst t.
  apply iter_one_reach in Hw as (w & Fw & Rw).
  assert (Forall (fun c => JS.isSpace c = true) w) as Fw'.
  { eapply Forall_impl; [|exact Fw]. intros c H. cbv beta in H.
    now rewrite space_class in H. }
  exists w.
  destruct Hend as [Hs|[-> He]].
  - apply oneSem_reach in Hs as (c & Hc & Rc).
    unfold chr_eq in Hc. cbn [ignoreCase fm] in Hc. apply N.eqb_eq in Hc. subst c.
    exists [ch ";"]. split; [exact Fw'|]. split; [now left|].
    eapply reach_app; [exact Ra|]. eapply reach_app; eassumption.
  - exists []. split; [exact Fw'|]. split.
    + right. split; [reflexivity|].
      destruct (ms_rest mid2) as [|c r]; [exact I|].
      cbn [multiline fm andb] in He. exact He.
    + rewrite app_nil_r. eapply reach_app; eassumption.
Qed.

Lemma dangling_sem_scan a st st' :
  Sem fm (pattern (dangling a)) st st' -> scan a (ms_rest st) = true.
Proof.
  intros H. apply dangling_sem in H as (w & semi & F & C & [E _]).
  rewrite E, <- !app_assoc, scan_app. now apply closes_toEnd.
Qed.

Lemma dangling_exists a st :
  scan a (ms_rest st) = true -> exists st', Sem fm (pattern (dangling a)) st st'.
Proof.
  intros H. apply scan_inv in H as (r & E & H).
  apply toEnd_inv in H as (w & tail & -> & Fw & T).
  unfold dangling, rx_m, pattern, danglingPattern, toLineEnd, ws. cbn [Sem].
  assert (reach st a (skip a st)) as Ra by (eapply reach_make; exact E).
  assert (reach (skip a st) w (skip w (skip a st))) as Rw.
  { eapply reach_make. eapply skip_rest. exact E. }
  assert (ms_rest (skip w (skip a st)) = tail) as Et.
  { eapply skip_rest. eapply skip_rest. exact E. }
  assert (iter (Sem fm (Class false [CSpace])) (skip a st) (skip w (skip a st))) as Hw.
  { apply iter_one_reach. exists w. split; [|exact Rw].
    eapply Forall_impl; [|exact Fw]. intros c Hc. cbv beta. now rewrite space_class. }
  assert (Sem fm (lit a) st (skip a st)) as Ha.
  { apply lit_reach. exists a. split; [now apply Forall2_eqb|exact Ra]. }
  destruct tail as [|c tail].
  - exists (skip w (skip a st)), (skip a st). split; [exact Ha|].
    exists (skip w (skip a st)). split; [exact Hw|]. right. split; [reflexivity|].
    now rewrite Et.
  - destruct T as [->|Hlt].
    + exists (skip [ch ";"] (skip w (skip a st))), (skip a st). split; [exact Ha|].
      exists (skip w (skip a st)). split; [exact Hw|]. left.
      apply oneSem_reach. exists (ch ";"). split; [reflexivity|].
      eapply reach_make. exact Et.
    + exists (skip w (skip a st)), (skip a st). split; [exact Ha|].
      exists (skip w (skip a st)). split; [exact Hw|]. right. split; [reflexivity|].
      rewrite Et. cbn [multiline fm andb]. exact Hlt.
Qed.

(** The pattern matches at a state exactly when the text there starts
    with a dangling arrow. *)
Lemma dangling_none a st : matchAt (dangling a) st = None <-> scan a (ms_rest st) = false.
Proof.
  split; intros H.
  - destruct (scan a (ms_rest st)) eqn:E; [|reflexivity].
    apply dangling_exists in E as (st' & Hs).
    elim (matchAt_complete _ _ H _ Hs).
  - destruct (matchAt (dangling a) st) as [st'|] eqn:E; [|reflexivity].
    apply matchAt_sound, dangling_sem_scan in E. congruence.
Qed.

Lemma dangling_some a st st' :
  matchAt (dangling a) st = Some st' ->
  exists w semi,
    Forall (fun c => JS.isSpace c = true) w /\ closes semi (ms_rest st')
    /\ reach st (a ++ w ++ semi) st'.
Proof. intros H. now apply matchAt_sound, dangling_sem in H. Qed.

(** *** What a replacement pass does to a text *)

Lemma replaceAll_rewrites a by_ (s : str) :
  a <> [] -> rewrites a by_ s (replaceAll (dangling a) (const by_) s).
Proof.
  intros Ha. unfold replaceAll.
  assert (forall n rest pos prev, length rest < n ->
            rewrites a by_ rest (replaceAll_loop (dangling a) (const by_) n pos prev rest))
    as H; [|apply H; lia].
  induction n as [|n IHn]; intros rest; [intros; lia|].
  induction rest as [|c rest IHr]; intros pos prev Hl;
    rewrite replaceAll_loop_unfold; cbv zeta.
  - destruct (matchAt (dangling a) (MState pos prev [] [])) as [st'|] eqn:E;
      [|constructor].
    apply dangling_some in E as (w & semi & _ & _ & [E _]). cbn [ms_rest] in E.
    destruct a; [congruence|discriminate E].
  - destruct (matchAt (dangling a) (MState pos prev (c :: rest) [])) as [st'|] eqn:E.
    + apply dangling_some in E as (w & semi & Fw & Cl & R).
      pose proof (reach_pos _ _ _ R) as Hp. pose proof R as [Er _].
      cbn [ms_pos ms_rest] in Hp, Er.
      assert (length (a ++ w ++ semi) <> 0) as Hat.
      { rewrite length_app. destruct a; [congruence|simpl; lia]. }
      replace (ms_pos st' =? pos) with false by (symmetry; apply Nat.eqb_neq; lia).
      unfold const at 1. rewrite Er, <- !app_assoc. apply rw_replace.
      * exact Fw.
      * exact Cl.
      * apply IHn. apply (f_equal (@length char)) in Er.
        rewrite length_app in Er. simpl in Hl, Er. lia.
    + apply rw_copy.
      * apply dangling_none in E. exact E.
      * apply IHr. simpl in Hl. lia.
Qed.

Lemma toEndNever_sound p v : toEndNever p = true -> toEnd (p ++ v) = false.
Proof.
  induction p as [|c p IH]; simpl; [discriminate|].
  intros H. apply andb_prop in H as [H H3]. apply andb_prop in H as [H1 H2].
  apply negb_true_iff in H1, H2. rewrite H1, H2. simpl.
  destruct (JS.isSpace c); [|reflexivity]. simpl. now apply IH.
Qed.

Lemma scanNever_sound a : forall p v, scanNever a p = true -> scan a (p ++ v) = false.
Proof.
  induction a as [|x a IH]; intros p v H; simpl in *.
  - now apply toEndNever_sound.
  - destruct p as [|c p]; [discriminate|]. simpl.
    apply orb_prop in H as [H|H].
    + apply negb_true_iff in H. now rewrite H.
    + rewrite (IH _ _ H). apply andb_false_r.
Qed.

Lemma tails_spec (s pre u : str) : s = pre ++ u -> In u (tails s).
Proof.
  revert s; induction pre as [|c pre IH]; intros s ->; simpl.
  - destruct u; simpl; auto.
  - right. now apply IH.
Qed.

Lemma harmless_tail a by_ a1 a2 v :
  harmless a by_ = true -> a = a1 ++ a2 -> scan a2 (by_ ++ v) = false.
Proof.
  intros H E. apply andb_prop in H as [H _].
  rewrite forallb_forall in H. apply scanNever_sound, H. eapply tails_spec. exact E.
Qed.

Lemma harmless_inside a by_ q p v :
  harmless a by_ = true -> by_ = q ++ p -> p <> [] -> scan a (p ++ v) = false.
Proof.
  intros H E Hp. apply andb_prop in H as [_ H].
  rewrite forallb_forall in H. pose proof (H p (tails_spec _ _ _ E)) as K.
  destruct p; [congruence|]. now apply scanNever_sound.
Qed.

(** Where a pass copies, a dangling [a] in its output was one in its
    input. *)
Lemma rewrites_transfer a b by_ u o :
  harmless a by_ = true -> rewrites b by_ u o ->
  forall a1 a2, a = a1 ++ a2 -> scan a2 o = true -> scan a2 u = true.
Proof.
  intros Hh R. induction R as [|c u o Hc R IH|w semi v o Fw Cl R IH]; intros a1 a2 E H.
  - exact H.
  - destruct a2 as [|x a2].
    + cbn [scan toEnd] in *.
      destruct ((c =? ch ";")%N || JS.isLineTerminator c); [reflexivity|].
      cbn [orb] in *. apply andb_prop in H as [H1 H2]. rewrite H1.
      apply (IH a []); [now rewrite app_nil_r|exact H2].
    + cbn [scan] in *. apply andb_prop in H as [H1 H2]. rewrite H1.
      apply (IH (a1 ++ [x]) a2); [now rewrite <- app_assoc|exact H2].
  - rewrite (harmless_tail a by_ a1 a2 o Hh E) in H. discriminate.
Qed.

Lemma noDangling_tail a c (u : str) : noDangling a (c :: u) -> noDangling a u.
Proof. intros H pre w E. apply (H (c :: pre)). now rewrite E. Qed.

Lemma noDangling_app a (t v : str) : noDangling a (t ++ v) -> noDangling a v.
Proof. intros H pre w E. apply (H (t ++ pre)). now rewrite E, app_assoc. Qed.

(** A pass for the arrow [b] leaves no dangling [a], where [a] is [b] or
    the input had no dangling [a]. *)
Lemma rewrites_noDangling a b by_ u o :
  a <> [] -> harmless a by_ = true -> rewrites b by_ u o ->
  (a = b \/ noDangling a u) -> noDangling a o.
Proof.
  intros Ha Hh R.
  induction R as [|c u o Hc R IH|w0 semi v o Fw Cl R IH]; intros Hin pre w E.
  - symmetry in E. apply app_eq_nil in E as [_ ->]. destruct a; [congruence|reflexivity].
  - destruct pre as [|d pre].
    + simpl in E. subst w.
      destruct (scan a (c :: o)) eqn:K; [|reflexivity].
      apply (rewrites_transfer a b by_ (c :: u) (c :: o) Hh
               (rw_copy b by_ c u o Hc R) [] a eq_refl) in K.
      destruct Hin as [->|Hin]; [congruence|].
      now rewrite (Hin [] (c :: u) eq_refl) in K.
    + inversion E; subst. apply (IH ltac:(destruct Hin as [->|Hin];
        [now left|right; eapply noDangling_tail; exact Hin]) pre w eq_refl).
  - assert (a = b \/ noDangling a v) as Hin'.
    { destruct Hin as [->|Hin]; [now left|right].
      apply (noDangling_app a (b ++ w0 ++ semi) v). now rewrite <- !app_assoc. }
    apply app_eq_app in E as [l [[-> ->]|[-> ->]]].
    + destruct l as [|x l].
      * rewrite app_nil_r in *. simpl. apply (IH Hin' [] o eq_refl).
      * eapply harmless_inside; [exact Hh|reflexivity|discriminate].
    + apply (IH Hin' l w eq_refl).
Qed.

Lemma after_rest rest : forall pos prev i,
  ms_rest (after pos prev rest i) = skipn i rest.
Proof.
  induction rest as [|c rest IH]; intros pos prev [|i]; simpl; try reflexivity.
  apply IH.
Qed.

Lemma search_none_intro x rest : forall pos prev,
  (forall i, matchAt x (after pos prev rest i) = None) ->
  search x pos prev rest = None.
Proof.
  induction rest as [|c rest IH]; intros pos prev H; rewrite search_unfold;
    pose proof (H 0) as H0; cbn [after] in H0; rewrite H0.
  - reflexivity.
  - apply IH. intros i. exact (H (S i)).
Qed.

(** Where no dangling [a] starts, the pattern of the source finds
    nothing. *)
Lemma noDangling_test a (s : str) : noDangling a s -> test (dangling a) s = false.
Proof.
  intros H. unfold test, exec.
  change (length s <? 0) with false. change (skipn 0 s) with s.
  change (last_opt (firstn 0 s)) with (@None char). cbv iota.
  rewrite search_none_intro; [reflexivity|].
  intros i. apply dangling_none. rewrite after_rest.
  apply (H (firstn i s)). symmetry. apply firstn_skipn.
Qed.

(** After the pass of lines 52-57 no solid, thick or dotted arrow is
    left dangling: none of the three patterns of lines 55-57 matches
    anywhere in its output.  Each of these three replacements copies the
    text and, where an arrow dangles, puts the complete arrow and
    [Unknown] in place of the arrow, the white space after it and the
    semicolon if there is one; without a semicolon the line ends right
    after [Unknown].  On the scenario of the specification the dangling
    arrow becomes [A --> Unknown]; [processDefinition] then writes the
    label of [A] after it, and its output has the edge from [A] to
    [Unknown]. *)
Theorem fixIncompleteArrows_complete (s : str) :
  (test (rx_m (danglingPattern (lit (js "--")))) (fixIncompleteArrows s) = false
   /\ test (rx_m (danglingPattern (lit (js "==")))) (fixIncompleteArrows s) = false
   /\ test (rx_m (danglingPattern (lit (js "-.")))) (fixIncompleteArrows s) = false)
  /\ (exists s3 s4 s5,
        rewrites (js "--") (js "--> Unknown") s3 s4
        /\ rewrites (js "==") (js "==> Unknown") s4 s5
        /\ rewrites (js "-.") (js "-.-> Unknown") s5 (fixIncompleteArrows s))
  /\ fixIncompleteArrows (js "graph TD\n    A --> ") = js "graph TD\n    A --> Unknown"
  /\ processDefinition (js "graph TD\n    A --> ") = js "graph TD\n    A[A] --> Unknown"
  /\ edgeIn (js "A") (js "-->") (js "Unknown")
       (processDefinition (js "graph TD\n    A --> ")) = true.
Proof.
  unfold fixIncompleteArrows. cbv zeta.
  match goal with
  | |- context [replaceAll _ _ (replaceAll _ _ (replaceAll _ _ ?x))] =>
      match x with
      | replaceAll _ _ (replaceAll _ _ _) => generalize x; intros s3
      end
  end.
  fold (dangling (js "--")). fold (dangling (js "==")). fold (dangling (js "-.")).
  set (s4 := replaceAll (dangling (js "--")) (const (js "--> Unknown")) s3).
  set (s5 := replaceAll (dangling (js "==")) (const (js "==> Unknown")) s4).
  set (s6 := replaceAll (dangling (js "-.")) (const (js "-.-> Unknown")) s5).
  assert (rewrites (js "--") (js "--> Unknown") s3 s4) as R4
      by (apply replaceAll_rewrites; discriminate).
  assert (rewrites (js "==") (js "==> Unknown") s4 s5) as R5
      by (apply replaceAll_rewrites; discriminate).
  assert (rewrites (js "-.") (js "-.-> Unknown") s5 s6) as R6
      by (apply replaceAll_rewrites; discriminate).
  assert (noDangling (js "--") s4) as A4.
  { eapply rewrites_noDangling; [discriminate| |exact R4|now left]. reflexivity. }
  assert (noDangling (js "--") s5) as A5.
  { eapply rewrites_noDangling; [discriminate| |exact R5|now right]. reflexivity. }
  assert (noDangling (js "--") s6) as A6.
  { eapply rewrites_noDangling; [discriminate| |exact R6|now right]. reflexivity. }
  assert (noDangling (js "==") s5) as B5.
  { eapply rewrites_noDangling; [discriminate| |exact R5|now left]. reflexivity. }
  assert (noDangling (js "==") s6) as B6.
  { eapply rewrites_noDangling; [discriminate| |exact R6|now right]. reflexivity. }
  assert (noDangling (js "-.") s6) as C6.
  { eapply rewrites_noDangling; [discriminate| |exact R6|now left]. reflexivity. }
  split; [|split; [|split; [|split]]].
  - repeat split; apply noDangling_test; assumption.
  - exists s3, s4, s5. auto.
  - vm_compute. reflexivity.
  - vm_compute. reflexivity.
  - vm_compute. reflexivity.
Qed.

End Dangling.

(** ** Sets of node ids, lines *)

Lemma has_In (s : list str) (x : str) : JS.has s x = true <-> In x s.
Proof.
  unfold JS.has. rewrite existsb_exists. split.
  - intros (y & Hy & E). apply str_eqb_eq in E. now subst.
  - intros H. exists x. split; [exact H|now apply str_eqb_eq].
Qed.

Lemma add_In (s : list str) (x y : str) : In y (JS.add s x) <-> In y s \/ y = x.
Proof.
  unfold JS.add. destruct (JS.has s x) eqn:E.
  - apply has_In in E. split; [auto|]. intros [H| ->]; assumption.
  - rewrite in_app_iff. simpl. intuition.
Qed.

Lemma fold_add_In (A : Type) (g : A -> str) (l : list A) : forall acc y,
  In y (fold_left (fun set r => JS.add set (g r)) l acc) <-> In y acc \/ In y (map g l).
Proof.
  induction l as [|r l IH]; intros acc y; simpl; [intuition|].
  rewrite IH, add_In. intuition.
Qed.

Lemma collectDefined_In acc (s y : str) :
  In y (collectDefined acc s)
  <-> In y acc \/ In y (map (groupOr 1) (execAll nodeDefRegex s)).
Proof. apply fold_add_In. Qed.

Lemma split_cons sep (s : str) : exists l ls, JS.split sep s = l :: ls.
Proof.
  induction s as [|c s IH]; simpl; [eauto|].
  destruct IH as (l & ls & IH).
  destruct (c =? sep)%N; [eauto|]. rewrite IH. eauto.
Qed.

(** Splitting at a separator that is there. *)
Lemma split_app sep (a b : str) :
  JS.split sep (a ++ sep :: b) = JS.split sep a ++ JS.split sep b.
Proof.
  induction a as [|c a IH]; simpl.
  - now rewrite N.eqb_refl.
  - destruct (c =? sep)%N; [now rewrite IH|].
    rewrite IH. destruct (split_cons sep a) as (l & ls & ->). reflexivity.
Qed.

Lemma split_none sep (l : str) : ~ In sep l -> JS.split sep l = [l].
Proof.
  induction l as [|c l IH]; intros H; simpl; [reflexivity|].
  destruct (N.eqb_spec c sep) as [->|_]; [elim H; now left|].
  rewrite IH; [reflexivity|]. intros K. apply H. now right.
Qed.

Lemma split_pieces sep (s l : str) : In l (JS.split sep s) -> ~ In sep l.
Proof.
  revert l. induction s as [|c s IH]; intros l H; simpl in H.
  - destruct H as [<-|[]]. intros [].
  - destruct (N.eqb_spec c sep) as [->|Hne].
    + destruct H as [<-|H]; [intros []|now apply IH].
    + destruct (split_cons sep s) as (l0 & ls & E). rewrite E in H, IH.
      destruct H as [<-|H].
      * intros [K|K]; [congruence|]. apply (IH l0); [now left|exact K].
      * apply IH. now right.
Qed.

(** A line without a line feed is a piece of any text it was joined into. *)
Lemma In_split_join (ls : list str) (l : str) :
  In l ls -> ~ In nl l -> In l (JS.split nl (JS.join (js "\n") ls)).
Proof.
  intros H Hl. induction ls as [|l0 ls IH]; [destruct H|].
  destruct ls as [|l1 ls].
  - destruct H as [->|[]]. simpl. rewrite split_none by exact Hl. now left.
  - change (JS.join (js "\n") (l0 :: l1 :: ls))
      with (l0 ++ nl :: JS.join (js "\n") (l1 :: ls)).
    rewrite split_app. apply in_or_app.
    destruct H as [->|H].
    + left. rewrite split_none by exact Hl. now left.
    + right. now apply IH.
Qed.

Lemma In_spliceIn (A : Type) (x y : A) (l : list A) : forall i,
  In y (JS.spliceIn i x l) <-> y = x \/ In y l.
Proof.
  induction l as [|z l IH]; intros [|i]; simpl; try (intuition congruence).
  rewrite IH. intuition.
Qed.

(** ** What the connection pattern captures *)

Module Connections.
Import Matching.

Lemma oneSem_caps p st st' : oneSem p st st' -> ms_caps st' = ms_caps st.
Proof. intros (c & r & _ & _ & ->). reflexivity. Qed.

Lemma iter_caps (R : mstate -> mstate -> Prop) :
  (forall st st', R st st' -> ms_caps st' = ms_caps st) ->
  forall st st', iter R st st' -> ms_caps st' = ms_caps st.
Proof.
  intros HR st st' H. induction H as [st|st st1 st2 H1 _ _ IH]; [reflexivity|].
  rewrite IH. now apply HR.
Qed.

(** A pattern without groups leaves the captures alone. *)
Lemma Sem_groupFree f r : groupFree r = true ->
  forall st st', Sem f r st st' -> ms_caps st' = ms_caps st.
Proof.
  induction r as [ |c|neg items|a IHa b IHb|a IHa b IHb|a IHa|a IHa
                 |i a IHa|i|a IHa| | | | ]; intros G st st' H; simpl in G, H;
    try discriminate;
    try (apply andb_prop in G as [Ga Gb]);
    try (now subst); try (now destruct H as [-> _]);
    try (eapply oneSem_caps; exact H).
  - destruct H as (mid & H1 & H2).
    rewrite (IHb Gb _ _ H2). now apply IHa.
  - destruct H as [H|H]; [now apply IHa|now apply IHb].
  - eapply iter_caps; [|exact H]. now apply IHa.
  - destruct H as (mid & H1 & H2).
    rewrite (iter_caps _ (IHa G) _ _ H2). now apply IHa.
  - destruct (get_cap i (ms_caps st)); [|now subst].
    destruct H as [_ ->]. apply skip_caps.
Qed.

(** [([A-Za-z0-9_-]+)]: what the group holds. *)
Lemma ident_group i st st' :
  Sem f0 (Group i ident) st st' ->
  exists g, Forall idc g /\ ms_caps st' = (i, g) :: ms_caps st.
Proof.
  unfold ident, idChar. cbn [Sem].
  intros (st1 & (mid & H1 & H2) & ->).
  apply oneSem_reach in H1 as (c & Hc & R1).
  apply iter_one_reach in H2 as (t & Ft & R2).
  assert (reach st (c :: t) st1) as R
      by (change (c :: t) with ([c] ++ t); eapply reach_app; eassumption).
  exists (c :: t). split; [constructor; assumption|].
  rewrite (reach_consumed _ _ _ R). cbn [set_cap ms_caps].
  now rewrite (reach_caps _ _ _ R).
Qed.

Lemma connRegex_groups st st' :
  Sem f0 (pattern connRegex) st st' ->
  exists g1 g2, Forall idc g1 /\ Forall idc g2
    /\ get_cap 1 (ms_caps st') = Some g1 /\ get_cap 2 (ms_caps st') = Some g2.
Proof.
  unfold connRegex, rx, pattern. cbn [seq Sem].
  intros (m0 & _ & m1 & H1 & m2 & Hw1 & m3 & Ha & m4 & Hw2 & H2).
  apply ident_group in H1 as (g1 & F1 & C1).
  apply ident_group in H2 as (g2 & F2 & C2).
  exists g1, g2. split; [exact F1|]. split; [exact F2|].
  rewrite C2.
  assert (ms_caps m4 = ms_caps m1) as ->.
  { change (iter (Sem f0 ws) m3 m4) in Hw2. change (iter (Sem f0 ws) m1 m2) in Hw1.
    rewrite (Sem_groupFree f0 (Star ws) eq_refl _ _ Hw2).
    rewrite (Sem_groupFree f0 (alt arrows) eq_refl _ _ Ha).
    apply (Sem_groupFree f0 (Star ws) eq_refl _ _ Hw1). }
  rewrite C1. split; reflexivity.
Qed.

Lemma idc_no_nl g : Forall idc g -> ~ In nl g.
Proof.
  intros F H. rewrite Forall_forall in F. apply F in H. discriminate H.
Qed.

(** Every result of the [exec] loop comes from a match. *)
Lemma In_execAll x s r :
  In r (execAll x s) ->
  exists st st', matchAt x st = Some st' /\ r = result_of st st'.
Proof.
  unfold execAll. generalize (S (length s)) as fuel, 0 as i.
  induction fuel as [|n IH]; intros i H; simpl in H; [destruct H|].
  destruct (exec x s i) as [r0|] eqn:E; [|destruct H].
  destruct H as [<-|H]; [|eapply IH; exact H].
  unfold exec in E. destruct (length s <? i); [discriminate|].
  destruct (search x i (last_opt (firstn i s)) (skipn i s)) as [[st st']|] eqn:Es;
    [|discriminate].
  inversion E; subst r0.
  apply search_some in Es as (j & _ & _ & _ & _ & Hm & _).
  exists st, st'. auto.
Qed.

(** The ids the connection pattern captures hold no line feed. *)
Lemma connRegex_ids s r :
  In r (execAll connRegex s) ->
  ~ In nl (groupOr 1 r) /\ ~ In nl (groupOr 2 r).
Proof.
  intros H. apply In_execAll in H as (st & st' & Hm & ->).
  apply matchAt_sound, connRegex_groups in Hm as (g1 & g2 & F1 & F2 & C1 & C2).
  unfold groupOr, group, result_of. cbn [m_caps]. rewrite C1, C2.
  split; now apply idc_no_nl.
Qed.

End Connections.

(** ** The validator's second pass *)

Module Validator.
Import Connections.

Lemma extends_refl st : extends st st.
Proof. split; auto. Qed.

Lemma extends_trans st1 st2 st3 : extends st1 st2 -> extends st2 st3 -> extends st1 st3.
Proof. intros [A B] [C D]. split; auto. Qed.

Lemma fixConnection_spec found st r :
  accounted found st ->
  let st' := fixConnection st r in
  accounted found st' /\ extends st st'
  /\ In (groupOr 1 r) (definedNodes st') /\ In (groupOr 2 r) (definedNodes st').
Proof.
  intros Hacc. unfold fixConnection. cbv zeta.
  set (fromNode := groupOr 1 r). set (toNode := groupOr 2 r).
  destruct (JS.has (definedNodes st) fromNode) eqn:E1; cbn [negb];
    [apply has_In in E1|];
    match goal with
    | |- context [JS.has ?d toNode] => destruct (JS.has d toNode) eqn:E2
    end; cbn [negb definedNodes validatedLines];
    try apply has_In in E2;
    (split; [|split; [|split]]);
    try (intros n Hn); try split; try (intros x Hx);
    cbn [definedNodes validatedLines] in *;
    repeat (rewrite add_In in * || rewrite in_app_iff in * );
    simpl In in *;
    try (destruct (Hacc n) as [?|?]; [tauto|tauto|tauto]);
    try tauto.
  - destruct Hn as [Hn| ->]; [destruct (Hacc n Hn); tauto|tauto].
  - destruct Hn as [Hn| ->]; [destruct (Hacc n Hn); tauto|tauto].
  - destruct Hn as [[Hn| ->]| ->]; [destruct (Hacc n Hn); tauto|tauto|tauto].
Qed.

Lemma fixConnections_spec found rs : forall st,
  accounted found st ->
  let st' := fold_left fixConnection rs st in
  accounted found st' /\ extends st st'
  /\ forall r, In r rs ->
       In (groupOr 1 r) (definedNodes st') /\ In (groupOr 2 r) (definedNodes st').
Proof.
  induction rs as [|r0 rs IH]; intros st Hacc; simpl.
  - split; [exact Hacc|]. split; [apply extends_refl|]. intros r [].
  - destruct (fixConnection_spec found st r0 Hacc) as (A1 & E1 & G1 & G2).
    destruct (IH _ A1) as (A2 & E2 & G).
    split; [exact A2|]. split; [eapply extends_trans; eassumption|].
    intros r [<-|Hr]; [|now apply G].
    destruct E2 as [_ E2]. split; now apply E2.
Qed.

Lemma fixLine_skipped st line :
  isSkipped line = true ->
  fixLine st line = FixState (validatedLines st ++ [line]) (definedNodes st)
                      (referencedNodes st) (hasValidConnection st).
Proof.
  unfold isSkipped, fixLine. cbv zeta. intros H.
  destruct (JS.startsWith (JS.trim line) (js "%")),
           (JS.startsWith (JS.trim line) (js "graph")),
           (JS.startsWith (JS.trim line) (js "flowchart")),
           (JS.startsWith (JS.trim line) (js "subgraph")),
           (JS.startsWith (JS.trim line) (js "end")); try reflexivity; discriminate H.
Qed.

Lemma fixLine_content st line :
  isSkipped line = false ->
  fixLine st line =
  let trimmedLine := JS.trim line in
  let connMatches := execAll connRegex trimmedLine in
  let st' := fold_left fixConnection connMatches st in
  match connMatches with
  | _ :: _ =>
      FixState (validatedLines st' ++ [line]) (definedNodes st')
        (referencedNodes st') (hasValidConnection st')
  | [] =>
      if (0 <? length trimmedLine) && test nodeDefRegex trimmedLine
      then FixState (validatedLines st ++ [line]) (definedNodes st)
             (referencedNodes st) (hasValidConnection st)
      else st
  end.
Proof.
  unfold isSkipped, fixLine. cbv zeta. intros H.
  destruct (JS.startsWith (JS.trim line) (js "%")),
           (JS.startsWith (JS.trim line) (js "graph")),
           (JS.startsWith (JS.trim line) (js "flowchart")),
           (JS.startsWith (JS.trim line) (js "subgraph")),
           (JS.startsWith (JS.trim line) (js "end")); try discriminate H; reflexivity.
Qed.

(** A line on which the definition pattern matches is not empty and
    passes the [test] of line 197. *)
Lemma defined_line_test (t n : str) :
  In n (collectDefined [] t) ->
  (0 <? length t) && test nodeDefRegex t = true.
Proof.
  intros H. apply collectDefined_In in H as [[]|H].
  unfold execAll in H. cbn [execAll_from] in H. unfold test.
  destruct (exec nodeDefRegex t 0) as [r|] eqn:E; [|destruct H].
  destruct t as [|c t]; [vm_compute in E; discriminate E|reflexivity].
Qed.

(** One line of the second pass. *)
Lemma fixLine_spec found st line :
  accounted found st ->
  let st' := fixLine st line in
  accounted found st' /\ extends st st'
  /\ (isSkipped line = false ->
      (forall r, In r (execAll connRegex (JS.trim line)) ->
         In line (validatedLines st')
         /\ In (groupOr 1 r) (definedNodes st') /\ In (groupOr 2 r) (definedNodes st'))
      /\ (forall n, In n (collectDefined [] (JS.trim line)) ->
            In line (validatedLines st'))).
Proof.
  intros Hacc. cbv zeta. destruct (isSkipped line) eqn:Es.
  - rewrite fixLine_skipped by exact Es.
    split; [|split; [|discriminate]].
    + intros n Hn. cbn [definedNodes validatedLines] in *. rewrite in_app_iff.
      destruct (Hacc n Hn); tauto.
    + split; cbn [definedNodes validatedLines]; intros x Hx; [|exact Hx].
      rewrite in_app_iff. tauto.
  - rewrite fixLine_content by exact Es. cbv zeta.
    destruct (fixConnections_spec found (execAll connRegex (JS.trim line)) st Hacc)
      as (A & E & G).
    destruct (execAll connRegex (JS.trim line)) as [|r0 rs] eqn:Ec.
    + simpl in A, E, G.
      destruct ((0 <? length (JS.trim line)) && test nodeDefRegex (JS.trim line)) eqn:Et.
      * split; [|split; [|intros _; split]].
        -- intros n Hn. cbn [definedNodes validatedLines] in *. rewrite in_app_iff.
           destruct (Hacc n Hn); tauto.
        -- split; cbn [definedNodes validatedLines]; intros x Hx; [|exact Hx].
           rewrite in_app_iff. tauto.
        -- intros r [].
        -- intros n _. cbn [validatedLines]. rewrite in_app_iff. simpl. tauto.
      * split; [exact Hacc|]. split; [apply extends_refl|]. intros _. split.
        -- intros r [].
        -- intros n Hn. apply defined_line_test in Hn. congruence.
    + split; [|split; [|intros _; split]].
      * intros n Hn. cbn [definedNodes validatedLines] in *. rewrite in_app_iff.
        destruct (A n Hn); tauto.
      * destruct E as [E1 E2].
        split; cbn [definedNodes validatedLines]; intros x Hx; [|now apply E2].
        rewrite in_app_iff. left. now apply E1.
      * intros r Hr. cbn [definedNodes validatedLines]. rewrite in_app_iff.
        split; [simpl; tauto|]. now apply G.
      * intros n _. cbn [validatedLines]. rewrite in_app_iff. simpl. tauto.
Qed.

(** The whole second pass, from any state. *)
Lemma fixLines_spec found lines : forall st,
  accounted found st ->
  let st' := fold_left fixLine lines st in
  accounted found st' /\ extends st st'
  /\ forall line, In line lines -> isSkipped line = false ->
      (forall r, In r (execAll connRegex (JS.trim line)) ->
         In line (validatedLines st')
         /\ In (groupOr 1 r) (definedNodes st') /\ In (groupOr 2 r) (definedNodes st'))
      /\ (forall n, In n (collectDefined [] (JS.trim line)) ->
            In line (validatedLines st')).
Proof.
  induction lines as [|l0 lines IH]; intros st Hacc; simpl.
  - split; [exact Hacc|]. split; [apply extends_refl|]. intros line [].
  - destruct (fixLine_spec found st l0 Hacc) as (A1 & E1 & P1).
    destruct (IH _ A1) as (A2 & E2 & P2).
    split; [exact A2|]. split; [eapply extends_trans; eassumption|].
    intros line [<-|Hl] Hs; [|now apply P2].
    destruct (P1 Hs) as [Pc Pd]. destruct E2 as [E2l E2n]. split.
    + intros r Hr. destruct (Pc r Hr) as (L & G1 & G2). auto.
    + intros n Hn. apply E2l. eapply Pd. exact Hn.
Qed.

(** What the first pass finds was defined on a line that is not skipped. *)
Lemma collectPass_found lines n :
  In n (collectPass lines) ->
  exists line, In line lines /\ isSkipped line = false
               /\ In n (collectDefined [] (JS.trim line)).
Proof.
  unfold collectPass.
  assert (forall acc,
            In n (fold_left (fun definedNodes line =>
                    if isSkipped line then definedNodes
                    else collectDefined definedNodes (JS.trim line)) lines acc) ->
            In n acc \/ exists line, In line lines /\ isSkipped line = false
                                     /\ In n (collectDefined [] (JS.trim line))) as H.
  { induction lines as [|l0 lines IH]; intros acc H; simpl in H; [now left|].
    apply IH in H as [H|(line & Hl & Hs & Hn)].
    - destruct (isSkipped l0) eqn:Es; [now left|].
      apply collectDefined_In in H as [H|H]; [now left|].
      right. exists l0. split; [now left|]. split; [exact Es|].
      apply collectDefined_In. now right.
    - right. exists line. split; [now right|auto]. }
  intros Hn. apply H in Hn as [[]|Hn]. exact Hn.
Qed.

Lemma ensureConnection_keeps st l :
  In l (validatedLines st) -> In l (ensureConnection st).
Proof.
  unfold ensureConnection. intros H.
  destruct (hasValidConnection st); cbn [negb]; [exact H|].
  destruct (definedNodes st) as [|a [|b ds]]; try exact H;
    rewrite in_app_iff; now left.
Qed.

Lemma definitionLine_no_nl n : ~ In nl n -> ~ In nl (definitionLine n).
Proof.
  intros H K. unfold definitionLine in K.
  repeat (rewrite in_app_iff in K).
  destruct K as [K|[K|[K|[K|K]]]]; try (now apply H);
    vm_compute in K; intuition discriminate.
Qed.

(** The validator: the endpoints of the edges it sees are defined in its
    output, and their lines are there. *)
Lemma validator_defines (diagram line : str) (r : mresult) :
  isBlank diagram = false ->
  In line (JS.split nl diagram) -> isSkipped line = false ->
  In r (execAll connRegex (JS.trim line)) ->
  let out := JS.split nl (validateAndFixDiagram diagram) in
  In line out /\ hasDefinition (groupOr 1 r) out /\ hasDefinition (groupOr 2 r) out.
Proof.
  intros Hb Hl Hs Hr. cbv zeta.
  unfold validateAndFixDiagram, validateAndFixDiagramWith. rewrite Hb.
  unfold validateAndFixDiagram_body. cbv zeta.
  set (lines := JS.split nl diagram) in *.
  set (st := fixPass lines).
  assert (accounted (collectPass lines) (FixState [] (collectPass lines) [] false)) as A0
      by (intros n Hn; now left).
  destruct (fixLines_spec (collectPass lines) lines _ A0) as (A & _ & P).
  fold (fixPass lines) in A, P. fold st in A, P.
  destruct (P line Hl Hs) as [Pc _]. destruct (Pc r Hr) as (L & G1 & G2).
  destruct (definedNodes st) as [|d ds] eqn:Ed; [destruct G1|]. rewrite <- Ed in *.
  cbn [tryCatch].
  match goal with
  | |- context [JS.split nl (?h ++ js "\n" ++ ?b)] =>
      change (h ++ js "\n" ++ b) with (h ++ nl :: b); generalize h; intros hdr
  end.
  rewrite split_app.
  assert (forall l, In l (validatedLines st) -> ~ In nl l ->
            In l (JS.split nl hdr ++ JS.split nl (JS.join (js "\n") (ensureConnection st))))
    as Keep.
  { intros l Hin Hnl. apply in_or_app. right. apply In_split_join; [|exact Hnl].
    now apply ensureConnection_keeps. }
  assert (forall l, In l lines -> ~ In nl l) as Lines
      by (intros l Hin; now apply (split_pieces nl diagram)).
  assert (forall n, In n (definedNodes st) -> ~ In nl n ->
            hasDefinition n
              (JS.split nl hdr ++ JS.split nl (JS.join (js "\n") (ensureConnection st))))
    as Def.
  { intros n Hn Hnl. destruct (A n Hn) as [Hf|Hline].
    - right. apply collectPass_found in Hf as (l & Hin & Hsk & Hd).
      exists l. split; [|auto]. apply Keep; [|now apply Lines].
      destruct (P l Hin Hsk) as [_ Pd]. eapply Pd. exact Hd.
    - left. apply Keep; [exact Hline|]. now apply definitionLine_no_nl. }
  destruct (connRegex_ids _ _ Hr) as [N1 N2].
  split; [apply Keep; [exact L|now apply Lines]|].
  split; apply Def; assumption.
Qed.

(** The repairer's last step. *)
Lemma collectReferenced_In (s n : str) :
  In n (collectReferenced s) ->
  exists r, In r (execAll connRegex s) /\ (n = groupOr 1 r \/ n = groupOr 2 r).
Proof.
  unfold collectReferenced.
  assert (forall l acc,
            In n (fold_left (fun set r => JS.add (JS.add set (groupOr 1 r)) (groupOr 2 r))
                    l acc) ->
            In n acc \/ exists r, In r l /\ (n = groupOr 1 r \/ n = groupOr 2 r)) as H.
  { induction l as [|r l IH]; intros acc H; simpl in H; [now left|].
    apply IH in H as [H|(r' & Hr & Hn)].
    - rewrite !add_In in H. destruct H as [[H|H]|H]; [now left| |];
        right; exists r; (split; [now left|auto]).
    - right. exists r'. split; [now right|exact Hn]. }
  intros Hn. apply H in Hn as [[]|Hn]. exact Hn.
Qed.

Lemma insertMissing_spec found nodes : forall lines defs,
  (forall n, In n defs -> In n found \/ In (definitionLine n) lines) ->
  let res := fold_left insertMissing nodes (lines, defs) in
  (forall n, In n (snd res) -> In n found \/ In (definitionLine n) (fst res))
  /\ (forall n, In n defs -> In n (snd res))
  /\ (forall n, In n nodes -> n <> js "Unknown" -> In n (snd res)).
Proof.
  induction nodes as [|n0 nodes IH]; intros lines defs Hacc; cbv zeta.
  - simpl. split; [exact Hacc|]. split; [auto|]. intros n [].
  - cbn [fold_left].
    assert (exists lines1 defs1,
              insertMissing (lines, defs) n0 = (lines1, defs1)
              /\ (forall n, In n defs1 -> In n found \/ In (definitionLine n) lines1)
              /\ (forall n, In n defs -> In n defs1)
              /\ (n0 <> js "Unknown" -> In n0 defs1))
      as (lines1 & defs1 & -> & A1 & M1 & N1).
    { unfold insertMissing.
      destruct (JS.has defs n0) eqn:Eh; cbn [negb andb].
      - exists lines, defs. repeat split; auto. intros _. now apply has_In.
      - destruct (str_eqb n0 (js "Unknown")) eqn:Eu; cbn [negb].
        + exists lines, defs. repeat split; auto. intros K.
          apply str_eqb_eq in Eu. contradiction.
        + eexists _, _. split; [reflexivity|]. repeat split.
          * intros n Hn. rewrite add_In in Hn. rewrite In_spliceIn.
            destruct Hn as [Hn| ->]; [destruct (Hacc n Hn); tauto|tauto].
          * intros n Hn. apply add_In. now left.
          * intros _. apply add_In. now right. }
    destruct (IH lines1 defs1 A1) as (A & M & N).
    split; [exact A|]. split; [intros n Hn; apply M, M1, Hn|].
    intros n [<-|Hn] Hu; [apply M, N1, Hu|now apply N].
Qed.

(** Every referenced node but [Unknown] is defined in the text or gets a
    definition line. *)
Lemma defineReferenced_defines (text n : str) :
  In n (collectReferenced text) -> n <> js "Unknown" ->
  In n (collectDefined [] text)
  \/ In (definitionLine n) (JS.split nl (defineReferenced text)).
Proof.
  intros Hn Hu. unfold defineReferenced. cbv zeta.
  destruct (insertMissing_spec (collectDefined [] text) (collectReferenced text)
              (JS.split nl text) (collectDefined [] text))
    as (A & _ & N); [intros m Hm; now left|].
  destruct (A n (N n Hn Hu)) as [H|H]; [now left|right].
  apply In_split_join; [exact H|].
  apply definitionLine_no_nl.
  apply collectReferenced_In in Hn as (r & Hr & [-> | ->]);
    now apply (connRegex_ids _ _ Hr).
Qed.

(** The repairer is its last step after the others. *)
Lemma ensurePerfectDiagram_steps (diagram : str) :
  isBlank diagram = false ->
  ensurePerfectDiagram diagram = defineReferenced (repaired diagram).
Proof.
  intros H. unfold ensurePerfectDiagram, ensurePerfectDiagramWith. now rewrite H.
Qed.

(** The endpoints the two connection patterns do see.  In the
    validator's output, every node that its connection pattern captures
    on a line it does not pass through has a definition: a synthesized
    line of four blanks and [id[id]], or a kept line on which the
    definition pattern captures that id; and the edge's line is there.  In the repairer's output, every node that its
    connection pattern captures anywhere in the repaired text, and its
    definition pattern nowhere, has such a line, except [Unknown]. *)
Theorem endpoints_defined :
  (forall diagram line r,
     isBlank diagram = false ->
     In line (JS.split nl diagram) -> isSkipped line = false ->
     In r (execAll connRegex (JS.trim line)) ->
     let out := JS.split nl (validateAndFixDiagram diagram) in
     In line out /\ hasDefinition (groupOr 1 r) out /\ hasDefinition (groupOr 2 r) out)
  /\ (forall diagram n,
        isBlank diagram = false ->
        In n (collectReferenced (repaired diagram)) -> n <> js "Unknown" ->
        In n (collectDefined [] (repaired diagram))
        \/ In (definitionLine n) (JS.split nl (ensurePerfectDiagram diagram))).
Proof.
  split.
  - intros diagram line r. apply validator_defines.
  - intros diagram n Hb. rewrite (ensurePerfectDiagram_steps diagram Hb).
    apply defineReferenced_defines.
Qed.

Lemma endpoints_defined_witness :
  let out := JS.split nl (validateAndFixDiagram (js "B --> C")) in
  (In (js "B --> C") out /\ hasDefinition (js "B") out /\ hasDefinition (js "C") out)
  /\ (In (js "endpoint") (collectDefined [] (repaired (js "A[a]\nA --> B\nendpoint -->")))
      \/ In (definitionLine (js "endpoint"))
           (JS.split nl (ensurePerfectDiagram (js "A[a]\nA --> B\nendpoint -->")))).
Proof.
  destruct endpoints_defined as [V R]. split.
  - apply (V (js "B --> C") (js "B --> C")
             (MResult 0 7 (js "B --> C") [(2, js "C"); (1, js "B")])).
    + reflexivity.
    + vm_compute. left. reflexivity.
    + reflexivity.
    + vm_compute. left. reflexivity.
  - apply (R (js "A[a]\nA --> B\nendpoint -->") (js "endpoint")).
    + reflexivity.
    + vm_compute. do 2 right. left. reflexivity.
    + vm_compute. discriminate.
Defined.

End Validator.

(** * Further properties

    What the functions of the component guarantee beyond the claims
    above, and the functions of [gemini-service.ts] that prepare the
    definition. *)

(** ** Strings and lines *)

Lemma startsWith_app (p r : str) : JS.startsWith (p ++ r) p = true.
Proof. induction p as [|a p IH]; simpl; [reflexivity|]. now rewrite N.eqb_refl. Qed.

Lemma trimStart_app (s t : str) : JS.trimStart s <> [] ->
  JS.trimStart (s ++ t) = JS.trimStart s ++ t.
Proof.
  induction s as [|a s IH]; simpl; [congruence|].
  destruct (JS.isSpace a); [exact IH|reflexivity].
Qed.

Lemma trimStart_suffix (s : str) : exists w, s = w ++ JS.trimStart s.
Proof.
  induction s as [|a s [w IH]]; [now exists []|]. simpl.
  destruct (JS.isSpace a); [exists (a :: w); simpl; now f_equal|now exists []].
Qed.

Lemma trimEnd_prefix (s : str) : exists w, s = JS.trimEnd s ++ w.
Proof.
  unfold JS.trimEnd. destruct (trimStart_suffix (rev s)) as [w E].
  exists (rev w). rewrite <- rev_app_distr, <- E. symmetry. apply rev_involutive.
Qed.

(** [trimEnd] stops at the last code unit that is no white space. *)
Lemma trimEnd_keeps (a : str) c (b : str) :
  JS.isSpace c = false -> exists b', JS.trimEnd (a ++ c :: b) = a ++ c :: b'.
Proof.
  intros Hc. unfold JS.trimEnd. rewrite rev_app_distr. simpl. rewrite <- app_assoc. simpl.
  assert (exists b1, JS.trimStart (rev b ++ c :: rev a) = b1 ++ c :: rev a) as [b1 E].
  { induction (rev b) as [|x l IH]; simpl.
    - rewrite Hc. now exists [].
    - destruct (JS.isSpace x); [exact IH|now exists (x :: l)]. }
  rewrite E. exists (rev b1). rewrite rev_app_distr. simpl.
  rewrite rev_involutive, <- app_assoc. reflexivity.
Qed.

(** A text whose trimmed form starts with a word still does after
    anything is put behind it. *)
Lemma trim_startsWith_app (l x q : str) c :
  JS.isSpace c = false ->
  JS.startsWith (JS.trim l) (q ++ [c]) = true ->
  JS.startsWith (JS.trim (l ++ x)) (q ++ [c]) = true.
Proof.
  intros Hc H. unfold JS.trim in *.
  apply Bounds.startsWith_inv in H as [r H].
  destruct (trimEnd_prefix (JS.trimStart l)) as [w E]. rewrite H in E.
  rewrite trimStart_app by (rewrite E; destruct q; discriminate).
  rewrite E, <- !app_assoc. simpl.
  destruct (trimEnd_keeps q c (r ++ w ++ x) Hc) as [b' ->].
  replace (q ++ c :: b') with ((q ++ [c]) ++ b') by (rewrite <- app_assoc; reflexivity).
  apply startsWith_app.
Qed.

Lemma trim_incl (s : str) c : In c (JS.trim s) -> In c s.
Proof.
  unfold JS.trim. intros H.
  destruct (trimStart_suffix s) as [w E]. rewrite E. apply in_or_app. right.
  destruct (trimEnd_prefix (JS.trimStart s)) as [w' E']. rewrite E'.
  apply in_or_app. now left.
Qed.

(** [split] and [join] undo each other. *)
Lemma join_split (s : str) : JS.join (js "\n") (JS.split nl s) = s.
Proof.
  induction s as [|c s IH]; [reflexivity|].
  simpl JS.split. destruct (N.eqb_spec c nl) as [->|Hc].
  - destruct (split_cons nl s) as (l & ls & E). rewrite E in *.
    change (JS.join (js "\n") ([] :: l :: ls)) with ([] ++ js "\n" ++ JS.join (js "\n") (l :: ls)).
    rewrite IH. reflexivity.
  - destruct (split_cons nl s) as (l & ls & E). rewrite E in *.
    destruct ls as [|l' ls].
    + simpl in *. now rewrite IH.
    + change (JS.join (js "\n") ((c :: l) :: l' :: ls))
        with ((c :: l) ++ js "\n" ++ JS.join (js "\n") (l' :: ls)).
      change (JS.join (js "\n") (l :: l' :: ls))
        with (l ++ js "\n" ++ JS.join (js "\n") (l' :: ls)) in IH.
      simpl. now rewrite <- IH.
Qed.

Lemma split_join (ls : list str) :
  ls <> [] -> (forall l, In l ls -> ~ In nl l) -> JS.split nl (JS.join (js "\n") ls) = ls.
Proof.
  induction ls as [|l ls IH]; intros Hne H; [congruence|].
  destruct ls as [|l' ls].
  - simpl. apply split_none. apply H. now left.
  - change (JS.join (js "\n") (l :: l' :: ls))
      with (l ++ nl :: JS.join (js "\n") (l' :: ls)).
    rewrite split_app, split_none by (apply H; now left).
    simpl. f_equal. apply IH; [discriminate|]. intros x Hx. apply H. now right.
Qed.

Lemma In_split_join_inv (ls : list str) (l : str) :
  (forall x, In x ls -> ~ In nl x) ->
  In l (JS.split nl (JS.join (js "\n") ls)) -> In l ls \/ (ls = [] /\ l = []).
Proof.
  intros H Hin. destruct ls as [|a ls].
  - simpl in Hin. destruct Hin as [<-|[]]. now right.
  - left. rewrite split_join in Hin; [exact Hin|discriminate|exact H].
Qed.

(** Lines written one after the other, each closed by a line feed. *)
Lemma In_split_lines (A : Type) (f : A -> str) (xs : list A) (x : A) (rest : str) :
  In x xs -> ~ In nl (f x) ->
  In (f x) (JS.split nl (concat (map (fun y => f y ++ js "\n") xs) ++ rest)).
Proof.
  intros Hx Hnl. induction xs as [|y xs IH]; [destruct Hx|].
  cbn [map concat]. rewrite <- !app_assoc.
  change (f y ++ js "\n" ++ concat (map (fun y0 => f y0 ++ js "\n") xs) ++ rest)
    with (f y ++ nl :: (concat (map (fun y0 => f y0 ++ js "\n") xs) ++ rest)).
  rewrite split_app. apply in_or_app.
  destruct Hx as [->|Hx]; [left; rewrite split_none by exact Hnl; now left|].
  right. now apply IH.
Qed.

Lemma split_lines_after (A : Type) (f : A -> str) (xs : list A) (l rest : str) :
  In l (JS.split nl rest) ->
  In l (JS.split nl (concat (map (fun y => f y ++ js "\n") xs) ++ rest)).
Proof.
  intros H. induction xs as [|y xs IH]; [exact H|].
  cbn [map concat]. rewrite <- !app_assoc.
  change (f y ++ js "\n" ++ concat (map (fun y0 => f y0 ++ js "\n") xs) ++ rest)
    with (f y ++ nl :: (concat (map (fun y0 => f y0 ++ js "\n") xs) ++ rest)).
  rewrite split_app. apply in_or_app. now right.
Qed.

Lemma includes_skipn (s sub : str) : forall i,
  JS.startsWith (skipn i s) sub = true -> sub <> [] -> JS.includes s sub = true.
Proof.
  induction s as [|c s IH]; intros i H Hne.
  - rewrite skipn_nil in H. destruct sub; [congruence|discriminate].
  - destruct i as [|i]; simpl in H |- *.
    + simpl in H. rewrite H. reflexivity.
    + rewrite (IH i H Hne). apply orb_true_r.
Qed.

(** ** The declaration at the head of a document *)

Module Declared.

Lemma isDeclaration_app (l x : str) : isDeclaration l = true -> isDeclaration (l ++ x) = true.
Proof.
  unfold isDeclaration. intros H. apply orb_prop in H as [H|H]; apply orb_true_iff; [left|right].
  - apply (trim_startsWith_app l x (js "grap") (ch "h")); [reflexivity|exact H].
  - apply (trim_startsWith_app l x (js "flowchar") (ch "t")); [reflexivity|exact H].
Qed.

Lemma processDefinition_isDeclaration (definition : str) :
  isDeclaration (processDefinition definition) = true.
Proof.
  unfold processDefinition. destruct (isBlank definition); [reflexivity|]. cbv zeta.
  match goal with
  | |- isDeclaration (if negb (JS.startsWith (JS.trim ?p) _) && _ then _ else _) = _ =>
      generalize p; intros processed
  end.
  destruct (JS.startsWith (JS.trim processed) (js "graph")) eqn:Eg.
  - simpl. unfold isDeclaration. now rewrite Eg.
  - destruct (JS.startsWith (JS.trim processed) (js "flowchart")) eqn:Ef.
    + simpl. unfold isDeclaration. rewrite Ef. apply orb_true_r.
    + simpl negb. cbn [andb].
      apply (isDeclaration_app (js "graph") (js " TD\n" ++ processed)). reflexivity.
Qed.

Lemma join_isDeclaration (l : str) (ls : list str) x :
  isDeclaration l = true -> isDeclaration (JS.join (js "\n") (l :: ls) ++ x) = true.
Proof.
  intros H. destruct ls as [|l' ls].
  - simpl. now apply isDeclaration_app.
  - change (JS.join (js "\n") (l :: l' :: ls)) with (l ++ js "\n" ++ JS.join (js "\n") (l' :: ls)).
    rewrite <- !app_assoc. now apply isDeclaration_app.
Qed.

Lemma validateAndFixDiagram_isDeclaration (diagram : str) :
  isDeclaration (validateAndFixDiagram diagram) = true.
Proof.
  unfold validateAndFixDiagram, validateAndFixDiagramWith.
  destruct (isBlank diagram); [reflexivity|].
  unfold validateAndFixDiagram_body. cbv zeta.
  destruct (definedNodes (fixPass (JS.split nl diagram))) as [|n0 ns0]; [reflexivity|].
  cbn [tryCatch].
  destruct (filter isDeclaration (JS.split nl diagram)) as [|h hs] eqn:E.
  - cbn [JS.join]. apply (isDeclaration_app (js "graph TD")). reflexivity.
  - assert (isDeclaration h = true) as Hl.
    { assert (In h (filter isDeclaration (JS.split nl diagram))) as Hin by (rewrite E; now left).
      now apply filter_In in Hin. }
    assert (JS.join (js "\n") (h :: hs) <> []) as Hne.
    { destruct h as [|c h0]; [discriminate Hl|]. destruct hs; simpl; discriminate. }
    destruct (JS.join (js "\n") (h :: hs)) as [|c j] eqn:Ej; [congruence|].
    rewrite <- Ej. now apply join_isDeclaration.
Qed.

(** X1.  Whatever the definition, the text [processDefinition] returns
    starts, once trimmed, with [graph] or with [flowchart]: the first
    tier never hands the engine a text without a declaration. *)
Theorem processDefinition_starts_with_type (definition : str) :
  JS.startsWith (JS.trim (processDefinition definition)) (js "graph") = true
  \/ JS.startsWith (JS.trim (processDefinition definition)) (js "flowchart") = true.
Proof.
  apply orb_prop. apply (processDefinition_isDeclaration definition).
Qed.

(** X2.  The validator's output starts, once trimmed, with [graph] or
    [flowchart] on each of its return paths, so the first step of
    [ensurePerfectDiagram], which puts [graph TD] in front of a text
    without a diagram type, never changes what the validator returned. *)
Theorem validator_starts_with_type (diagram : str) :
  (JS.startsWith (JS.trim (validateAndFixDiagram diagram)) (js "graph") = true
   \/ JS.startsWith (JS.trim (validateAndFixDiagram diagram)) (js "flowchart") = true)
  /\ ensureType (validateAndFixDiagram diagram) = validateAndFixDiagram diagram.
Proof.
  pose proof (validateAndFixDiagram_isDeclaration diagram) as H.
  split; [now apply orb_prop|].
  unfold isDeclaration in H. unfold ensureType, diagramTypes. cbn [existsb].
  apply orb_prop in H as [-> | ->]; [reflexivity|]. now rewrite orb_true_r.
Qed.

(** X3.  [createFallbackDiagram] returns a text that starts, once
    trimmed, with [graph] or [flowchart]: for a blank input, when the
    extraction finds nodes and when it finds none. *)
Theorem createFallbackDiagram_starts_with_type (originalDiagram : str) :
  JS.startsWith (JS.trim (createFallbackDiagram originalDiagram)) (js "graph") = true
  \/ JS.startsWith (JS.trim (createFallbackDiagram originalDiagram)) (js "flowchart") = true.
Proof.
  apply orb_prop. change (isDeclaration (createFallbackDiagram originalDiagram) = true).
  unfold createFallbackDiagram, createFallbackDiagramWith.
  destruct (isBlank originalDiagram); [reflexivity|].
  unfold createFallbackDiagram_body. cbn [tryCatch].
  apply validateAndFixDiagram_isDeclaration.
Qed.

End Declared.

(** ** [fixMismatchedBrackets] *)

Module Brackets.

Lemma open_not_close c : isOpen c = true -> isClose c = false.
Proof.
  unfold isOpen, isClose. simpl.
  repeat match goal with |- context [(c =? ?k)%N] => destruct (N.eqb_spec c k); subst end;
    simpl; try reflexivity; try discriminate.
Qed.

(** The loop over the characters counts the occurrences of each bracket. *)
Lemma countBrackets_acc (line : str) : forall o0 c0,
  let res := fold_left
    (fun (counts : tally * tally) char =>
       let '(openBrackets, closeBrackets) := counts in
       if isOpen char then (bump openBrackets char, closeBrackets)
       else if isClose char then (openBrackets, bump closeBrackets char)
       else counts) line (o0, c0) in
  (forall d, isOpen d = true -> fst res d = o0 d + occ d line)
  /\ (forall d, isClose d = true -> snd res d = c0 d + occ d line).
Proof.
  induction line as [|x line IH]; intros o0 c0; cbn [fold_left].
  - split; intros d _; unfold occ; simpl; lia.
  - destruct (isOpen x) eqn:Ox; [|destruct (isClose x) eqn:Cx].
    + destruct (IH (bump o0 x) c0) as [A B]. split; intros d Hd.
      * rewrite (A d Hd). unfold bump, occ. simpl.
        destruct (N.eq_dec x d) as [->|Hn].
        -- rewrite N.eqb_refl. lia.
        -- destruct (N.eqb_spec d x); [congruence|lia].
      * rewrite (B d Hd). unfold occ. simpl.
        destruct (N.eq_dec x d) as [->|Hn]; [|lia].
        apply open_not_close in Ox. congruence.
    + destruct (IH o0 (bump c0 x)) as [A B]. split; intros d Hd.
      * rewrite (A d Hd). unfold occ. simpl.
        destruct (N.eq_dec x d) as [->|Hn]; [congruence|lia].
      * rewrite (B d Hd). unfold bump, occ. simpl.
        destruct (N.eq_dec x d) as [->|Hn].
        -- rewrite N.eqb_refl. lia.
        -- destruct (N.eqb_spec d x); [congruence|lia].
    + destruct (IH o0 c0) as [A B]. split; intros d Hd.
      * rewrite (A d Hd). unfold occ. simpl.
        destruct (N.eq_dec x d) as [->|Hn]; [congruence|lia].
      * rewrite (B d Hd). unfold occ. simpl.
        destruct (N.eq_dec x d) as [->|Hn]; [congruence|lia].
Qed.

Lemma countBrackets_spec (line : str) :
  (forall d, isOpen d = true -> fst (countBrackets line) d = occ d line)
  /\ (forall d, isClose d = true -> snd (countBrackets line) d = occ d line).
Proof.
  destruct (countBrackets_acc line (fun _ => 0) (fun _ => 0)) as [A B].
  split; intros d Hd; [exact (A d Hd)|exact (B d Hd)].
Qed.

Lemma addClosers_app o c (l : str) pair :
  addClosers o c l pair = l ++ JS.repeat [snd pair] (o (fst pair) - c (snd pair)).
Proof.
  destruct pair as [op cl]. unfold addClosers. cbn [fst snd].
  destruct (Nat.ltb_spec (c cl) (o op)) as [H|H]; [reflexivity|].
  replace (o op - c cl) with 0 by lia. simpl. now rewrite app_nil_r.
Qed.

(** What one line becomes. *)
Lemma fixBracketsLine_content (line : str) :
  isHeaderLine line = false -> fixBracketsLine line = line ++ closersOf line.
Proof.
  intros H. unfold isHeaderLine in H. unfold fixBracketsLine.
  destruct (JS.startsWith (JS.trim line) (js "graph"));
    destruct (JS.startsWith (JS.trim line) (js "flowchart"));
    destruct (JS.startsWith (JS.trim line) (js "%")); try discriminate H.
  cbn [orb]. destruct (countBrackets_spec line) as [A B].
  destruct (countBrackets line) as [o c]. cbn [fst snd] in A, B.
  unfold bracketPairs, closersOf. cbn [fold_left map concat bracketPairs].
  rewrite !addClosers_app. cbn [fst snd].
  rewrite !A, !B by reflexivity. rewrite app_nil_r, <- !app_assoc. reflexivity.
Qed.

Lemma fixBracketsLine_header (line : str) :
  isHeaderLine line = true -> fixBracketsLine line = line.
Proof.
  intros H. unfold isHeaderLine in H. unfold fixBracketsLine.
  destruct (JS.startsWith (JS.trim line) (js "graph"));
    destruct (JS.startsWith (JS.trim line) (js "flowchart"));
    destruct (JS.startsWith (JS.trim line) (js "%")); try discriminate H; reflexivity.
Qed.

Lemma occ_repeat c d n : occ c (JS.repeat [d] n) = if N.eq_dec d c then n else 0.
Proof.
  induction n as [|n IH]; simpl; [now destruct (N.eq_dec d c)|].
  unfold occ in *. simpl. rewrite IH. now destruct (N.eq_dec d c).
Qed.

Lemma repeat_close d n :
  isClose d = true -> Forall (fun x => isClose x = true) (JS.repeat [d] n).
Proof.
  intros H. induction n as [|n IH]; [constructor|].
  cbn [JS.repeat app]. now constructor.
Qed.

Lemma closersOf_close (line : str) : Forall (fun x => isClose x = true) (closersOf line).
Proof.
  unfold closersOf. cbn [bracketPairs map concat fst snd].
  rewrite app_nil_r.
  apply Forall_app; split; [now apply repeat_close|].
  apply Forall_app; split; [now apply repeat_close|].
  apply Forall_app; split; now apply repeat_close.
Qed.

Lemma occ_app c (a b : str) : occ c (a ++ b) = occ c a + occ c b.
Proof. apply count_occ_app. Qed.

(** A line with its missing brackets appended lacks none. *)
Lemma fixed_balanced (line : str) : balanced (line ++ closersOf line).
Proof.
  intros pair Hp. unfold closersOf. cbn [bracketPairs map concat fst snd].
  rewrite !occ_app, !occ_repeat.
  simpl in Hp. destruct Hp as [<-|[<-|[<-|[<-|[]]]]]; cbn [fst snd];
    repeat match goal with |- context [N.eq_dec ?a ?b] =>
      destruct (N.eq_dec a b) as [E|E]; [try discriminate E|try (exfalso; apply E; reflexivity)] end;
    simpl; lia.
Qed.

Lemma balanced_closersOf (line : str) : balanced line -> closersOf line = [].
Proof.
  intros H. unfold closersOf. cbn [bracketPairs map concat fst snd].
  pose proof (H (ch "(", ch ")") (or_introl eq_refl)) as H1.
  pose proof (H (ch "[", ch "]") (or_intror (or_introl eq_refl))) as H2.
  pose proof (H (ch "{", ch "}") (or_intror (or_intror (or_introl eq_refl)))) as H3.
  pose proof (H (ch "<", ch ">")
                (or_intror (or_intror (or_intror (or_introl eq_refl))))) as H4.
  cbn [fst snd] in H1, H2, H3, H4.
  replace (occ (ch "(") line - occ (ch ")") line) with 0 by lia.
  replace (occ (ch "[") line - occ (ch "]") line) with 0 by lia.
  replace (occ (ch "{") line - occ (ch "}") line) with 0 by lia.
  replace (occ (ch "<") line - occ (ch ">") line) with 0 by lia.
  reflexivity.
Qed.

Lemma fixBracketsLine_shape (line : str) :
  exists c, fixBracketsLine line = line ++ c /\ Forall (fun x => isClose x = true) c
            /\ (isHeaderLine line = true -> c = []).
Proof.
  destruct (isHeaderLine line) eqn:H.
  - exists []. rewrite app_nil_r. repeat split; auto using fixBracketsLine_header.
  - exists (closersOf line). repeat split; auto using fixBracketsLine_content, closersOf_close.
    discriminate.
Qed.

Lemma fixBracketsLine_no_nl (line : str) : ~ In nl line -> ~ In nl (fixBracketsLine line).
Proof.
  intros H. destruct (fixBracketsLine_shape line) as (c & -> & F & _).
  intros Hin. apply in_app_or in Hin as [Hin|Hin]; [auto|].
  rewrite Forall_forall in F. apply F in Hin. discriminate Hin.
Qed.

Lemma fixBracketsLine_twice (line : str) :
  fixBracketsLine (fixBracketsLine line) = fixBracketsLine line.
Proof.
  destruct (isHeaderLine line) eqn:H.
  - now rewrite !(fixBracketsLine_header line H).
  - rewrite (fixBracketsLine_content line H).
    destruct (isHeaderLine (line ++ closersOf line)) eqn:H'.
    + now apply fixBracketsLine_header.
    + rewrite (fixBracketsLine_content _ H').
      rewrite (balanced_closersOf _ (fixed_balanced line)). apply app_nil_r.
Qed.

(** The lines of the output are the lines of the input, each fixed. *)
Lemma fixMismatchedBrackets_lines (text : str) :
  JS.split nl (fixMismatchedBrackets text) = map fixBracketsLine (JS.split nl text).
Proof.
  unfold fixMismatchedBrackets. apply split_join.
  - destruct (split_cons nl text) as (l & ls & E). rewrite E. discriminate.
  - intros l Hl. apply in_map_iff in Hl as (l0 & <- & Hl0).
    apply fixBracketsLine_no_nl. eapply split_pieces; eauto.
Qed.

Lemma fixMismatchedBrackets_line_balanced (text line : str) :
  In line (JS.split nl (fixMismatchedBrackets text)) ->
  isHeaderLine line = false -> balanced line.
Proof.
  intros Hl Hh. rewrite fixMismatchedBrackets_lines in Hl.
  apply in_map_iff in Hl as (l0 & <- & _).
  destruct (isHeaderLine l0) eqn:H0.
  - rewrite (fixBracketsLine_header l0 H0) in Hh. congruence.
  - rewrite (fixBracketsLine_content l0 H0). apply fixed_balanced.
Qed.

(** X4.  After [fixMismatchedBrackets], on every line that is neither a
    comment nor a declaration, each of the four bracket families has at
    least as many closing as opening brackets. *)
Theorem fixMismatchedBrackets_balanced (text line : str) (pair : char * char) :
  In line (JS.split nl (fixMismatchedBrackets text)) ->
  isHeaderLine line = false ->
  In pair bracketPairs ->
  count_occ N.eq_dec line (fst pair) <= count_occ N.eq_dec line (snd pair).
Proof.
  intros Hl Hh Hp. now apply (fixMismatchedBrackets_line_balanced text line Hl Hh).
Qed.

Lemma fixMismatchedBrackets_balanced_witness :
  count_occ N.eq_dec (js "A[x --> B((y))]") (ch "(")
  <= count_occ N.eq_dec (js "A[x --> B((y))]") (ch ")").
Proof.
  apply (fixMismatchedBrackets_balanced (js "graph TD (\nA[x --> B((y")
           (js "A[x --> B((y))]") (ch "(", ch ")")).
  - vm_compute. right. left. reflexivity.
  - reflexivity.
  - left. reflexivity.
Defined.

(** X5.  [fixMismatchedBrackets] is idempotent: a second pass finds every
    bracket closed and adds nothing. *)
Theorem fixMismatchedBrackets_idempotent (text : str) :
  fixMismatchedBrackets (fixMismatchedBrackets text) = fixMismatchedBrackets text.
Proof.
  unfold fixMismatchedBrackets at 1. rewrite fixMismatchedBrackets_lines.
  unfold fixMismatchedBrackets. f_equal. rewrite map_map.
  apply map_ext. intros l. apply fixBracketsLine_twice.
Qed.

(** X6.  [fixMismatchedBrackets] only appends: the output has the lines
    of the input in their order, each followed by closing brackets and
    nothing else; comment and declaration lines get none.  A text in
    which no such line lacks a closing bracket is returned as it is, so
    closing brackets without an opening one are left alone. *)
Theorem fixMismatchedBrackets_appends (text : str) :
  Forall2 (fun line fixedLine =>
             exists closers, fixedLine = line ++ closers
                             /\ Forall (fun c => isClose c = true) closers
                             /\ (isHeaderLine line = true -> closers = []))
    (JS.split nl text) (JS.split nl (fixMismatchedBrackets text))
  /\ ((forall line pair, In line (JS.split nl text) -> isHeaderLine line = false ->
         In pair bracketPairs ->
         count_occ N.eq_dec line (fst pair) <= count_occ N.eq_dec line (snd pair)) ->
      fixMismatchedBrackets text = text).
Proof.
  split.
  - rewrite fixMismatchedBrackets_lines.
    induction (JS.split nl text) as [|l ls IH]; constructor; [|exact IH].
    destruct (fixBracketsLine_shape l) as (c & E & F & H). exists c. auto.
  - intros H. unfold fixMismatchedBrackets.
    rewrite <- (join_split text) at 2. f_equal.
    rewrite <- (map_id (JS.split nl text)) at 2.
    apply map_ext_in. intros l Hl.
    destruct (isHeaderLine l) eqn:Hh; [now apply fixBracketsLine_header|].
    rewrite (fixBracketsLine_content l Hh), balanced_closersOf; [apply app_nil_r|].
    intros pair Hp. now apply H.
Qed.

Lemma fixMismatchedBrackets_appends_witness :
  fixMismatchedBrackets (js "graph TD\nA --> B]") = js "graph TD\nA --> B]".
Proof.
  apply (proj2 (fixMismatchedBrackets_appends (js "graph TD\nA --> B]"))).
  intros line pair Hl Hh Hp. vm_compute in Hl.
  destruct Hl as [<-|[<-|[]]]; [discriminate Hh|].
  simpl in Hp. destruct Hp as [<-|[<-|[<-|[<-|[]]]]]; vm_compute; lia.
Defined.

End Brackets.

(** ** The lines of the validator's output *)

Module Lines.

Lemma isDeclaration_isSkipped (line : str) : isDeclaration line = true -> isSkipped line = true.
Proof.
  unfold isDeclaration, isSkipped. intros H.
  apply orb_prop in H as [-> | ->]; [now rewrite orb_true_r|].
  rewrite !orb_true_r. reflexivity.
Qed.

(** The second pass writes kept input lines and definition lines of
    captured nodes, nothing else. *)
Lemma fixConnection_written all st r line :
  In line all -> isSkipped line = false -> In r (execAll connRegex (JS.trim line)) ->
  written all st -> written all (fixConnection st r).
Proof.
  intros Hl Hs Hr W. unfold fixConnection. cbv zeta.
  assert (captured all (groupOr 1 r)) as C1 by (exists line, r; auto).
  assert (captured all (groupOr 2 r)) as C2 by (exists line, r; auto).
  destruct (JS.has (definedNodes st) (groupOr 1 r)); cbn [negb];
    match goal with
    | |- context [JS.has ?d (groupOr 2 r)] => destruct (JS.has d (groupOr 2 r))
    end; cbn [negb]; intros l Hin; cbn [validatedLines] in Hin;
    repeat (apply in_app_or in Hin as [Hin|Hin]);
    try (now apply W);
    simpl in Hin; destruct Hin as [<-|[]]; right; eauto.
Qed.

Lemma fixConnections_written all line rs : forall st,
  In line all -> isSkipped line = false ->
  (forall r, In r rs -> In r (execAll connRegex (JS.trim line))) ->
  written all st -> written all (fold_left fixConnection rs st).
Proof.
  induction rs as [|r rs IH]; intros st Hl Hs Hr W; simpl; [exact W|].
  apply IH; auto.
  - intros r0 H0. apply Hr. now right.
  - eapply fixConnection_written; eauto. apply Hr. now left.
Qed.

Lemma fixLine_written all st line :
  In line all -> written all st -> written all (fixLine st line).
Proof.
  intros Hl W. destruct (isSkipped line) eqn:Es.
  - rewrite Validator.fixLine_skipped by exact Es. intros l Hin.
    cbn [validatedLines] in Hin. apply in_app_or in Hin as [Hin|[<-|[]]]; [auto|].
    left. split; [exact Hl|]. now left.
  - rewrite Validator.fixLine_content by exact Es. cbv zeta.
    pose proof (fixConnections_written all line (execAll connRegex (JS.trim line)) st
                  Hl Es (fun r H => H) W) as W'.
    destruct (execAll connRegex (JS.trim line)) as [|r0 rs] eqn:Ec.
    + destruct ((0 <? length (JS.trim line)) && test nodeDefRegex (JS.trim line)) eqn:Et;
        [|exact W].
      intros l Hin. cbn [validatedLines] in Hin.
      apply in_app_or in Hin as [Hin|[<-|[]]]; [auto|].
      left. split; [exact Hl|]. right. right. exact Et.
    + intros l Hin. cbn [validatedLines] in Hin.
      apply in_app_or in Hin as [Hin|[<-|[]]]; [auto|].
      left. split; [exact Hl|]. right. left. rewrite Ec. discriminate.
Qed.

Lemma fixLines_written all lines : forall st,
  incl lines all -> written all st -> written all (fold_left fixLine lines st).
Proof.
  induction lines as [|l0 lines IH]; intros st Hi W; simpl; [exact W|].
  apply IH.
  - intros x Hx. apply Hi. now right.
  - apply fixLine_written; [apply Hi; now left|exact W].
Qed.

Lemma fixPass_written (diagram : str) :
  written (JS.split nl diagram) (fixPass (JS.split nl diagram)).
Proof.
  unfold fixPass. apply fixLines_written; [apply incl_refl|]. intros l [].
Qed.

(** The flag [hasValidConnection] is raised by a match and never lowered. *)
Lemma fixConnections_flag rs : forall st,
  hasValidConnection (fold_left fixConnection rs st)
  = match rs with [] => hasValidConnection st | _ :: _ => true end.
Proof.
  induction rs as [|r rs IH]; intros st; [reflexivity|].
  simpl fold_left. rewrite IH. destruct rs; [|reflexivity].
  unfold fixConnection. cbv zeta.
  destruct (JS.has (definedNodes st) (groupOr 1 r)); cbn [negb];
    match goal with
    | |- context [JS.has ?d (groupOr 2 r)] => destruct (JS.has d (groupOr 2 r))
    end; reflexivity.
Qed.

Lemma fixLine_flag st line :
  hasValidConnection (fixLine st line)
  = hasValidConnection st
    || negb (isSkipped line)
       && match execAll connRegex (JS.trim line) with [] => false | _ => true end.
Proof.
  destruct (isSkipped line) eqn:Es.
  - rewrite Validator.fixLine_skipped by exact Es. cbn [hasValidConnection negb andb].
    now rewrite orb_false_r.
  - rewrite Validator.fixLine_content by exact Es. cbv zeta.
    pose proof (fixConnections_flag (execAll connRegex (JS.trim line)) st) as F.
    destruct (execAll connRegex (JS.trim line)) as [|r0 rs].
    + cbn [negb andb]. rewrite orb_false_r.
      now destruct ((0 <? length (JS.trim line)) && test nodeDefRegex (JS.trim line)).
    + cbn [hasValidConnection]. rewrite F. cbn [negb andb]. now rewrite orb_true_r.
Qed.

Lemma fixLines_flag lines : forall st,
  hasValidConnection (fold_left fixLine lines st) = false ->
  hasValidConnection st = false /\ noConnection lines.
Proof.
  induction lines as [|l0 lines IH]; intros st H; simpl in H.
  - split; [exact H|]. intros line [].
  - apply IH in H as [H N]. rewrite fixLine_flag in H.
    apply orb_false_elim in H as [H0 H1]. split; [exact H0|].
    intros line [<-|Hl] Hs; [|now apply N].
    rewrite Hs in H1. cbn [negb andb] in H1.
    destruct (execAll connRegex (JS.trim l0)); [reflexivity|discriminate].
Qed.

(** A line is pushed whenever the flag is raised. *)
Lemma fixLine_pushed st line :
  (hasValidConnection st = true -> validatedLines st <> []) ->
  hasValidConnection (fixLine st line) = true -> validatedLines (fixLine st line) <> [].
Proof.
  intros H. destruct (isSkipped line) eqn:Es.
  - rewrite Validator.fixLine_skipped by exact Es. intros _. cbn [validatedLines].
    destruct (validatedLines st); discriminate.
  - rewrite Validator.fixLine_content by exact Es. cbv zeta.
    destruct (execAll connRegex (JS.trim line)) as [|r0 rs].
    + cbn [fold_left].
      destruct ((0 <? length (JS.trim line)) && test nodeDefRegex (JS.trim line));
        [|exact H].
      intros _. cbn [validatedLines]. destruct (validatedLines st); discriminate.
    + intros _. cbn [validatedLines].
      destruct (validatedLines (fold_left fixConnection (r0 :: rs) st)); discriminate.
Qed.

Lemma fixLines_pushed lines : forall st,
  (hasValidConnection st = true -> validatedLines st <> []) ->
  hasValidConnection (fold_left fixLine lines st) = true ->
  validatedLines (fold_left fixLine lines st) <> [].
Proof.
  induction lines as [|l0 lines IH]; intros st H; simpl; [exact H|].
  apply IH. now apply fixLine_pushed.
Qed.

(** Validated lines stay, and passed-through lines are validated. *)
Lemma fixLines_keeps lines : forall st l,
  In l (validatedLines st) -> In l (validatedLines (fold_left fixLine lines st)).
Proof.
  induction lines as [|l0 lines IH]; intros st l H; simpl; [exact H|].
  apply IH.
  assert (accounted (definedNodes st) st) as A by (intros n Hn; now left).
  destruct (Validator.fixLine_spec (definedNodes st) st l0 A) as (_ & [E _] & _).
  now apply E.
Qed.

Lemma fixLines_skipped lines : forall st line,
  In line lines -> isSkipped line = true ->
  In line (validatedLines (fold_left fixLine lines st)).
Proof.
  induction lines as [|l0 lines IH]; intros st line Hl Hs; [destruct Hl|].
  simpl. destruct Hl as [->|Hl]; [|now apply IH].
  apply fixLines_keeps. rewrite Validator.fixLine_skipped by exact Hs.
  cbn [validatedLines]. apply in_or_app. right. now left.
Qed.

(** Node ids hold no line feed. *)
Lemma captured_no_nl lines n : captured lines n -> ~ In nl n.
Proof.
  intros (line & r & _ & _ & Hr & [-> | ->]);
    now destruct (Connections.connRegex_ids _ _ Hr).
Qed.

Lemma nodeDefRegex_group st st' :
  Sem f0 (pattern nodeDefRegex) st st' ->
  exists g, Forall idc g /\ get_cap 1 (ms_caps st') = Some g.
Proof.
  unfold nodeDefRegex, rx, pattern. cbn [seq Sem].
  intros (m0 & _ & m1 & H1 & m2 & Hw & Hb).
  apply Connections.ident_group in H1 as (g & F & C).
  exists g. split; [exact F|].
  change (iter (Sem f0 ws) m1 m2) in Hw.
  rewrite (Connections.Sem_groupFree f0 bracketed eq_refl _ _ Hb).
  rewrite (Connections.Sem_groupFree f0 (Star ws) eq_refl _ _ Hw).
  rewrite C. reflexivity.
Qed.

Lemma nodeDefRegex_ids s r :
  In r (execAll nodeDefRegex s) -> ~ In nl (groupOr 1 r).
Proof.
  intros H. apply Connections.In_execAll in H as (st & st' & Hm & ->).
  apply Matching.matchAt_sound, nodeDefRegex_group in Hm as (g & F & C).
  unfold groupOr, group, result_of. cbn [m_caps]. rewrite C.
  now apply Connections.idc_no_nl.
Qed.

Lemma collectPass_no_nl lines n : In n (collectPass lines) -> ~ In nl n.
Proof.
  intros H. apply Validator.collectPass_found in H as (line & _ & _ & H).
  apply collectDefined_In in H as [[]|H].
  apply in_map_iff in H as (r & <- & Hr). eapply nodeDefRegex_ids; eauto.
Qed.

Lemma definitionLine_sub n : ~ In nl (definitionLine n) -> ~ In nl n.
Proof.
  intros H K. apply H. unfold definitionLine. apply in_or_app. right.
  apply in_or_app. now left.
Qed.

Lemma edgeLine_no_nl a b : ~ In nl a -> ~ In nl b -> ~ In nl (edgeLine a b).
Proof.
  intros Ha Hb K. unfold edgeLine in K.
  repeat (rewrite in_app_iff in K).
  destruct K as [K|[K|[K|K]]]; try (now apply Ha); try (now apply Hb);
    vm_compute in K; intuition discriminate.
Qed.

Lemma written_no_nl diagram st l :
  written (JS.split nl diagram) st -> In l (validatedLines st) -> ~ In nl l.
Proof.
  intros W H. apply W in H as [[H _]|(n & C & ->)].
  - now apply (split_pieces nl diagram).
  - apply Validator.definitionLine_no_nl. eapply captured_no_nl; eauto.
Qed.

Lemma fixPass_accounted (diagram : str) :
  accounted (collectPass (JS.split nl diagram)) (fixPass (JS.split nl diagram))
  /\ (forall n, In n (collectPass (JS.split nl diagram)) ->
        In n (definedNodes (fixPass (JS.split nl diagram))))
  /\ forall line, In line (JS.split nl diagram) -> isSkipped line = false ->
       (forall r, In r (execAll connRegex (JS.trim line)) ->
          In (groupOr 1 r) (definedNodes (fixPass (JS.split nl diagram))))
       /\ (forall n, In n (collectDefined [] (JS.trim line)) ->
             In line (validatedLines (fixPass (JS.split nl diagram)))).
Proof.
  assert (accounted (collectPass (JS.split nl diagram))
            (FixState [] (collectPass (JS.split nl diagram)) [] false)) as A0
      by (intros n Hn; now left).
  destruct (Validator.fixLines_spec _ (JS.split nl diagram) _ A0) as (A & [_ E] & P).
  split; [exact A|]. split; [exact E|]. intros line Hl Hs.
  destruct (P line Hl Hs) as [Pc Pd]. split; [|exact Pd].
  intros r Hr. now destruct (Pc r Hr) as (_ & G & _).
Qed.

Lemma defined_no_nl (diagram n : str) :
  In n (definedNodes (fixPass (JS.split nl diagram))) -> ~ In nl n.
Proof.
  intros H. destruct (fixPass_accounted diagram) as [A _]. destruct (A n H) as [Hf|Hl].
  - eapply collectPass_no_nl; eauto.
  - apply definitionLine_sub. eapply written_no_nl; [apply fixPass_written|exact Hl].
Qed.

(** What [ensureConnection] adds. *)
Lemma ensureConnection_cases st l :
  In l (ensureConnection st) ->
  In l (validatedLines st)
  \/ (hasValidConnection st = false
      /\ ((exists a b, In a (definedNodes st) /\ (In b (definedNodes st) \/ b = js "Unknown")
                       /\ l = edgeLine a b)
          \/ l = definitionLine (js "Unknown"))).
Proof.
  unfold ensureConnection. destruct (hasValidConnection st); cbn [negb]; [now left|].
  destruct (definedNodes st) as [|a [|b ds]]; intros H; [now left| |].
  - apply in_app_or in H as [H|[<-|[<-|[]]]]; [now left| |].
    + right. split; [reflexivity|]. left. exists a, (js "Unknown").
      split; [now left|]. split; [now right|reflexivity].
    + right. split; [reflexivity|]. now right.
  - apply in_app_or in H as [H|[<-|[]]]; [now left|].
    right. split; [reflexivity|]. left. exists a, b.
    split; [now left|]. split; [left; right; now left|reflexivity].
Qed.

Lemma ensureConnection_no_nl (diagram l : str) :
  In l (ensureConnection (fixPass (JS.split nl diagram))) -> ~ In nl l.
Proof.
  intros H. apply ensureConnection_cases in H as [H|[_ [(a & b & Ha & Hb & ->)| ->]]].
  - eapply written_no_nl; [apply fixPass_written|exact H].
  - apply edgeLine_no_nl; [now apply (defined_no_nl diagram)|].
    destruct Hb as [Hb| ->]; [now apply (defined_no_nl diagram)|].
    vm_compute. intuition discriminate.
  - vm_compute. intuition discriminate.
Qed.

Lemma ensureConnection_not_nil lines :
  definedNodes (fixPass lines) <> [] -> ensureConnection (fixPass lines) <> [].
Proof.
  intros Hd. unfold ensureConnection.
  destruct (hasValidConnection (fixPass lines)) eqn:Ef; cbn [negb].
  - unfold fixPass in *. apply fixLines_pushed; [discriminate|exact Ef].
  - destruct (definedNodes (fixPass lines)) as [|a [|b ds]]; [congruence| |];
      destruct (validatedLines (fixPass lines)); discriminate.
Qed.

Lemma no_nodes_noConnection (diagram : str) :
  definedNodes (fixPass (JS.split nl diagram)) = [] -> noConnection (JS.split nl diagram).
Proof.
  intros E line Hl Hs. destruct (fixPass_accounted diagram) as (_ & _ & P).
  destruct (execAll connRegex (JS.trim line)) as [|r rs] eqn:Er; [reflexivity|].
  destruct (P line Hl Hs) as [Pc _]. specialize (Pc r). rewrite Er, E in Pc.
  destruct Pc. now left.
Qed.

Lemma short_circuit (diagram : str) :
  isBlank diagram = false ->
  definedNodes (fixPass (JS.split nl diagram)) = [] ->
  validateAndFixDiagram diagram = js "graph TD\n    A[Repository] --> B[Components]".
Proof.
  intros Hb E. unfold validateAndFixDiagram, validateAndFixDiagramWith. rewrite Hb.
  unfold validateAndFixDiagram_body. cbv zeta. rewrite E. reflexivity.
Qed.

(** The output when the validator does not return early: the
    declaration lines, or [graph TD], and then the validated lines. *)
Lemma validator_output (diagram : str) :
  isBlank diagram = false ->
  definedNodes (fixPass (JS.split nl diagram)) <> [] ->
  JS.split nl (validateAndFixDiagram diagram)
  = match filter isDeclaration (JS.split nl diagram) with
    | [] => [js "graph TD"]
    | h :: hs => h :: hs
    end ++ JS.split nl (JS.join (js "\n") (ensureConnection (fixPass (JS.split nl diagram)))).
Proof.
  intros Hb Hne. unfold validateAndFixDiagram, validateAndFixDiagramWith.
  rewrite Hb. unfold validateAndFixDiagram_body. cbv zeta.
  destruct (definedNodes (fixPass (JS.split nl diagram))) as [|d ds] eqn:Ed; [congruence|].
  cbn [tryCatch].
  match goal with
  | |- JS.split nl (?h ++ js "\n" ++ ?b) = _ =>
      change (h ++ js "\n" ++ b) with (h ++ nl :: b)
  end.
  rewrite split_app. f_equal.
  destruct (filter isDeclaration (JS.split nl diagram)) as [|h hs] eqn:E; [reflexivity|].
  assert (forall x, In x (h :: hs) -> ~ In nl x) as Hnl.
  { intros x Hx. rewrite <- E in Hx. apply filter_In in Hx as [Hx _].
    now apply (split_pieces nl diagram). }
  assert (JS.join (js "\n") (h :: hs) <> []) as Hj.
  { assert (isDeclaration h = true) as Hh.
    { assert (In h (filter isDeclaration (JS.split nl diagram))) as Hin
          by (rewrite E; now left).
      now apply filter_In in Hin. }
    destruct h as [|c h0]; [discriminate Hh|]. destruct hs; simpl; discriminate. }
  destruct (JS.join (js "\n") (h :: hs)) as [|c j] eqn:Ej; [congruence|].
  rewrite <- Ej. apply split_join; [discriminate|exact Hnl].
Qed.

(** X7.  Every line of the validator's output for a diagram that is not
    blank is a line of the input that the second pass keeps (a
    passed-through line, a line with a connection or a line with a node
    definition), the line [graph TD], the definition line of a node
    captured by the connection pattern, or, only when no line of the
    input has a connection, a made-up edge line or [Unknown]'s
    definition line.  The validator writes nothing else. *)
Theorem validator_lines (diagram l : str) :
  isBlank diagram = false ->
  In l (JS.split nl (validateAndFixDiagram diagram)) ->
  (In l (JS.split nl diagram) /\ kept l)
  \/ l = js "graph TD"
  \/ (exists n, captured (JS.split nl diagram) n /\ l = definitionLine n)
  \/ (noConnection (JS.split nl diagram)
      /\ ((exists a b, l = edgeLine a b) \/ l = definitionLine (js "Unknown"))).
Proof.
  intros Hb Hin.
  destruct (definedNodes (fixPass (JS.split nl diagram))) as [|d ds] eqn:Ed.
  - rewrite (short_circuit diagram Hb Ed) in Hin.
    vm_compute in Hin. destruct Hin as [<-|[<-|[]]].
    + right. now left.
    + right. right. right. split; [now apply no_nodes_noConnection|].
      left. exists (js "A[Repository]"), (js "B[Components]"). reflexivity.
  - rewrite validator_output in Hin by (try exact Hb; rewrite Ed; discriminate).
    apply in_app_or in Hin as [Hin|Hin].
    + destruct (filter isDeclaration (JS.split nl diagram)) as [|h hs] eqn:Ef.
      * destruct Hin as [<-|[]]. right. now left.
      * left. rewrite <- Ef in Hin. apply filter_In in Hin as [Hin Hd].
        split; [exact Hin|]. left. now apply isDeclaration_isSkipped.
    + apply In_split_join_inv in Hin; [|apply ensureConnection_no_nl].
      destruct Hin as [Hin|[E _]].
      2:{ exfalso. apply (ensureConnection_not_nil (JS.split nl diagram)); [|exact E].
          rewrite Ed. discriminate. }
      apply ensureConnection_cases in Hin as [Hin|[Hf Hm]].
      * apply (fixPass_written diagram) in Hin as [Hin|Hin]; [now left|].
        right. right. now left.
      * right. right. right. split.
        -- unfold fixPass in Hf. now apply fixLines_flag in Hf.
        -- destruct Hm as [(a & b & _ & _ & ->)| ->]; [left; eauto|now right].
Qed.

Lemma validator_lines_witness :
  (In (js "    B[B]") (JS.split nl (js "B --> C")) /\ kept (js "    B[B]"))
  \/ js "    B[B]" = js "graph TD"
  \/ (exists n, captured (JS.split nl (js "B --> C")) n /\ js "    B[B]" = definitionLine n)
  \/ (noConnection (JS.split nl (js "B --> C"))
      /\ ((exists a b, js "    B[B]" = edgeLine a b)
          \/ js "    B[B]" = definitionLine (js "Unknown"))).
Proof.
  apply (validator_lines (js "B --> C") (js "    B[B]")); [reflexivity|].
  vm_compute. right. left. reflexivity.
Defined.

(** X8.  Unless the validator returns its two-node diagram, every
    declaration line of the input is in the output twice: once in the
    header it rebuilds from the declaration lines and once among the
    validated lines, where it was passed through. *)
Theorem validator_declaration_twice (diagram l : str) :
  isBlank diagram = false ->
  validateAndFixDiagram diagram <> js "graph TD\n    A[Repository] --> B[Components]" ->
  In l (JS.split nl diagram) -> isDeclaration l = true ->
  exists p q r, JS.split nl (validateAndFixDiagram diagram) = p ++ l :: q ++ l :: r.
Proof.
  intros Hb Hne Hl Hd.
  assert (definedNodes (fixPass (JS.split nl diagram)) <> []) as Hn
      by (intros E; exact (Hne (short_circuit diagram Hb E))).
  rewrite validator_output by assumption.
  assert (In l (filter isDeclaration (JS.split nl diagram))) as Hf
      by (apply filter_In; auto).
  destruct (filter isDeclaration (JS.split nl diagram)) as [|h hs] eqn:Ef; [destruct Hf|].
  apply in_split in Hf as (p & q1 & ->).
  assert (In l (JS.split nl (JS.join (js "\n")
                 (ensureConnection (fixPass (JS.split nl diagram)))))) as Hv.
  { apply In_split_join; [|now apply (split_pieces nl diagram)].
    apply Validator.ensureConnection_keeps. unfold fixPass.
    apply fixLines_skipped; [exact Hl|now apply isDeclaration_isSkipped]. }
  apply in_split in Hv as (q2 & r & ->).
  exists p, (q1 ++ q2), r. rewrite <- !app_assoc. reflexivity.
Qed.

Lemma validator_declaration_twice_witness :
  exists p q r,
    JS.split nl (validateAndFixDiagram (js "graph LR\nA[a] --> B[b]"))
    = p ++ js "graph LR" :: q ++ js "graph LR" :: r.
Proof.
  apply validator_declaration_twice.
  - reflexivity.
  - vm_compute. discriminate.
  - vm_compute. left. reflexivity.
  - reflexivity.
Defined.

Lemma collectPass_fold_none lines : forall acc,
  (forall line, In line lines -> isSkipped line = false ->
     execAll nodeDefRegex (JS.trim line) = []) ->
  fold_left (fun definedNodes line =>
               if isSkipped line then definedNodes
               else collectDefined definedNodes (JS.trim line)) lines acc = acc.
Proof.
  induction lines as [|l0 lines IH]; intros acc H; [reflexivity|]. simpl.
  rewrite IH by (intros line Hl; apply H; now right).
  destruct (isSkipped l0) eqn:Es; [reflexivity|].
  unfold collectDefined. now rewrite (H l0 (or_introl eq_refl) Es).
Qed.

Lemma fixLines_no_nodes lines : forall st,
  noConnection lines ->
  definedNodes (fold_left fixLine lines st) = definedNodes st.
Proof.
  induction lines as [|l0 lines IH]; intros st H; [reflexivity|]. simpl.
  rewrite IH by (intros line Hl; apply H; now right).
  destruct (isSkipped l0) eqn:Es.
  - now rewrite Validator.fixLine_skipped.
  - rewrite Validator.fixLine_content by exact Es. cbv zeta.
    rewrite (H l0 (or_introl eq_refl) Es). simpl.
    now destruct ((0 <? length (JS.trim l0)) && test nodeDefRegex (JS.trim l0)).
Qed.

(** X9.  When no line of a diagram that is not blank, apart from those
    passed through, has a node definition or a connection, the validator
    returns its two-node diagram and nothing of the input, not even its
    declaration and comment lines. *)
Theorem validator_no_nodes (diagram : str) :
  isBlank diagram = false ->
  (forall line, In line (JS.split nl diagram) -> isSkipped line = false ->
     execAll nodeDefRegex (JS.trim line) = []
     /\ execAll connRegex (JS.trim line) = []) ->
  validateAndFixDiagram diagram = js "graph TD\n    A[Repository] --> B[Components]".
Proof.
  intros Hb H. apply (short_circuit diagram Hb). unfold fixPass.
  rewrite fixLines_no_nodes by (intros line Hl Hs; now apply H).
  cbn [definedNodes]. unfold collectPass.
  apply collectPass_fold_none. intros line Hl Hs. now apply H.
Qed.

Lemma validator_no_nodes_witness :
  validateAndFixDiagram (js "hello world\ngraph LR\n% note")
  = js "graph TD\n    A[Repository] --> B[Components]".
Proof.
  apply validator_no_nodes; [reflexivity|].
  intros line Hl Hs. vm_compute in Hl.
  destruct Hl as [<-|[<-|[<-|[]]]]; try discriminate Hs; split; reflexivity.
Defined.

Lemma collectPass_fold_In lines (n : str) : forall acc,
  In n acc \/ (exists line, In line lines /\ isSkipped line = false
                            /\ In n (collectDefined [] (JS.trim line))) ->
  In n (fold_left (fun definedNodes line =>
                     if isSkipped line then definedNodes
                     else collectDefined definedNodes (JS.trim line)) lines acc).
Proof.
  induction lines as [|l0 lines IH]; intros acc H; simpl.
  - destruct H as [H|(line & [] & _)]. exact H.
  - apply IH. destruct H as [H|(line & [<-|Hl] & Hs & Hn)].
    + left. destruct (isSkipped l0); [exact H|]. apply collectDefined_In. now left.
    + left. rewrite Hs. apply collectDefined_In. right.
      apply collectDefined_In in Hn as [[]|Hn]. exact Hn.
    + right. exists line. auto.
Qed.

(** X10.  The validator loses no node definition: a line of the input
    that is not passed through and on which the definition pattern finds
    a node is a line of the output.  A passed-through line (declaration,
    comment, subgraph, end) is a line of the output whenever the
    validator does not return its two-node diagram. *)
Theorem validator_keeps (diagram line : str) :
  isBlank diagram = false ->
  In line (JS.split nl diagram) ->
  (isSkipped line = false /\ collectDefined [] (JS.trim line) <> [])
  \/ (isSkipped line = true
      /\ validateAndFixDiagram diagram <> js "graph TD\n    A[Repository] --> B[Components]") ->
  In line (JS.split nl (validateAndFixDiagram diagram)).
Proof.
  intros Hb Hl H.
  assert (definedNodes (fixPass (JS.split nl diagram)) <> []
          /\ In line (validatedLines (fixPass (JS.split nl diagram)))) as [Hn Hv].
  { destruct H as [[Hs Hd]|[Hs Hne]].
    - destruct (collectDefined [] (JS.trim line)) as [|n ns] eqn:E; [congruence|].
      assert (In n (collectDefined [] (JS.trim line))) as Hin by (rewrite E; now left).
      destruct (fixPass_accounted diagram) as (_ & Ed & P). split.
      + intros K.
        assert (In n (definedNodes (fixPass (JS.split nl diagram)))) as Hd'.
        { apply Ed. unfold collectPass. apply collectPass_fold_In.
          right. exists line. auto. }
        rewrite K in Hd'. destruct Hd'.
      + destruct (P line Hl Hs) as [_ Pd]. eapply Pd. exact Hin.
    - split.
      + intros E. exact (Hne (short_circuit diagram Hb E)).
      + unfold fixPass. now apply fixLines_skipped. }
  rewrite validator_output by assumption.
  apply in_or_app. right.
  apply In_split_join; [|now apply (split_pieces nl diagram)].
  now apply Validator.ensureConnection_keeps.
Qed.

Lemma validator_keeps_witness :
  In (js "A[a]") (JS.split nl (validateAndFixDiagram (js "%% note\nA[a]\nhello")))
  /\ In (js "%% note") (JS.split nl (validateAndFixDiagram (js "%% note\nA[a]\nhello"))).
Proof.
  split; apply validator_keeps; try reflexivity.
  - vm_compute. right. left. reflexivity.
  - left. split; [reflexivity|]. vm_compute. discriminate.
  - vm_compute. left. reflexivity.
  - right. split; [reflexivity|]. vm_compute. discriminate.
Defined.

End Lines.

(** ** What the extractions collect *)

Module Extraction.

Lemma add_NoDup (s : list str) (x : str) : NoDup s -> NoDup (JS.add s x).
Proof.
  intros H. unfold JS.add. destruct (JS.has s x) eqn:E; [exact H|].
  apply NoDup_app; [exact H|constructor; [intros []|constructor]|].
  intros y Hy [<-|[]]. apply has_In in Hy. congruence.
Qed.

Lemma closed_add nodes connections (x : str) :
  x <> [] -> closed nodes connections -> closed (JS.add nodes x) connections.
Proof.
  intros Hx (N & E & C). split; [now apply add_NoDup|]. split.
  - intros n Hn. apply add_In in Hn as [Hn| ->]; auto.
  - intros a b H. destruct (C a b H). split; apply add_In; now left.
Qed.

Lemma closed_connect nodes connections (a b : str) :
  a <> [] -> b <> [] -> closed nodes connections ->
  closed (JS.add (JS.add nodes a) b) (connections ++ [(a, b)]).
Proof.
  intros Ha Hb (N & E & C). split; [now repeat apply add_NoDup|]. split.
  - intros n Hn. apply add_In in Hn as [Hn| ->]; [|exact Hb].
    apply add_In in Hn as [Hn| ->]; auto.
  - intros x y H. apply in_app_or in H as [H|[H|[]]].
    + destruct (C x y H). split; apply add_In; left; apply add_In; now left.
    + inversion H; subst. split; apply add_In; [left; apply add_In|]; now right.
Qed.

Lemma length_pos (s : str) : (0 <? length s) = true -> s <> [].
Proof. destruct s; discriminate. Qed.

Lemma extractNode_closed e r :
  closed (nodes e) (connections e) ->
  closed (nodes (extractNode e r)) (connections (extractNode e r)).
Proof.
  intros H. unfold extractNode. cbv zeta.
  destruct ((0 <? length (JS.trim (groupOr 1 r)))
            && negb (JS.includes (JS.trim (groupOr 1 r)) (js " "))) eqn:E; [|exact H].
  cbn [nodes connections]. apply andb_prop in E as [E _].
  apply closed_add; [now apply length_pos|exact H].
Qed.

Lemma extractConnection_closed e r :
  closed (nodes e) (connections e) ->
  closed (nodes (extractConnection e r)) (connections (extractConnection e r)).
Proof.
  intros H. unfold extractConnection. cbv zeta.
  destruct ((0 <? length (JS.trim (groupOr 1 r)))
            && (0 <? length (JS.trim (groupOr 2 r)))) eqn:E; [|exact H].
  cbn [nodes connections]. apply andb_prop in E as [E1 E2].
  apply closed_connect; [now apply length_pos|now apply length_pos|exact H].
Qed.

Lemma fold_closed (A : Type) (f : extraction -> A -> extraction) :
  (forall e x, closed (nodes e) (connections e) ->
               closed (nodes (f e x)) (connections (f e x))) ->
  forall l e, closed (nodes e) (connections e) ->
    closed (nodes (fold_left f l e)) (connections (fold_left f l e)).
Proof.
  intros Hf l. induction l as [|x l IH]; intros e H; simpl; [exact H|].
  apply IH. now apply Hf.
Qed.

Lemma extractLine_closed e line :
  closed (nodes e) (connections e) ->
  closed (nodes (extractLine e line)) (connections (extractLine e line)).
Proof.
  intros H. unfold extractLine.
  destruct (JS.startsWith (JS.trim line) (js "%")); [exact H|]. cbv zeta.
  apply fold_closed; [apply extractConnection_closed|].
  apply fold_closed; [apply extractNode_closed|exact H].
Qed.

(** X11.  In what [createFallbackDiagram] extracts from a diagram, no
    node is listed twice, no node is the empty string, and both ends of
    every connection are among the nodes: each connection line of the
    document it builds has its two definition lines. *)
Theorem extract_closed (originalDiagram : str) :
  NoDup (nodes (extract originalDiagram))
  /\ (forall n, In n (nodes (extract originalDiagram)) -> n <> [])
  /\ (forall a b, In (a, b) (connections (extract originalDiagram)) ->
        In a (nodes (extract originalDiagram)) /\ In b (nodes (extract originalDiagram))).
Proof.
  unfold extract. cbv zeta.
  apply (fold_closed str extractLine extractLine_closed).
  cbn [nodes connections]. split; [constructor|]. split; intros; contradiction.
Qed.

Lemma extract_closed_witness :
  In (js "B") (nodes (extract (js "A[a] --> B\nB --> C")))
  /\ In (js "C") (nodes (extract (js "A[a] --> B\nB --> C"))).
Proof.
  apply (proj2 (proj2 (extract_closed (js "A[a] --> B\nB --> C")))).
  vm_compute. left. reflexivity.
Defined.

(** The same for [extractDiagramFromText]. *)
Lemma textConnection_closed st r :
  closed (fst st) (snd st) ->
  closed (fst (textConnection st r)) (snd (textConnection st r)).
Proof.
  intros H. unfold textConnection. cbv zeta.
  destruct ((0 <? length (JS.trim (groupOr 1 r)))
            && (0 <? length (JS.trim (groupOr 2 r)))) eqn:E; [|exact H].
  cbn [fst snd]. apply andb_prop in E as [E1 E2].
  apply closed_connect; [now apply length_pos|now apply length_pos|exact H].
Qed.

Lemma textNode_closed nodes connections line :
  closed nodes connections -> closed (textNode nodes line) connections.
Proof.
  intros H. unfold textNode. destruct (match_ nodePattern line) as [r|]; [|exact H].
  cbv zeta.
  destruct ((0 <? length (JS.trim (groupOr 1 r)))
            && negb (JS.includes (JS.trim (groupOr 1 r)) (js " "))) eqn:E; [|exact H].
  apply andb_prop in E as [E _]. apply closed_add; [now apply length_pos|exact H].
Qed.

Lemma fold_pair_closed (A : Type)
    (f : list str * list (str * str) -> A -> list str * list (str * str)) :
  (forall st x, closed (fst st) (snd st) -> closed (fst (f st x)) (snd (f st x))) ->
  forall l st, closed (fst st) (snd st) ->
    closed (fst (fold_left f l st)) (snd (fold_left f l st)).
Proof.
  intros Hf l. induction l as [|x l IH]; intros st H; simpl; [exact H|].
  apply IH. now apply Hf.
Qed.

Lemma textLine_closed st line :
  closed (fst st) (snd st) -> closed (fst (textLine st line)) (snd (textLine st line)).
Proof.
  intros H. unfold textLine.
  destruct ((100 <? length line) || JS.includes line (js ".") || JS.includes line (js ";"));
    [exact H|].
  apply fold_pair_closed; [apply textConnection_closed|].
  cbn [fst snd]. now apply textNode_closed.
Qed.

Lemma textExtraction_closed (text : str) :
  closed (fst (textExtraction text)) (snd (textExtraction text)).
Proof.
  unfold textExtraction. apply fold_pair_closed; [apply textLine_closed|].
  cbn [fst snd]. split; [constructor|]. split; intros; contradiction.
Qed.

(** The ids it collects hold no line feed. *)
Lemma match_matchAt x s r :
  match_ x s = Some r ->
  exists st st', matchAt x st = Some st' /\ r = result_of st st'.
Proof.
  unfold match_, exec. destruct (length s <? 0); [discriminate|].
  destruct (search x 0 (last_opt (firstn 0 s)) (skipn 0 s)) as [[st st']|] eqn:Es;
    [|discriminate].
  intros E. inversion E; subst r.
  apply search_some in Es as (j & _ & _ & _ & _ & Hm & _). eauto.
Qed.

Lemma textConnectionPattern_groups st st' :
  Sem f0 (pattern textConnectionPattern) st st' ->
  exists g1 g2, Forall idc g1 /\ Forall idc g2
    /\ get_cap 1 (ms_caps st') = Some g1 /\ get_cap 2 (ms_caps st') = Some g2.
Proof.
  unfold textConnectionPattern, rx, pattern. cbn [seq Sem].
  intros (m1 & H1 & m2 & Hw1 & m3 & Ha & m4 & Hw2 & H2).
  apply Connections.ident_group in H1 as (g1 & F1 & C1).
  apply Connections.ident_group in H2 as (g2 & F2 & C2).
  exists g1, g2. split; [exact F1|]. split; [exact F2|].
  rewrite C2.
  assert (ms_caps m4 = ms_caps m1) as ->.
  { change (iter (Sem f0 ws) m3 m4) in Hw2. change (iter (Sem f0 ws) m1 m2) in Hw1.
    rewrite (Connections.Sem_groupFree f0 (Star ws) eq_refl _ _ Hw2).
    rewrite (Connections.Sem_groupFree f0 (alt (lit (js "-->") :: arrows)) eq_refl _ _ Ha).
    apply (Connections.Sem_groupFree f0 (Star ws) eq_refl _ _ Hw1). }
  rewrite C1. split; reflexivity.
Qed.

Lemma nodePattern_group st st' :
  Sem f0 (pattern nodePattern) st st' ->
  exists g, Forall idc g /\ get_cap 1 (ms_caps st') = Some g.
Proof.
  unfold nodePattern, rx, pattern. cbn [seq Sem].
  intros (m1 & H1 & Hb).
  apply Connections.ident_group in H1 as (g & F & C).
  exists g. split; [exact F|].
  match type of Hb with Sem _ ?b _ _ =>
    rewrite (Connections.Sem_groupFree f0 b eq_refl _ _ Hb) end.
  rewrite C. reflexivity.
Qed.

Lemma trim_idc_no_nl g : Forall idc g -> ~ In nl (JS.trim g).
Proof. intros F H. apply trim_incl in H. now apply (Connections.idc_no_nl g). Qed.

Lemma add_plain nodes (x : str) : ~ In nl x -> plain nodes -> plain (JS.add nodes x).
Proof. intros Hx P n Hn. apply add_In in Hn as [Hn| ->]; auto. Qed.

Lemma textConnection_plain line st r :
  In r (execAll textConnectionPattern line) ->
  plain (fst st) -> plain (fst (textConnection st r)).
Proof.
  intros Hr P. unfold textConnection. cbv zeta.
  destruct ((0 <? length (JS.trim (groupOr 1 r)))
            && (0 <? length (JS.trim (groupOr 2 r)))); [|exact P].
  cbn [fst].
  apply Connections.In_execAll in Hr as (s0 & s1 & Hm & ->).
  apply Matching.matchAt_sound, textConnectionPattern_groups in Hm
    as (g1 & g2 & F1 & F2 & C1 & C2).
  unfold groupOr, group, result_of. cbn [m_caps]. rewrite C1, C2.
  apply add_plain; [now apply trim_idc_no_nl|].
  apply add_plain; [now apply trim_idc_no_nl|exact P].
Qed.

Lemma textConnections_plain line rs : forall st,
  (forall r, In r rs -> In r (execAll textConnectionPattern line)) ->
  plain (fst st) -> plain (fst (fold_left textConnection rs st)).
Proof.
  induction rs as [|r rs IH]; intros st H P; simpl; [exact P|].
  apply IH; [intros r0 H0; apply H; now right|].
  eapply textConnection_plain; [apply H; now left|exact P].
Qed.

Lemma textNode_plain nodes line : plain nodes -> plain (textNode nodes line).
Proof.
  intros P. unfold textNode. destruct (match_ nodePattern line) as [r|] eqn:E; [|exact P].
  cbv zeta.
  destruct ((0 <? length (JS.trim (groupOr 1 r)))
            && negb (JS.includes (JS.trim (groupOr 1 r)) (js " "))); [|exact P].
  apply match_matchAt in E as (s0 & s1 & Hm & ->).
  apply Matching.matchAt_sound, nodePattern_group in Hm as (g & F & C).
  unfold groupOr, group, result_of. cbn [m_caps]. rewrite C.
  apply add_plain; [now apply trim_idc_no_nl|exact P].
Qed.

Lemma textLine_plain st line : plain (fst st) -> plain (fst (textLine st line)).
Proof.
  intros P. unfold textLine.
  destruct ((100 <? length line) || JS.includes line (js ".") || JS.includes line (js ";"));
    [exact P|].
  apply (textConnections_plain line); [auto|]. cbn [fst]. now apply textNode_plain.
Qed.

Lemma textExtraction_plain (text : str) : plain (fst (textExtraction text)).
Proof.
  unfold textExtraction.
  assert (forall l st, plain (fst st) -> plain (fst (fold_left textLine l st))) as H.
  { induction l as [|x l IH]; intros st P; simpl; [exact P|].
    apply IH. now apply textLine_plain. }
  apply H. intros n [].
Qed.

(** The document [extractDiagramFromText] writes: there is none exactly
    when no node was collected. *)
Lemma extractDiagramFromText_shape (text : str) :
  extractDiagramFromText text =
  match fst (textExtraction text) with
  | [] => None
  | _ :: _ =>
      Some (js "graph TD" ++ nl ::
            concat (map (fun node => definitionLine node ++ js "\n") (fst (textExtraction text)))
            ++ concat (map (fun conn => edgeLine (fst conn) (snd conn) ++ js "\n")
                         (snd (textExtraction text))) ++ [])
  end.
Proof.
  unfold extractDiagramFromText.
  destruct (textExtraction_closed text) as (_ & _ & C).
  destruct (textExtraction text) as [nodes conns]. cbn [fst snd] in *.
  destruct nodes as [|n ns].
  - destruct conns as [|[a b] cs]; [reflexivity|].
    destruct (C a b (or_introl eq_refl)) as [[] _].
  - cbn [length Nat.ltb Nat.leb orb].
    rewrite (map_ext (fun node => js "    " ++ node ++ js "[" ++ node ++ js "]\n")
                     (fun node => definitionLine node ++ js "\n"))
      by (intros node; unfold definitionLine; now rewrite <- !app_assoc).
    rewrite (map_ext (fun conn : str * str =>
                        js "    " ++ fst conn ++ js " --> " ++ snd conn ++ js "\n")
                     (fun conn => edgeLine (fst conn) (snd conn) ++ js "\n"))
      by (intros conn; unfold edgeLine; now rewrite <- !app_assoc).
    rewrite app_nil_r. reflexivity.
Qed.

(** X12.  A document that [extractDiagramFromText] returns starts with
    the line [graph TD] and, for every connection it collected, holds the
    edge line and the definition lines of its two ends. *)
Theorem extractDiagramFromText_defined (text d : str) (a b : str) :
  extractDiagramFromText text = Some d ->
  In (a, b) (snd (textExtraction text)) ->
  JS.startsWith d (js "graph TD\n") = true
  /\ In (definitionLine a) (JS.split nl d)
  /\ In (definitionLine b) (JS.split nl d)
  /\ In (edgeLine a b) (JS.split nl d).
Proof.
  intros E Hc. rewrite extractDiagramFromText_shape in E.
  destruct (textExtraction_closed text) as (_ & _ & C).
  destruct (C a b Hc) as [Ha Hb].
  pose proof (textExtraction_plain text a Ha) as Na.
  pose proof (textExtraction_plain text b Hb) as Nb.
  destruct (fst (textExtraction text)) as [|n ns] eqn:En; [discriminate|].
  rewrite <- En in *. clear En.
  match type of E with Some ?t = _ => set (out := t) in E end.
  assert (d = out) as -> by congruence. unfold out. clear E out.
  split; [reflexivity|].
  split; [|split]; rewrite split_app; apply in_or_app; right.
  - apply (In_split_lines str definitionLine); [exact Ha|].
    now apply Validator.definitionLine_no_nl.
  - apply (In_split_lines str definitionLine); [exact Hb|].
    now apply Validator.definitionLine_no_nl.
  - apply split_lines_after.
    apply (In_split_lines (str * str) (fun conn => edgeLine (fst conn) (snd conn))
             _ (a, b)); [exact Hc|].
    cbn [fst snd]. now apply Lines.edgeLine_no_nl.
Qed.

Lemma extractDiagramFromText_defined_witness :
  JS.startsWith (js "graph TD\n    --[--]\n    A[A]\n    B[B]\n    A --> B\n") (js "graph TD\n") = true
  /\ In (definitionLine (js "A"))
       (JS.split nl (js "graph TD\n    --[--]\n    A[A]\n    B[B]\n    A --> B\n"))
  /\ In (definitionLine (js "B"))
       (JS.split nl (js "graph TD\n    --[--]\n    A[A]\n    B[B]\n    A --> B\n"))
  /\ In (edgeLine (js "A") (js "B"))
       (JS.split nl (js "graph TD\n    --[--]\n    A[A]\n    B[B]\n    A --> B\n")).
Proof.
  apply (extractDiagramFromText_defined (js "The flow\nA --> B")).
  - reflexivity.
  - vm_compute. left. reflexivity.
Defined.

Lemma textLines_passed lines : forall st,
  (forall line, In line lines ->
     (100 <? length line) || JS.includes line (js ".") || JS.includes line (js ";") = true) ->
  fold_left textLine lines st = st.
Proof.
  induction lines as [|l0 lines IH]; intros st H; [reflexivity|]. simpl.
  unfold textLine at 2. rewrite (H l0 (or_introl eq_refl)).
  apply IH. intros line Hl. apply H. now right.
Qed.

(** X13.  [extractDiagramFromText] returns [null] for a text whose every
    line is longer than 100 code units or holds a full stop or a
    semicolon, whatever arrows and brackets the lines hold. *)
Theorem extractDiagramFromText_prose (text : str) :
  (forall line, In line (JS.split nl text) ->
     100 < length line \/ JS.includes line (js ".") = true
     \/ JS.includes line (js ";") = true) ->
  extractDiagramFromText text = None.
Proof.
  intros H. unfold extractDiagramFromText, textExtraction.
  rewrite textLines_passed; [reflexivity|].
  intros line Hl. destruct (H line Hl) as [L|[-> | ->]].
  - apply Nat.ltb_lt in L. now rewrite L.
  - now rewrite orb_true_r.
  - now rewrite orb_true_r.
Qed.

Lemma extractDiagramFromText_prose_witness :
  extractDiagramFromText (js "The app has a client A --> B.\nIt stores data; see C[db]")
  = None.
Proof.
  apply extractDiagramFromText_prose. intros line Hl. vm_compute in Hl.
  destruct Hl as [<-|[<-|[]]]; [right; left|right; right]; reflexivity.
Defined.

End Extraction.

(** ** The later steps of [ensurePerfectDiagram] *)

Module Steps.

Lemma insertMissing_lines text nodes : forall lines defs,
  incl nodes (collectReferenced text) ->
  incl (collectDefined [] text) defs ->
  let res := fold_left insertMissing nodes (lines, defs) in
  incl (collectDefined [] text) (snd res)
  /\ (forall l, In l lines -> In l (fst res))
  /\ (forall l, In l (fst res) -> In l lines \/ inserted text l).
Proof.
  induction nodes as [|n0 nodes IH]; intros lines defs Hn Hd; cbv zeta.
  - simpl. auto.
  - cbn [fold_left].
    assert (exists lines1 defs1,
              insertMissing (lines, defs) n0 = (lines1, defs1)
              /\ incl (collectDefined [] text) defs1
              /\ (forall l, In l lines -> In l lines1)
              /\ (forall l, In l lines1 -> In l lines \/ inserted text l))
      as (lines1 & defs1 & -> & D1 & K1 & I1).
    { unfold insertMissing.
      destruct (JS.has defs n0) eqn:Eh; cbn [negb andb].
      - exists lines, defs. auto.
      - destruct (str_eqb n0 (js "Unknown")) eqn:Eu; cbn [negb].
        + exists lines, defs. auto.
        + eexists _, _. split; [reflexivity|]. split; [|split].
          * intros n H. apply add_In. left. now apply Hd.
          * intros l H. apply In_spliceIn. now right.
          * intros l H. apply In_spliceIn in H as [->|H]; [right|now left].
            exists n0. split; [apply Hn; now left|]. split.
            -- intros K. apply Hd in K. apply has_In in K. congruence.
            -- split; [|reflexivity]. intros K. apply str_eqb_eq in K. congruence. }
    destruct (IH lines1 defs1) as (D & K & I); [intros x Hx; apply Hn; now right|exact D1|].
    split; [exact D|]. split; [auto|].
    intros l H. apply I in H as [H|H]; [apply I1 in H|]; tauto.
Qed.

Lemma inserted_no_nl text l : inserted text l -> ~ In nl l.
Proof.
  intros (n & Hn & _ & _ & ->). apply Validator.definitionLine_no_nl.
  apply Validator.collectReferenced_In in Hn as (r & Hr & [-> | ->]);
    now apply (Connections.connRegex_ids _ _ Hr).
Qed.

(** X14.  The last step of [ensurePerfectDiagram] deletes and changes no
    line: every line of the text is a line of its output, and every line
    of its output is a line of the text or the definition line of a node
    that the connection pattern finds in the text, the definition pattern
    does not, and that is not [Unknown]. *)
Theorem defineReferenced_lines (text l : str) :
  (In l (JS.split nl text) -> In l (JS.split nl (defineReferenced text)))
  /\ (In l (JS.split nl (defineReferenced text)) ->
      In l (JS.split nl text)
      \/ exists n, In n (collectReferenced text) /\ ~ In n (collectDefined [] text)
                   /\ n <> js "Unknown" /\ l = definitionLine n).
Proof.
  unfold defineReferenced. cbv zeta.
  destruct (insertMissing_lines text (collectReferenced text) (JS.split nl text)
              (collectDefined [] text) (incl_refl _) (incl_refl _)) as (_ & K & I).
  split.
  - intros H. apply In_split_join; [now apply K|]. now apply (split_pieces nl text).
  - intros H. apply In_split_join_inv in H.
    + destruct H as [H|[E _]]; [now apply I|].
      destruct (split_cons nl text) as (l0 & ls & E0).
      assert (In l0 (JS.split nl text)) as H0 by (rewrite E0; now left).
      apply K in H0. rewrite E in H0. destruct H0.
    + intros x Hx. apply I in Hx as [Hx|Hx];
        [now apply (split_pieces nl text)|now apply (inserted_no_nl text)].
Qed.

Lemma defineReferenced_lines_witness :
  In (js "A --> B") (JS.split nl (defineReferenced (js "graph TD\nA --> B"))).
Proof.
  apply (proj1 (defineReferenced_lines (js "graph TD\nA --> B") (js "A --> B"))).
  vm_compute. right. left. reflexivity.
Defined.

Lemma chr_eq_exact f (s t : str) :
  ignoreCase f = false -> Forall2 (fun a b => chr_eq f a b = true) s t -> s = t.
Proof.
  intros Hf F. apply Matching.Forall2_eqb.
  induction F as [|a b s' t' H _ IH]; constructor; [|exact IH].
  unfold chr_eq in H. rewrite Hf in H. exact H.
Qed.

Lemma lit_first f (s : str) st st' :
  ignoreCase f = false -> Sem f (lit s) st st' -> JS.startsWith (ms_rest st) s = true.
Proof.
  intros Hf H. apply Matching.lit_reach in H as (t & F & [R _]).
  apply (chr_eq_exact f) in F; [|exact Hf]. subst t. rewrite R. apply startsWith_app.
Qed.

(** A pattern that starts with a literal finds nothing in a text that
    does not hold the literal. *)
Lemma exec_none_without (x : regex) (s text : str) i :
  (forall st st', Sem (reflags x) (pattern x) st st' ->
                  JS.startsWith (ms_rest st) s = true) ->
  s <> [] -> JS.includes text s = false -> exec x text i = None.
Proof.
  intros Hp Hne Hi. unfold exec. destruct (length text <? i); [reflexivity|].
  rewrite Dangling.search_none_intro; [reflexivity|].
  intros j. destruct (matchAt x _) as [st'|] eqn:E; [|reflexivity].
  apply Matching.matchAt_sound, Hp in E.
  rewrite Dangling.after_rest, skipn_skipn in E.
  apply includes_skipn in E; [congruence|exact Hne].
Qed.

(** X15.  A text that holds neither [classDef] nor [subgraph] passes the
    third and fourth step of [ensurePerfectDiagram] unchanged: no style
    is rewritten and no [end] is appended. *)
Theorem styles_and_subgraphs_absent (text : str) :
  JS.includes text (js "classDef") = false ->
  JS.includes text (js "subgraph") = false ->
  fixClassDefs text = text /\ closeSubgraphs text = text.
Proof.
  intros Hc Hs. split.
  - unfold fixClassDefs. cbn [classDefLoop].
    rewrite (exec_none_without classDefRegex (js "classDef") text 0);
      [reflexivity| |discriminate|exact Hc].
    intros st st' (mid & H & _). now apply (lit_first f0) in H.
  - unfold closeSubgraphs, subgraphCount, execAll. cbn [execAll_from].
    rewrite (exec_none_without (rx (lit (js "subgraph"))) (js "subgraph") text 0);
      [reflexivity| |discriminate|exact Hs].
    intros st st' H. now apply (lit_first f0) in H.
Qed.

Lemma styles_and_subgraphs_absent_witness :
  fixClassDefs (js "graph TD\nA[a] --> B[b]") = js "graph TD\nA[a] --> B[b]"
  /\ closeSubgraphs (js "graph TD\nA[a] --> B[b]") = js "graph TD\nA[a] --> B[b]".
Proof. apply styles_and_subgraphs_absent; reflexivity. Defined.

End Steps.

(** ** From the producer to the engine *)

Module Producer.

(** X16.  [processMermaidDiagram] returns a text that starts with one of
    the nine diagram types, [graph TD] being put in front when none is
    there, and in which every line that is neither a comment nor a
    declaration has, in each bracket family, at least as many closing as
    opening brackets. *)
Theorem processMermaidDiagram_typed (diagram : str) :
  existsb (JS.startsWith (processMermaidDiagram diagram)) diagramTypes = true
  /\ forall line pair,
       In line (JS.split nl (processMermaidDiagram diagram)) ->
       isHeaderLine line = false -> In pair bracketPairs ->
       count_occ N.eq_dec line (fst pair) <= count_occ N.eq_dec line (snd pair).
Proof.
  unfold processMermaidDiagram. cbv zeta.
  match goal with
  | |- context [fixMismatchedBrackets ?p] => generalize p; intros processed
  end.
  destruct (existsb (JS.startsWith (fixMismatchedBrackets processed)) diagramTypes) eqn:E;
    cbn [negb].
  - split; [exact E|]. intros line pair Hl Hh Hp.
    now apply (Brackets.fixMismatchedBrackets_line_balanced processed line Hl Hh).
  - split; [reflexivity|]. intros line pair Hl Hh Hp.
    change (js "graph TD\n" ++ fixMismatchedBrackets processed)
      with (js "graph TD" ++ nl :: fixMismatchedBrackets processed) in Hl.
    rewrite split_app in Hl. apply in_app_or in Hl as [Hl|Hl].
    + vm_compute in Hl. destruct Hl as [<-|[]]. discriminate Hh.
    + now apply (Brackets.fixMismatchedBrackets_line_balanced processed line Hl Hh).
Qed.

Lemma processMermaidDiagram_typed_witness :
  count_occ N.eq_dec (js "A[x --> B") (ch "[") <= count_occ N.eq_dec (js "A[x --> B]") (ch "]")
  /\ count_occ N.eq_dec (js "A[x --> B]") (ch "[")
     <= count_occ N.eq_dec (js "A[x --> B]") (ch "]").
Proof.
  split; [vm_compute; lia|].
  apply (proj2 (processMermaidDiagram_typed (js "A[x --> B")) (js "A[x --> B]")
           (ch "[", ch "]")).
  - vm_compute. right. left. reflexivity.
  - reflexivity.
  - right. left. reflexivity.
Defined.

Lemma processMermaidDiagram_not_nil (diagram : str) : processMermaidDiagram diagram <> [].
Proof.
  unfold processMermaidDiagram. cbv zeta.
  match goal with
  | |- context [fixMismatchedBrackets ?p] => generalize p; intros processed
  end.
  destruct (existsb (JS.startsWith (fixMismatchedBrackets processed)) diagramTypes) eqn:E;
    cbn [negb]; [|discriminate].
  intros K. rewrite K in E. vm_compute in E. discriminate E.
Qed.

(** The first text a run hands to the engine. *)
Lemma renderDiagram_first (render : str -> str -> result str) (dateNow : nat -> str)
    (definition : str) (before : view) :
  definition <> [] ->
  hd_error (rendered (renderDiagram render dateNow (Some definition) before))
  = Some (processDefinition definition).
Proof.
  intros H. destruct definition as [|c definition]; [congruence|].
  unfold renderDiagram.
  destruct (render (js "mermaid-" ++ dateNow 0) (processDefinition (c :: definition)));
    [reflexivity|].
  destruct (render (js "sanitized-" ++ dateNow 1) (sanitize (c :: definition)));
    [reflexivity|].
  destruct (render (js "minimal-" ++ dateNow 2) minimalDiagram); reflexivity.
Qed.

(** X17.  [RepositoryDetails] mounts the diagram component only when the
    analysis is complete and [workflowDiagram] is not empty; the
    definition is [workflowDiagram] itself, so the component's guard for
    an empty definition is never taken from this caller, and the first
    text its run hands to the engine is [processDefinition] of it. *)
Theorem RepositoryDetails_mounts (render : str -> str -> result str) (dateNow : nat -> str)
    (isAnalysisComplete : bool) (detailedSummary workflowDiagram : str)
    (d : details) (definition : str) (before : view) :
  RepositoryDetails isAnalysisComplete detailedSummary workflowDiagram = Some d ->
  mounted d = Some definition ->
  isAnalysisComplete = true /\ definition = workflowDiagram /\ workflowDiagram <> []
  /\ hd_error (rendered (renderDiagram render dateNow (Some definition) before))
     = Some (processDefinition workflowDiagram).
Proof.
  unfold RepositoryDetails. destruct isAnalysisComplete; cbn [negb]; [|discriminate].
  intros E M. inversion E; subst d. cbn [mounted] in M.
  destruct workflowDiagram as [|c w]; [discriminate|]. inversion M; subst definition.
  split; [reflexivity|]. split; [reflexivity|]. split; [discriminate|].
  apply renderDiagram_first. discriminate.
Qed.

Lemma RepositoryDetails_mounts_witness :
  true = true /\ js "A --> B" = js "A --> B" /\ js "A --> B" <> []
  /\ hd_error (rendered (renderDiagram (fun _ _ => Throw (Thrown [])) (fun _ => [])
                           (Some (js "A --> B")) initialView))
     = Some (processDefinition (js "A --> B")).
Proof.
  apply (RepositoryDetails_mounts (fun _ _ => Throw (Thrown [])) (fun _ => [])
           true (js "Summary") (js "A --> B")
           (Details (Some [js "Summary"]) (Some (js "A --> B")))); reflexivity.
Defined.

(** X18.  A definition that went through [processMermaidDiagram] is
    always mounted once the analysis is complete, whatever the text it
    was made from, and the first text handed to the engine for it starts,
    once trimmed, with [graph] or [flowchart]. *)
Theorem producer_to_engine (render : str -> str -> result str) (dateNow : nat -> str)
    (detailedSummary diagram : str) (before : view) :
  exists d,
    RepositoryDetails true detailedSummary (processMermaidDiagram diagram) = Some d
    /\ mounted d = Some (processMermaidDiagram diagram)
    /\ exists first,
         hd_error (rendered (renderDiagram render dateNow (mounted d) before)) = Some first
         /\ first = processDefinition (processMermaidDiagram diagram)
         /\ (JS.startsWith (JS.trim first) (js "graph") = true
             \/ JS.startsWith (JS.trim first) (js "flowchart") = true).
Proof.
  pose proof (processMermaidDiagram_not_nil diagram) as T.
  destruct (processMermaidDiagram diagram) as [|c w] eqn:E; [congruence|].
  eexists. split; [reflexivity|]. cbn [mounted]. split; [reflexivity|].
  exists (processDefinition (c :: w)).
  split; [apply renderDiagram_first; discriminate|]. split; [reflexivity|].
  apply orb_prop. apply (Declared.processDefinition_isDeclaration (c :: w)).
Qed.

Lemma processMermaidDiagram_type (diagram : str) :
  existsb (JS.startsWith (processMermaidDiagram diagram)) diagramTypes = true.
Proof.
  unfold processMermaidDiagram. cbv zeta.
  match goal with
  | |- context [fixMismatchedBrackets ?p] => generalize p; intros processed
  end.
  destruct (existsb (JS.startsWith (fixMismatchedBrackets processed)) diagramTypes) eqn:E;
    cbn [negb]; [exact E|reflexivity].
Qed.

(** X19.  Whatever its two searches find in the response, the text
    [extractMermaidDiagram] returns starts with one of the nine diagram
    types; it is therefore never empty, and [RepositoryDetails] mounts the
    diagram component for it as soon as the analysis is complete. *)
Theorem extractMermaidDiagram_typed
    (mermaidMatch : str -> option str) (extractSection : str -> str -> str)
    (text detailedSummary : str) :
  let workflowDiagram := extractMermaidDiagram mermaidMatch extractSection text in
  existsb (JS.startsWith workflowDiagram) diagramTypes = true
  /\ workflowDiagram <> []
  /\ exists d, RepositoryDetails true detailedSummary workflowDiagram = Some d
               /\ mounted d = Some workflowDiagram.
Proof.
  cbv zeta.
  assert (existsb (JS.startsWith (extractMermaidDiagram mermaidMatch extractSection text))
            diagramTypes = true) as T.
  { unfold extractMermaidDiagram. cbv zeta.
    assert (existsb (JS.startsWith
                       match extractDiagramFromText text with
                       | Some (c :: extractedDiagram) => c :: extractedDiagram
                       | _ => defaultDiagram
                       end) diagramTypes = true) as F.
    { rewrite Extraction.extractDiagramFromText_shape.
      destruct (fst (textExtraction text)); reflexivity. }
    destruct (mermaidMatch text) as [[|c m1]|];
      try apply processMermaidDiagram_type;
      match goal with
      | |- context [match ?sec with [] => _ | _ :: _ => _ end] =>
          destruct sec as [|c0 sec0] eqn:Es; [exact F|]
      end;
      match goal with
      | |- context [if ?b then _ else _] => destruct b; [apply processMermaidDiagram_type|exact F]
      end. }
  split; [exact T|].
  assert (extractMermaidDiagram mermaidMatch extractSection text <> []) as N.
  { intros K. rewrite K in T. vm_compute in T. discriminate T. }
  split; [exact N|].
  destruct (extractMermaidDiagram mermaidMatch extractSection text) as [|c w];
    [congruence|].
  eexists. split; reflexivity.
Qed.

End Producer.

(** ** Counting [subgraph] and [end] *)

Module Subgraphs.

Lemma last_opt_app (a : str) c t : last_opt (a ++ c :: t) = lastOr (Some c) t.
Proof.
  unfold last_opt. rewrite rev_app_distr. simpl rev.
  assert (forall p, lastOr p t = match rev t with d :: _ => Some d | [] => p end) as L.
  { clear. induction t as [|a t IH]; intros p; [reflexivity|].
    simpl. rewrite IH. destruct (rev t); reflexivity. }
  rewrite L. destruct (rev t); reflexivity.
Qed.

Lemma cut_firstn (a b : str) : firstn (length a) (a ++ b) = a.
Proof. now rewrite firstn_app, Nat.sub_diag, firstn_all, firstn_O, app_nil_r. Qed.

Lemma cut_skipn (a b : str) : skipn (length a) (a ++ b) = b.
Proof. now rewrite skipn_app, Nat.sub_diag, skipn_all. Qed.

Section Counting.

Variable x : regex.
Variable hit : option char -> str -> bool.
Variable c0 : char.
Variable w' : str.

Hypothesis fresh : ~ In c0 w'.
Hypothesis matchAt_hit : forall pos prev rest,
  matchAt x (MState pos prev rest []) =
  if hit prev rest then Some (skip (c0 :: w') (MState pos prev rest [])) else None.
Hypothesis hit_starts : forall prev rest,
  hit prev rest = true -> JS.startsWith rest (c0 :: w') = true.

(** Two occurrences do not overlap. *)
Lemma hits_inside : forall t prev post,
  ~ In c0 t -> hits hit prev (t ++ post) = hits hit (lastOr prev t) post.
Proof.
  induction t as [|a t IH]; intros prev post H; [reflexivity|].
  simpl. rewrite IH by (intros K; apply H; now right).
  destruct (hit prev (a :: t ++ post)) eqn:E; [|reflexivity].
  apply hit_starts in E. simpl in E. apply andb_prop in E as [E _].
  apply N.eqb_eq in E. exfalso. apply H. left. congruence.
Qed.

Lemma hit_here prev rest :
  hit prev rest = true ->
  exists post, rest = (c0 :: w') ++ post
    /\ hits hit prev rest = S (hits hit (lastOr (Some c0) w') post).
Proof.
  intros E. pose proof (hit_starts _ _ E) as S0.
  apply Bounds.startsWith_inv in S0 as [post ->].
  exists post. split; [reflexivity|].
  cbn [app hits] in *. rewrite E. now rewrite hits_inside.
Qed.

Lemma search_hits : forall rest pos prev,
  match search x pos prev rest with
  | None => hits hit prev rest = 0
  | Some (st, st') =>
      exists pre post, rest = pre ++ (c0 :: w') ++ post
        /\ ms_pos st = pos + length pre
        /\ ms_pos st' = pos + length pre + length (c0 :: w')
        /\ hits hit prev rest = S (hits hit (lastOr (Some c0) w') post)
  end.
Proof.
  induction rest as [|c rest IH]; intros pos prev; rewrite search_unfold, matchAt_hit.
  - destruct (hit prev []) eqn:E.
    + apply hit_starts in E. discriminate E.
    + simpl. now rewrite E.
  - destruct (hit prev (c :: rest)) eqn:E.
    + destruct (hit_here _ _ E) as (post & S0 & H).
      exists [], post. split; [exact S0|]. split; [simpl; lia|]. split; [|exact H].
      rewrite Matching.skip_pos. cbn [ms_pos length]. lia.
    + specialize (IH (S pos) (Some c)).
      destruct (search x (S pos) (Some c) rest) as [[st st']|].
      * destruct IH as (pre & post & -> & P & P' & H).
        exists (c :: pre), post. repeat split.
        -- rewrite P. simpl. lia.
        -- rewrite P'. simpl. lia.
        -- cbn [hits]. cbn [app] in E. cbn [app]. rewrite E. exact H.
      * cbn [hits]. rewrite E, IH. reflexivity.
Qed.

Lemma execAll_from_hits (s : str) : forall fuel i,
  i <= length s -> length s - i < fuel ->
  length (execAll_from x s fuel i) = hits hit (last_opt (firstn i s)) (skipn i s).
Proof.
  induction fuel as [|n IH]; intros i Hi Hf; [lia|].
  cbn [execAll_from]. unfold exec.
  destruct (length s <? i) eqn:L; [apply Nat.ltb_lt in L; lia|].
  pose proof (search_hits (skipn i s) i (last_opt (firstn i s))) as H.
  destruct (search x i (last_opt (firstn i s)) (skipn i s)) as [[st st']|].
  - destruct H as (pre & post & E & P & P' & H).
    cbn [m_end m_index result_of length]. rewrite H, P, P'.
    assert (length (firstn i s) = i) as Li by (rewrite length_firstn; lia).
    assert (length s = i + length pre + length (c0 :: w') + length post) as Ls.
    { rewrite <- (firstn_skipn i s), length_app, Li, E, !length_app. lia. }
    destruct (Nat.eqb_spec (i + length pre + length (c0 :: w')) (i + length pre));
      [cbn [length] in *; lia|].
    f_equal. rewrite IH; [|lia|lia].
    remember (firstn i s) as F eqn:EF.
    assert (s = (F ++ pre ++ c0 :: w') ++ post) as Es'.
    { rewrite <- (firstn_skipn i s), <- EF, E, <- !app_assoc. reflexivity. }
    assert (i + length pre + length (c0 :: w') = length (F ++ pre ++ c0 :: w')) as ->.
    { rewrite !length_app, Li. lia. }
    rewrite Es', cut_firstn, cut_skipn, app_assoc, last_opt_app. reflexivity.
  - rewrite H. reflexivity.
Qed.

Lemma execAll_hits (s : str) : length (execAll x s) = hits hit None s.
Proof.
  unfold execAll. rewrite execAll_from_hits; [reflexivity|lia|lia].
Qed.

Hypothesis hit_line : forall prev rest v, hit prev (rest ++ nl :: v) = hit prev rest.
Hypothesis hit_prev : forall rest, hit (Some nl) rest = hit None rest.

Lemma hits_lines (b : str) : forall a prev,
  hits hit prev (a ++ nl :: b) = hits hit prev a + hits hit None b.
Proof.
  assert (hits hit (Some nl) b = hits hit None b) as Hb.
  { destruct b; cbn [hits]; now rewrite hit_prev. }
  induction a as [|c a IH]; intros prev.
  - pose proof (hit_line prev [] b) as H0. cbn [app hits] in *. rewrite H0, Hb. lia.
  - pose proof (hit_line prev (c :: a) b) as H0. cbn [app hits] in *. rewrite H0, IH. lia.
Qed.

Lemma execAll_lines (a b : str) :
  length (execAll x (a ++ nl :: b)) = length (execAll x a) + length (execAll x b).
Proof. rewrite !execAll_hits. apply hits_lines. Qed.

End Counting.

Lemma startsWith_line (p : str) : ~ In nl p -> forall rest v,
  JS.startsWith (rest ++ nl :: v) p = JS.startsWith rest p.
Proof.
  induction p as [|c p IH]; intros H rest v; [reflexivity|].
  destruct rest as [|d rest]; cbn [app JS.startsWith].
  - destruct (N.eqb_spec c nl) as [->|_]; [|reflexivity].
    exfalso. apply H. now left.
  - rewrite IH; [reflexivity|]. intros K. apply H. now right.
Qed.

Lemma m_lit f (s : str) : ignoreCase f = false -> forall k st,
  m f (lit s) k st = if JS.startsWith (ms_rest st) s then k (skip s st) else None.
Proof.
  intros Hf. induction s as [|c s IH]; intros k st; [reflexivity|].
  assert (forall k', one (chr_eq f c) k' st =
            match ms_rest st with
            | b :: _ => if (c =? b)%N then k' (step c st) else None
            | [] => None
            end) as O.
  { intros k'. unfold one, chr_eq. rewrite Hf. destruct (ms_rest st) as [|b r]; [reflexivity|].
    destruct (N.eqb_spec c b) as [->|_]; reflexivity. }
  destruct s as [|d s'].
  - cbn [lit m JS.startsWith skip]. rewrite O.
    destruct (ms_rest st) as [|b r]; [reflexivity|]. now rewrite andb_true_r.
  - change (lit (c :: d :: s')) with (Seq (Chr c) (lit (d :: s'))).
    cbn [m]. rewrite O. cbn [JS.startsWith skip].
    destruct (ms_rest st) as [|b r] eqn:R; [reflexivity|].
    destruct (c =? b)%N; [|reflexivity].
    rewrite IH. cbn [step ms_rest andb]. rewrite R. reflexivity.
Qed.

Lemma matchAt_subgraph pos prev rest :
  matchAt (rx (lit (js "subgraph"))) (MState pos prev rest []) =
  if subgraphAt prev rest
  then Some (skip (js "subgraph") (MState pos prev rest [])) else None.
Proof.
  unfold matchAt, subgraphAt. cbn [rx reflags pattern].
  now rewrite m_lit.
Qed.

Lemma matchAt_end pos prev rest :
  matchAt (rx (seq [WordB; lit (js "end"); WordB])) (MState pos prev rest []) =
  if endAt prev rest
  then Some (skip (js "end") (MState pos prev rest [])) else None.
Proof.
  unfold matchAt, endAt. cbn [rx reflags pattern seq].
  cbn [m ms_prev ms_rest].  
  destruct (xorb (isWordO prev) (isWordO (hd_error rest))); cbn [andb]; [|reflexivity].
  rewrite m_lit by reflexivity. cbn [ms_rest].
  destruct (JS.startsWith rest (js "end")) eqn:E; cbn [andb]; [|reflexivity].
  apply Bounds.startsWith_inv in E as [r ->].
  change (js "end" ++ r) with (101 :: 110 :: 100 :: r)%N.
  change (js "end") with [101; 110; 100]%N.
  cbn [skip step ms_prev ms_rest ms_pos ms_caps tl skipn isWordO].
  change (JS.isWord 100%N) with true. cbn [xorb].
  destruct (isWordO (hd_error r)); reflexivity.
Qed.

Lemma subgraphCount_hits s : subgraphCount s = hits subgraphAt None s.
Proof.
  unfold subgraphCount.
  apply (execAll_hits _ subgraphAt 115%N [117; 98; 103; 114; 97; 112; 104]%N).
  - intros K. repeat (destruct K as [K|K]; [discriminate K|]). exact K.
  - exact matchAt_subgraph.
  - intros prev rest H. exact H.
Qed.

Lemma endCount_hits s : endCount s = hits endAt None s.
Proof.
  unfold endCount.
  apply (execAll_hits _ endAt 101%N [110; 100]%N).
  - intros K. repeat (destruct K as [K|K]; [discriminate K|]). exact K.
  - exact matchAt_end.
  - intros prev rest H. unfold endAt in H.
    apply andb_prop in H as [H _]. apply andb_prop in H as [_ H]. exact H.
Qed.

Lemma subgraphAt_line prev rest v : subgraphAt prev (rest ++ nl :: v) = subgraphAt prev rest.
Proof.
  apply startsWith_line. intros K.
  repeat (destruct K as [K|K]; [discriminate K|]). exact K.
Qed.

Lemma endAt_line prev rest v : endAt prev (rest ++ nl :: v) = endAt prev rest.
Proof.
  unfold endAt. rewrite startsWith_line.
  2:{ intros K. repeat (destruct K as [K|K]; [discriminate K|]). exact K. }
  destruct rest as [|c1 [|c2 [|c3 [|c4 rest]]]]; try reflexivity.
  all: change (js "end") with [101; 110; 100]%N; cbn [app JS.startsWith hd_error skipn].
  all: repeat (rewrite ?andb_false_r; cbn [andb]); reflexivity.
Qed.

(** Both counts add up over lines. *)
Lemma subgraphCount_lines a b :
  subgraphCount (a ++ nl :: b) = subgraphCount a + subgraphCount b.
Proof.
  rewrite !subgraphCount_hits. apply hits_lines.
  - exact subgraphAt_line.
  - reflexivity.
Qed.

Lemma endCount_lines a b : endCount (a ++ nl :: b) = endCount a + endCount b.
Proof.
  rewrite !endCount_hits. apply hits_lines.
  - exact endAt_line.
  - reflexivity.
Qed.

(** What the appended line counts for. *)
Lemma subgraphCount_ends k : subgraphCount (JS.repeat (js "end") k) = 0.
Proof.
  rewrite subgraphCount_hits. generalize (@None char).
  induction k as [|k IH]; intros prev; [reflexivity|].
  change (JS.repeat (js "end") (S k)) with (101 :: 110 :: 100 :: JS.repeat (js "end") k)%N.
  cbn [hits]. rewrite IH. reflexivity.
Qed.

Lemma hits_ends_glued k : forall prev,
  isWordO prev = true -> hits endAt prev (JS.repeat (js "end") k) = 0.
Proof.
  induction k as [|k IH]; intros prev H.
  - cbn [JS.repeat hits]. unfold endAt. rewrite H. reflexivity.
  - change (JS.repeat (js "end") (S k)) with (101 :: 110 :: 100 :: JS.repeat (js "end") k)%N.
    cbn [hits]. rewrite IH by reflexivity.
    unfold endAt. cbn [hd_error isWordO]. rewrite H. reflexivity.
Qed.

Lemma endCount_ends k :
  endCount (JS.repeat (js "end") k) = if k =? 1 then 1 else 0.
Proof.
  rewrite endCount_hits.
  destruct k as [|[|k]]; [reflexivity|reflexivity|].
  change (JS.repeat (js "end") (S (S k)))
    with (101 :: 110 :: 100 :: JS.repeat (js "end") (S k))%N.
  cbn [hits]. rewrite hits_ends_glued by reflexivity.
  reflexivity.
Qed.

(** The counts after the fourth step. *)
Lemma closeSubgraphs_counts (text : str) :
  subgraphCount (closeSubgraphs text) = subgraphCount text
  /\ endCount (closeSubgraphs text) =
     endCount text + (if subgraphCount text - endCount text =? 1 then 1 else 0).
Proof.
  unfold closeSubgraphs.
  destruct (endCount text <? subgraphCount text) eqn:L.
  - change (js "\n" ++ ?r) with (nl :: r).
    rewrite subgraphCount_lines, endCount_lines, subgraphCount_ends, endCount_ends.
    split; [lia|reflexivity].
  - apply Nat.ltb_ge in L. split; [reflexivity|].
    destruct (Nat.eqb_spec (subgraphCount text - endCount text) 1); lia.
Qed.

(** X20.  When exactly one [end] is missing, the fourth step of
    [ensurePerfectDiagram] appends the line [end]; after it there are as
    many [end] as [subgraph], and a second run of the step changes
    nothing. *)
Theorem closeSubgraphs_one_missing (text : str) :
  subgraphCount text = S (endCount text) ->
  closeSubgraphs text = text ++ js "\nend"
  /\ endCount (closeSubgraphs text) = subgraphCount (closeSubgraphs text)
  /\ closeSubgraphs (closeSubgraphs text) = closeSubgraphs text.
Proof.
  intros H. destruct (closeSubgraphs_counts text) as [Cs Ce].
  assert (endCount (closeSubgraphs text) = subgraphCount (closeSubgraphs text)) as B.
  { rewrite Cs, Ce, H.
    replace (S (endCount text) - endCount text) with 1 by lia. cbn [Nat.eqb]. lia. }
  split; [|split; [exact B|]].
  - unfold closeSubgraphs. rewrite H.
    destruct (Nat.ltb_spec (endCount text) (S (endCount text))) as [_|L]; [|lia].
    replace (S (endCount text) - endCount text) with 1 by lia. reflexivity.
  - unfold closeSubgraphs at 1. rewrite B, Nat.ltb_irrefl. reflexivity.
Qed.

Lemma closeSubgraphs_one_missing_witness :
  closeSubgraphs (js "subgraph a") = js "subgraph a" ++ js "\nend"
  /\ endCount (closeSubgraphs (js "subgraph a"))
     = subgraphCount (closeSubgraphs (js "subgraph a"))
  /\ closeSubgraphs (closeSubgraphs (js "subgraph a")) = closeSubgraphs (js "subgraph a").
Proof. apply closeSubgraphs_one_missing. reflexivity. Defined.

(** X21.  When two or more [end] are missing, the fourth step of
    [ensurePerfectDiagram] appends them glued into one word, which counts
    for none: both counts stay as they were, as many [end] are missing
    after the step as before it, and every further run appends the same
    line again. *)
Theorem closeSubgraphs_more_missing (text : str) :
  S (endCount text) < subgraphCount text ->
  let missing := subgraphCount text - endCount text in
  subgraphCount (closeSubgraphs text) = subgraphCount text
  /\ endCount (closeSubgraphs text) = endCount text
  /\ closeSubgraphs (closeSubgraphs text)
     = text ++ js "\n" ++ JS.repeat (js "end") missing
            ++ js "\n" ++ JS.repeat (js "end") missing.
Proof.
  intros H missing. destruct (closeSubgraphs_counts text) as [Cs Ce].
  assert (endCount (closeSubgraphs text) = endCount text) as Ce'.
  { rewrite Ce. fold missing.
    destruct (Nat.eqb_spec missing 1) as [E|_]; [unfold missing in E; lia|lia]. }
  split; [exact Cs|]. split; [exact Ce'|].
  unfold closeSubgraphs at 1. rewrite Cs, Ce'. fold missing.
  destruct (Nat.ltb_spec (endCount text) (subgraphCount text)) as [_|L]; [|lia].
  unfold closeSubgraphs.
  destruct (Nat.ltb_spec (endCount text) (subgraphCount text)) as [_|L]; [|lia].
  fold missing. rewrite <- !app_assoc. reflexivity.
Qed.

Lemma closeSubgraphs_more_missing_witness :
  subgraphCount (closeSubgraphs (js "subgraph a\nsubgraph b")) = 2
  /\ endCount (closeSubgraphs (js "subgraph a\nsubgraph b")) = 0
  /\ closeSubgraphs (closeSubgraphs (js "subgraph a\nsubgraph b"))
     = js "subgraph a\nsubgraph b\nendend\nendend".
Proof.
  apply (closeSubgraphs_more_missing (js "subgraph a\nsubgraph b")).
  vm_compute. lia.
Defined.

End Subgraphs.
